(** * Restriction-to-flow compiler of the AGV time-space graph

    A shallow embedding of

      - [controller/RestrictionForTimeFrameController.py]
        (class [RestrictionForTimeFrameController]) and
      - [gamma_analysis/integrated_gamma_control.py]
        (method [GammaControlIntegrator.analyze_escape_edge_flow]),

    followed by the properties of the embedding.

    Conventions of the embedding.

      - Python [int] is [Z]; [//] and [%] are [Z.div] and [Z.modulo], which
        agree with Python's floor division for every sign of the operands
        (Python raises on a zero divisor, where Rocq returns a default; the
        spatial node count [M] is positive in every graph).
      - A Python [float] is a binary64 number, the [spec_float] of the
        standard library at precision 53 and maximal exponent 1024, with
        its correctly rounded operations.  A number that the controller
        only stores, compares or rounds (priority, k-factor, explicit
        gamma, gamma floor) is held by its value, a [Q]; where the code
        multiplies it, the double of that value is taken.
      - A [dict] is a [gmap], a [set] a [gset], a [list] a [list].
      - [self] and [self._graph_processor] are passed and returned
        explicitly; [print] calls are dropped.
      - The graph processor, networkx and numpy are collaborators whose
        code is not part of the controller: their methods are the fields
        of the class [Collaborators]. *)

From stdpp Require Import base gmap sets list strings pretty.
From Stdlib Require Import ZArith QArith Qround Lia Lqa SpecFloat.

#[local] Open Scope Z_scope.
#[local] Set Warnings "-clear-no-such-hyp".

(** ** Data model *)

(** A time-expanded edge, the Python tuple
    [(source_id, dest_id, lower_bound, capacity, cost)].  The cost may be
    [None] ([calculate_default_gamma] filters such costs out). *)
Definition edge : Type := Z * Z * Z * Z * option Z.

Definition endpoints (e : edge) : Z * Z :=
  let '(source_id, dest_id, _, _, _) := e in (source_id, dest_id).

Definition edge_cost (e : edge) : option Z :=
  let '(_, _, _, _, cost) := e in cost.

(** A node object: [Node(id, label)]; [RestrictionArtificialNode] sets
    [is_restriction_node]. *)
Record node : Type := Node {
  id : Z;
  label : string;
  is_restriction_node : bool
}.

Definition RestrictionArtificialNode (id : Z) (label : string) : node :=
  Node id label true.

(** The part of the graph processor the controller reads and writes:
    the spatial node count, the node list, the edge list (tuples) and the
    id-to-node map.  Its registries behind [check_and_add_nodes] and
    [create_set_of_edges], and [tsedges], the [Edge]-object mirror of
    [ts_edges] that the controller filters alongside it, are left out. *)
Record graph_processor : Type := GraphProcessor {
  M : Z;
  ts_nodes : list node;
  ts_edges : list edge;
  map_nodes : gmap Z node
}.

(** A restriction of the controller's list, the Python tuple
    [(restriction_edges, timeframe, U, priority, gamma, k)].  The list
    holds only entries that passed [validate_restriction], hence with a
    timeframe of two values and edges of two nodes: the stored entry
    carries that shape in its type. *)
Definition restriction : Type :=
  list (Z * Z) * (Z * Z) * Z * Q * option Q * Q.

(** The same tuple as a caller hands it in, before any check: the
    timeframe and every edge are lists of any length, and nothing is
    known of what an edge holds ([A], integers when the caller follows
    the annotation [List[List[int]]]). *)
Definition raw_restriction (A : Type) : Type :=
  list (list A) * list Z * Z * Q * option Q * Q.

Definition list_of_pair {A : Type} (p : A * A) : list A := [p.1; p.2].

Definition raw_of (r : restriction) : raw_restriction Z :=
  let '(restriction_edges, timeframe, U, priority, gamma, k) := r in
  (list_of_pair <$> restriction_edges, list_of_pair timeframe, U,
   priority, gamma, k).

(** The controller's own attributes. *)
Record controller : Type := Controller {
  _M : Z;
  restrictions : list restriction;
  _min_gamma : Q;
  _omega : list edge;
  _all_additional_edges : list edge;
  _all_additional_nodes : gset Z;
  _virtual_node_demands : gmap Z Z
}.

(** [__init__] *)
Definition init (gp : graph_processor) : controller :=
  {| _M := M gp;
     restrictions := [];
     _min_gamma := 200%Q;
     _omega := [];
     _all_additional_edges := [];
     _all_additional_nodes := ∅;
     _virtual_node_demands := ∅ |}.

(** The auxiliary graph of [calculate_max_flow]: a [networkx.DiGraph]
    whose nodes are the strings ["vS"], ["vT"] and node ids, and whose
    edges carry a [capacity] attribute (a second [add_edge] on the same
    pair overwrites it). *)
Inductive flow_node : Type := vS | vT | TSNode (n : Z).

#[global] Instance flow_node_eq_dec : EqDecision flow_node.
Proof. solve_decision. Defined.

#[global] Instance flow_node_countable : Countable flow_node :=
  inj_countable'
    (λ x, match x with vS => inl false | vT => inl true | TSNode n => inr n end)
    (λ y, match y with inl false => vS | inl true => vT | inr n => TSNode n end)
    (λ x, match x with vS | vT | TSNode _ => eq_refl end).

Record DiGraph : Type := MkDiGraph {
  G_nodes : gset flow_node;
  G_capacity : gmap (flow_node * flow_node) Z
}.

Definition add_node (G : DiGraph) (n : flow_node) : DiGraph :=
  {| G_nodes := {[n]} ∪ G_nodes G; G_capacity := G_capacity G |}.

Definition add_edge (G : DiGraph) (u v : flow_node) (capacity : Z) : DiGraph :=
  {| G_nodes := {[u; v]} ∪ G_nodes G;
     G_capacity := <[(u, v) := capacity]> (G_capacity G) |}.

(** ** Double-precision numbers *)

(** A Python [float]: zero, a finite number [(-1)^s * m * 2^e], an
    infinity or a NaN. *)
Definition float64 : Type := spec_float.

(** [float(n)] for an integer [n]: the nearest double, ties to the even
    mantissa; an infinity beyond the range. *)
Definition float_of_Z (n : Z) : float64 := binary_normalize 53 1024 n 0 false.

(** [x * y], [x + y] and [x / y] on doubles: the exact result rounded to
    the nearest double, ties to even. *)
Definition float_mul : float64 → float64 → float64 := SFmul 53 1024.
Definition float_add : float64 → float64 → float64 := SFadd 53 1024.
Definition float_div : float64 → float64 → float64 := SFdiv 53 1024.

(** The value of a double that is neither infinite nor a NaN. *)
Definition finite_value (x : float64) : Q :=
  match x with
  | S754_finite s m e => (inject_Z (cond_Zopp s (Zpos m)) * 2 ^ e)%Q
  | _ => 0%Q
  end.

Definition float_value (x : float64) : option Q :=
  match x with
  | S754_zero _ | S754_finite _ _ _ => Some (finite_value x)
  | S754_infinity _ | S754_nan => None
  end.

Definition float_is_nan (x : float64) : bool :=
  match x with S754_nan => true | _ => false end.

(** The order of the doubles: by value, the infinities at the two ends,
    a NaN comparable with nothing. *)
Definition float_compare (x y : float64) : option comparison :=
  match x, y with
  | S754_nan, _ | _, S754_nan => None
  | S754_infinity sx, S754_infinity sy =>
      Some (if sx then (if sy then Eq else Lt) else (if sy then Gt else Eq))
  | S754_infinity sx, _ => Some (if sx then Lt else Gt)
  | _, S754_infinity sy => Some (if sy then Gt else Lt)
  | _, _ => Some (finite_value x ?= finite_value y)%Q
  end.

(** Python's [x > y] and [x <= y], false on a NaN. *)
Definition float_gt (x y : float64) : bool :=
  match float_compare x y with Some Gt => true | _ => false end.

Definition float_le (x y : float64) : bool :=
  match float_compare x y with Some Lt | Some Eq => true | _ => false end.

(** The double of a number that the controller holds by its value.  The
    value [n / 2^j] of a double is taken without error; any other
    rational is read as Python evaluates the literal [n / d]. *)
Definition float_of_Q (q : Q) : float64 :=
  let '(Qmake n d) := Qred q in
  let j := Z.log2 (Zpos d) in
  if Zpos d =? 2 ^ j then binary_normalize 53 1024 n (- j) false
  else float_div (float_of_Z n) (float_of_Z (Zpos d)).

(** The collaborators: [graph_processor.get_max_id()],
    [networkx.maximum_flow_value(G, s, t)] and [numpy.mean(costs)] on a
    non-empty list of integers.  The unit tests of the controller replace
    the first two by mocks; every general theorem below holds for any
    implementation of the three. *)
Class Collaborators : Type := {
  get_max_id : graph_processor → Z;
  maximum_flow_value : DiGraph → flow_node → flow_node → Z;
  np_mean : list Z → float64
}.

(** ** SpatialTimeIndexer *)

Definition _get_node_time (self : controller) (node_id : Z) : Z :=
  node_id / _M self - (if bool_decide (node_id mod _M self = 0) then 1 else 0).

Definition _get_node_coordinates (self : controller) (node_id : Z) : Z :=
  if bool_decide (node_id mod _M self ≠ 0) then node_id mod _M self else _M self.

(** The canonical definitions, in the words of the specification
    (section 4.1); compared with the two helpers above in
    [C9_indexer_refines_canonical]. *)
Definition time_of (M id : Z) : Z := (id - 1) / M.
Definition spatial_of (M id : Z) : Z := (id - 1) mod M + 1.

(** ** Validation and the restriction list *)

(** [not l] on a Python list. *)
Definition py_not {A : Type} (l : list A) : bool :=
  match l with [] => true | _ :: _ => false end.

(** [validate_restriction].  The two timeframe values are read only once
    the length is known to be two ([or] does not evaluate its second
    operand otherwise). *)
Definition validate_restriction {A : Type} (restriction_edges : list (list A))
    (timeframe : list Z) (U : Z) : bool :=
  if py_not restriction_edges || py_not timeframe || (U <? 0) then false
  else if negb (length timeframe =? 2)%nat
          || (nth 0 timeframe 0 >? nth 1 timeframe 0) then false
  else if negb (forallb (λ edge, (length edge =? 2)%nat) restriction_edges)
  then false
  else true.

(** The list that the loop of [set_restrictions] builds, on entries as
    the caller hands them in. *)
Definition valid_restrictions {A : Type}
    (restrictions_data : list (raw_restriction A)) : list (raw_restriction A) :=
  filter (λ r : raw_restriction A,
            let '(restriction_edges, timeframe, U, _, _, _) := r in
            validate_restriction restriction_edges timeframe U = true)
         restrictions_data.

(** [set_restrictions], on entries of the shape that the controller
    stores; each is checked as the list-of-lists it stands for. *)
Definition set_restrictions (self : controller)
    (restrictions_data : list restriction) : controller :=
  let valid :=
    filter (λ r : restriction,
              let '(restriction_edges, timeframe, U, _, _, _) := r in
              validate_restriction (list_of_pair <$> restriction_edges)
                                   (list_of_pair timeframe) U = true)
           restrictions_data in
  {| _M := _M self; restrictions := valid; _min_gamma := _min_gamma self;
     _omega := _omega self;
     _all_additional_edges := _all_additional_edges self;
     _all_additional_nodes := _all_additional_nodes self;
     _virtual_node_demands := _virtual_node_demands self |}.

(** ** Arithmetic helpers *)

Definition calculate_total_capacity (omega : list edge) : Z :=
  foldr Z.add 0 (map (λ e : edge, let '(_, _, _, capacity, _) := e in capacity) omega).

Definition calculate_virtual_flow (max_flow U : Z) : Z :=
  Z.max 0 (max_flow - U).

(** ** OmegaExtractor *)

Definition identify_restricted_edges (self : controller)
    (gp : graph_processor) (restriction_edges : list (Z * Z))
    (start_time_frame end_time_frame : Z) : list edge :=
  let restriction_set : gset (Z * Z) := list_to_set restriction_edges in
  foldl
    (λ (omega : list edge) (edge_tuple : edge),
       let '(source_id, dest_id, _, capacity, cost) := edge_tuple in
       let t1 := _get_node_time self source_id in
       let t2 := _get_node_time self dest_id in
       let s_source := _get_node_coordinates self source_id in
       let s_dest := _get_node_coordinates self dest_id in
       let base_edge := (s_source, s_dest) in
       if bool_decide (base_edge ∈ restriction_set) then
         let time_intersects := (t1 <? end_time_frame) && (t2 >? start_time_frame) in
         if time_intersects
         then omega ++ [(source_id, dest_id, 0, capacity, cost)]
         else omega
       else omega)
    [] (ts_edges gp).

(** ** CutCapacityAnalyzer *)

Definition identify_restricted_nodes (omega : list edge) : gset Z :=
  foldl
    (λ (restricted_nodes : gset Z) (e : edge),
       let '(source_id, dest_id, _, _, _) := e in
       {[dest_id]} ∪ ({[source_id]} ∪ restricted_nodes))
    ∅ omega.

(** [d[key] += capacity] on a [defaultdict(int)]. *)
Definition defaultdict_add (d : gmap Z Z) (key capacity : Z) : gmap Z Z :=
  <[key := default 0 (d !! key) + capacity]> d.

Definition calculate_incoming_capacity_for_restricted_nodes
    (TSG : list edge) (restricted_nodes : gset Z) : gmap Z Z :=
  foldl
    (λ (restricted_nodes_incoming_capacity : gmap Z Z) (e : edge),
       let '(source_id, dest_id, _, capacity, _) := e in
       if bool_decide (dest_id ∈ restricted_nodes)
          && negb (bool_decide (source_id ∈ restricted_nodes))
       then defaultdict_add restricted_nodes_incoming_capacity dest_id capacity
       else restricted_nodes_incoming_capacity)
    ∅ TSG.

Definition calculate_outgoing_capacity_for_restricted_nodes
    (TSG : list edge) (restricted_nodes : gset Z) : gmap Z Z :=
  foldl
    (λ (restricted_nodes_outgoing_capacity : gmap Z Z) (e : edge),
       let '(source_id, dest_id, _, capacity, _) := e in
       if bool_decide (source_id ∈ restricted_nodes)
          && negb (bool_decide (dest_id ∈ restricted_nodes))
       then defaultdict_add restricted_nodes_outgoing_capacity source_id capacity
       else restricted_nodes_outgoing_capacity)
    ∅ TSG.

(** ** MaxFlowProbe *)

(** The graph that [calculate_max_flow] hands to networkx. *)
Definition max_flow_graph (omega : list edge)
    (restricted_nodes_incoming_capacity restricted_nodes_outgoing_capacity : gmap Z Z)
    : DiGraph :=
  let G := MkDiGraph ∅ ∅ in
  let G := add_node G vS in
  let G := add_node G vT in
  let G :=
    foldl (λ (G : DiGraph) (e : edge),
             let '(source_id, dest_id, _, capacity, _) := e in
             add_edge G (TSNode source_id) (TSNode dest_id) capacity)
          G omega in
  let G :=
    map_fold (λ (node_id capacity : Z) (G : DiGraph),
                add_edge G vS (TSNode node_id) capacity)
             G restricted_nodes_incoming_capacity in
  map_fold (λ (node_id capacity : Z) (G : DiGraph),
              add_edge G (TSNode node_id) vT capacity)
           G restricted_nodes_outgoing_capacity.

Definition calculate_max_flow `{Collaborators} (omega : list edge)
    (restricted_nodes_incoming_capacity restricted_nodes_outgoing_capacity : gmap Z Z)
    : Z :=
  maximum_flow_value
    (max_flow_graph omega restricted_nodes_incoming_capacity
                    restricted_nodes_outgoing_capacity)
    vS vT.

(** ** GammaResolver *)

(** Python's [max(a, b)]: [b] when [b > a], else [a]. *)
Definition py_max (a b : float64) : float64 := if float_gt b a then b else a.

(** Python 3's [round]: to the nearest integer, ties to the even one. *)
Definition py_round (x : Q) : Z :=
  let f := Qfloor x in
  match (x - inject_Z f ?= 1 # 2)%Q with
  | Lt => f
  | Gt => f + 1
  | Eq => if Z.even f then f else f + 1
  end.

(** [int(round(x))] on a double: [None] stands for the [OverflowError]
    of an infinity and the [ValueError] of a NaN. *)
Definition py_int_round (x : float64) : option Z := py_round <$> float_value x.

(** [calculate_default_gamma]; [10] and [1.0] are the doubles that the
    two products make of them. *)
Definition calculate_default_gamma `{Collaborators} (TSG : list edge)
    (priority k min_gamma : float64) : float64 :=
  match TSG with
  | [] => min_gamma
  | _ :: _ =>
      let costs := omap edge_cost TSG in
      let avg_cost :=
        match costs with [] => float_of_Z 10 | _ :: _ => np_mean costs end in
      let gamma := float_mul (float_mul k avg_cost) (py_max (float_of_Z 1) priority) in
      let final_gamma := py_max gamma min_gamma in
      final_gamma
  end.

(** Line 488 of [apply_restriction]:
    [int(round(gamma_config if gamma_config is not None else
                calculate_default_gamma(ts_edges, priority, k_val, self._min_gamma)))].
    An explicit gamma is rounded as it is.  Where the default gamma is
    infinite or a NaN the code raises and the run of [apply_restriction]
    ends there; the loop below has no such exit, and [resolve_gamma] is 0
    in that case (C8 tells the two cases apart). *)
Definition resolve_gamma `{Collaborators} (self : controller) (gp : graph_processor)
    (priority : Q) (gamma_config : option Q) (k_val : Q) : Z :=
  match gamma_config with
  | Some g => py_round g
  | None =>
      default 0
        (py_int_round
           (calculate_default_gamma (ts_edges gp) (float_of_Q priority)
              (float_of_Q k_val) (float_of_Q (_min_gamma self))))
  end.

(** ** Attribute updates

    One function per assigned attribute; the remaining attributes are
    copied. *)

Definition set_all_additional_nodes (self : controller) (nodes : gset Z) : controller :=
  {| _M := _M self; restrictions := restrictions self; _min_gamma := _min_gamma self;
     _omega := _omega self;
     _all_additional_edges := _all_additional_edges self;
     _all_additional_nodes := nodes;
     _virtual_node_demands := _virtual_node_demands self |}.

Definition set_all_additional_edges (self : controller) (edges : list edge) : controller :=
  {| _M := _M self; restrictions := restrictions self; _min_gamma := _min_gamma self;
     _omega := _omega self;
     _all_additional_edges := edges;
     _all_additional_nodes := _all_additional_nodes self;
     _virtual_node_demands := _virtual_node_demands self |}.

Definition set_omega (self : controller) (omega : list edge) : controller :=
  {| _M := _M self; restrictions := restrictions self; _min_gamma := _min_gamma self;
     _omega := omega;
     _all_additional_edges := _all_additional_edges self;
     _all_additional_nodes := _all_additional_nodes self;
     _virtual_node_demands := _virtual_node_demands self |}.

Definition set_virtual_node_demands (self : controller) (demands : gmap Z Z) : controller :=
  {| _M := _M self; restrictions := restrictions self; _min_gamma := _min_gamma self;
     _omega := _omega self;
     _all_additional_edges := _all_additional_edges self;
     _all_additional_nodes := _all_additional_nodes self;
     _virtual_node_demands := demands |}.

Definition set_ts_nodes (gp : graph_processor) (nodes : list node) : graph_processor :=
  {| M := M gp; ts_nodes := nodes; ts_edges := ts_edges gp; map_nodes := map_nodes gp |}.

Definition set_ts_edges (gp : graph_processor) (edges : list edge) : graph_processor :=
  {| M := M gp; ts_nodes := ts_nodes gp; ts_edges := edges; map_nodes := map_nodes gp |}.

Definition set_map_nodes (gp : graph_processor) (m : gmap Z node) : graph_processor :=
  {| M := M gp; ts_nodes := ts_nodes gp; ts_edges := ts_edges gp; map_nodes := m |}.

(** ** ArtifactCleaner *)

(** [remove_artificial_artifact].  [additional_edges_set] is bound only
    when there are additional edges; with none, the generator inside
    [any] is empty and the name is never read, so the empty set stands
    for it.  [list(original_edges_to_re_add)] lists a Python set, in no
    specified order: [elements]. *)
Definition remove_artificial_artifact (self : controller) (gp : graph_processor)
    : controller * graph_processor :=
  let additional_nodes_ids := _all_additional_nodes self in
  let additional_edges_tuples := _all_additional_edges self in
  let gp :=
    if bool_decide (additional_nodes_ids ≠ ∅) then
      let gp := set_ts_nodes gp
                  (filter (λ n : node, id n ∉ additional_nodes_ids) (ts_nodes gp)) in
      set_map_nodes gp
        (set_fold (λ (node_id : Z) (m : gmap Z node), delete node_id m)
                  (map_nodes gp) additional_nodes_ids)
    else gp in
  let additional_edges_set : gset (Z * Z) :=
    list_to_set (endpoints <$> additional_edges_tuples) in
  let gp :=
    if bool_decide (additional_edges_tuples ≠ []) then
      set_ts_edges gp
        (filter (λ e : edge, endpoints e ∉ additional_edges_set) (ts_edges gp))
    else gp in
  let original_edges_to_re_add : gset edge :=
    list_to_set
      (filter (λ _ : edge,
                 existsb (λ e : edge, bool_decide (endpoints e ∈ additional_edges_set))
                         (_all_additional_edges self) = true)
              (_omega self)) in
  let gp :=
    if bool_decide (original_edges_to_re_add ≠ ∅) then
      set_ts_edges gp (ts_edges gp ++ elements original_edges_to_re_add)
    else gp in
  let self := set_all_additional_nodes self ∅ in
  let self := set_all_additional_edges self [] in
  let self := set_omega self [] in
  let self := set_virtual_node_demands self ∅ in
  (self, gp).

(** ** EscapeTopologyBuilder *)

(** Python's [==] on restriction tuples, and [list.index]. *)
Definition option_Qeq_bool (a b : option Q) : bool :=
  match a, b with
  | Some x, Some y => Qeq_bool x y
  | None, None => true
  | _, _ => false
  end.

Definition restriction_eqb (r1 r2 : restriction) : bool :=
  let '(edges1, timeframe1, U1, priority1, gamma1, k1) := r1 in
  let '(edges2, timeframe2, U2, priority2, gamma2, k2) := r2 in
  bool_decide (edges1 = edges2) && bool_decide (timeframe1 = timeframe2)
  && bool_decide (U1 = U2) && Qeq_bool priority1 priority2
  && option_Qeq_bool gamma1 gamma2 && Qeq_bool k1 k2.

Fixpoint index (l : list restriction) (x : restriction) : nat :=
  match l with
  | [] => 0
  | y :: l' => if restriction_eqb y x then 0%nat else S (index l' x)
  end.

(** The body of the inner loop [for edge_idx, edge_orig in enumerate(omega)]:
    two intermediate nodes and five edges per omega edge.
    ([check_and_add_nodes] updates registries of the graph processor that
    are outside [graph_processor]; the controller's unit tests replace it
    by a mock without effect.) *)
Definition omega_edge_step (vS_global_id vD_global_id : Z)
    (st : controller * graph_processor * Z) (edge_orig : edge)
    : controller * graph_processor * Z :=
  let '(self, gp, max_node_id_val) := st in
  let '(u, v, l_orig, cap_orig, cost_orig) := edge_orig in
  let max_node_id_val := max_node_id_val + 1 in
  let v_i1_id := max_node_id_val in
  let max_node_id_val := max_node_id_val + 1 in
  let v_i2_id := max_node_id_val in
  let v_i1_node :=
    RestrictionArtificialNode v_i1_id ("v_i1_" +:+ pretty u +:+ "_" +:+ pretty v) in
  let v_i2_node :=
    RestrictionArtificialNode v_i2_id ("v_i2_" +:+ pretty u +:+ "_" +:+ pretty v) in
  let self :=
    set_all_additional_nodes self ({[v_i1_id; v_i2_id]} ∪ _all_additional_nodes self) in
  let gp := set_ts_nodes gp (ts_nodes gp ++ [v_i1_node; v_i2_node]) in
  let gp := set_map_nodes gp (<[v_i2_id := v_i2_node]> (<[v_i1_id := v_i1_node]> (map_nodes gp))) in
  let new_edges_for_this_arc : list edge :=
    [ (u, v_i1_id, l_orig, cap_orig, cost_orig);
      (v_i1_id, v_i2_id, l_orig, cap_orig, Some 0);
      (v_i2_id, v, l_orig, cap_orig, Some 0);
      (vS_global_id, v_i1_id, 0, cap_orig, Some 0);
      (v_i2_id, vD_global_id, 0, cap_orig, Some 0) ] in
  let self :=
    set_all_additional_edges self (_all_additional_edges self ++ new_edges_for_this_arc) in
  (self, gp, max_node_id_val).

(** The body of the loop [for idx, restriction_item in enumerate(self.restrictions)],
    on the state [(self, graph processor, max_node_id_val)]. *)
Definition restriction_step `{Collaborators}
    (st : controller * graph_processor * Z) (restriction_item : restriction)
    : controller * graph_processor * Z :=
  let '(self, gp, max_node_id_val) := st in
  let '(restriction_edges_config, (start_time_frame, end_time_frame),
        U, priority, gamma_config, k_val) := restriction_item in
  let omega_for_this_restriction :=
    identify_restricted_edges self gp restriction_edges_config
                              start_time_frame end_time_frame in
  match omega_for_this_restriction with
  | [] => (self, gp, max_node_id_val)
  | _ :: _ =>
    let self := set_omega self (_omega self ++ omega_for_this_restriction) in
    let current_restricted_nodes_set :=
      identify_restricted_nodes omega_for_this_restriction in
    let incoming_capacity :=
      calculate_incoming_capacity_for_restricted_nodes
        (ts_edges gp) current_restricted_nodes_set in
    let outgoing_capacity :=
      calculate_outgoing_capacity_for_restricted_nodes
        (ts_edges gp) current_restricted_nodes_set in
    let flow_F_through_omega :=
      calculate_max_flow omega_for_this_restriction incoming_capacity outgoing_capacity in
    let virtual_flow_needed := calculate_virtual_flow flow_F_through_omega U in
    if virtual_flow_needed <=? 0 then (self, gp, max_node_id_val)
    else
      let final_gamma := resolve_gamma self gp priority gamma_config k_val in
      let max_node_id_val := max_node_id_val + 1 in
      let vS_global_id := max_node_id_val in
      let vS_global_node :=
        RestrictionArtificialNode vS_global_id
          ("Global_vS_Res" +:+ pretty (index (restrictions self) restriction_item)) in
      let max_node_id_val := max_node_id_val + 1 in
      let vD_global_id := max_node_id_val in
      let vD_global_node :=
        RestrictionArtificialNode vD_global_id
          ("Global_vD_Res" +:+ pretty (index (restrictions self) restriction_item)) in
      let self :=
        set_virtual_node_demands self
          (<[vD_global_id := - virtual_flow_needed]>
             (<[vS_global_id := virtual_flow_needed]> (_virtual_node_demands self))) in
      let self :=
        set_all_additional_nodes self
          ({[vS_global_id; vD_global_id]} ∪ _all_additional_nodes self) in
      let gp := set_ts_nodes gp (ts_nodes gp ++ [vS_global_node; vD_global_node]) in
      let gp :=
        set_map_nodes gp
          (<[vD_global_id := vD_global_node]>
             (<[vS_global_id := vS_global_node]> (map_nodes gp))) in
      let '(self, gp, max_node_id_val) :=
        foldl (omega_edge_step vS_global_id vD_global_id)
              (self, gp, max_node_id_val) omega_for_this_restriction in
      let escape_edge : edge :=
        (vS_global_id, vD_global_id, 0, virtual_flow_needed, Some final_gamma) in
      let self :=
        set_all_additional_edges self (_all_additional_edges self ++ [escape_edge]) in
      (self, gp, max_node_id_val)
  end.

(** ** RestrictionApplier *)

(** The batch commit at the end of [apply_restriction] ([int(e[0])] is the
    identity on integers).  [create_set_of_edges] builds the graph
    processor's [Edge] objects, outside [graph_processor]. *)
Definition commit (self : controller) (gp : graph_processor) : graph_processor :=
  if bool_decide (_all_additional_edges self ≠ []) then
    let edges_to_remove_tuples : gset (Z * Z) :=
      list_to_set (endpoints <$> _omega self) in
    let gp :=
      set_ts_edges gp
        (filter (λ e : edge, endpoints e ∉ edges_to_remove_tuples) (ts_edges gp)) in
    set_ts_edges gp (ts_edges gp ++ _all_additional_edges self)
  else gp.

(** Lines 449-451: the state is reset when the function is called again
    on a ledger that holds nodes or edges. *)
Definition reset_artifacts (self : controller) (gp : graph_processor)
    : controller * graph_processor :=
  if bool_decide (_all_additional_nodes self ≠ ∅)
     || bool_decide (_all_additional_edges self ≠ [])
  then remove_artificial_artifact self gp
  else (self, gp).

(** [apply_restriction] from the point where [get_restrictions()] has
    returned [True]: reset, seed the counter, loop, commit. *)
Definition apply_batch `{Collaborators} (self : controller) (gp : graph_processor)
    : controller * graph_processor :=
  let '(self, gp) := reset_artifacts self gp in
  let max_node_id_val := get_max_id gp in
  let '(self, gp, max_node_id_val) :=
    foldl restriction_step (self, gp, max_node_id_val) (restrictions self) in
  (self, commit self gp).

(** [apply_restriction].  [get_restrictions()] is taken on its cached
    path: [config.restrictions_data_cache] goes through
    [set_restrictions], and the call returns [bool(self.restrictions)]
    (the interactive path builds the same validated list from the
    prompts). *)
Definition apply_restriction `{Collaborators} (self : controller)
    (gp : graph_processor) (restrictions_data_cache : list restriction)
    : controller * graph_processor :=
  let self := set_restrictions self restrictions_data_cache in
  if bool_decide (restrictions self = []) then (self, gp)
  else apply_batch self gp.

(** [set_gamma_value]: the new floor, and the same value as the explicit
    gamma of every restriction (the gamma integrator is not modelled). *)
Definition set_gamma_value (self : controller) (gamma_value : Q) : controller :=
  {| _M := _M self;
     restrictions :=
       (λ r : restriction,
          let '(time_frames, restricted_edges, U, priority, _, k_val) := r in
          (time_frames, restricted_edges, U, priority, Some gamma_value, k_val))
       <$> restrictions self;
     _min_gamma := gamma_value;
     _omega := _omega self;
     _all_additional_edges := _all_additional_edges self;
     _all_additional_nodes := _all_additional_nodes self;
     _virtual_node_demands := _virtual_node_demands self |}.

(** ** Virtual node demands *)

Definition get_virtual_node_demands (self : controller) : gmap Z Z :=
  _virtual_node_demands self.


(** The sum of the values of a demand map. *)
Definition total_demand (demands : gmap Z Z) : Z :=
  map_fold (λ (_ demand acc : Z), demand + acc) 0 demands.

(** ** ViolationDetector *)

Module EscapeEdge.
(** The dictionaries that [detect_escape_edges] returns. *)
Record t : Type := Make {
  source : Z;
  dest : Z;
  cost : Z;
  line : Z;
  is_escape_edge : bool
}.
End EscapeEdge.

Module Violation.
(** The dictionaries that [analyze_escape_edge_flow] returns. *)
Record t : Type := Make {
  source : Z;
  dest : Z;
  flow : Z;
  gamma_cost : Z;
  penalty_cost : Z
}.
End Violation.

(** [NetworkXSolution.flowDict]: flow by source and destination, both
    keyed by the node's decimal string. *)
Abbreviation flowDict := (gmap string (gmap string Z)).

(** Lines 103-105: the flow on one escape edge, 0 when absent. *)
Definition escape_flow (flow_dict : flowDict) (edge : EscapeEdge.t) : Z :=
  let source_str : string := pretty (EscapeEdge.source edge) in
  let dest_str : string := pretty (EscapeEdge.dest edge) in
  match flow_dict !! source_str with
  | Some row => match row !! dest_str with
                | Some flow_value => flow_value
                | None => 0
                end
  | None => 0
  end.

(** Lines 97-122: the loop over the escape edges. *)
Definition escape_edge_violations (flow_dict : flowDict)
    (escape_edges : list EscapeEdge.t) : list Violation.t :=
  foldl
    (λ (violations : list Violation.t) (edge : EscapeEdge.t),
       let gamma_cost := EscapeEdge.cost edge in
       let flow_value := escape_flow flow_dict edge in
       if flow_value >? 0 then
         let violation_cost := flow_value * gamma_cost in
         violations ++
           [ {| Violation.source := EscapeEdge.source edge;
                Violation.dest := EscapeEdge.dest edge;
                Violation.flow := flow_value;
                Violation.gamma_cost := gamma_cost;
                Violation.penalty_cost := violation_cost |} ]
       else violations)
    [] escape_edges.

(** [analyze_escape_edge_flow].  The solved flow comes from
    [NetworkXSolution.read_dimac_file]; [None] stands for an exception
    while reading it, which the [except] clause turns into [[]]. *)
Definition analyze_escape_edge_flow (escape_edges : list EscapeEdge.t)
    (solved : option flowDict) : list Violation.t :=
  match escape_edges with
  | [] => []
  | _ :: _ =>
      match solved with
      | Some flow_dict => escape_edge_violations flow_dict escape_edges
      | None => []
      end
  end.

(** [get_violation_summary] *)
Definition total_violation_flow (violations : list Violation.t) : Z :=
  foldr Z.add 0 (map Violation.flow violations).

Definition total_penalty_cost (violations : list Violation.t) : Z :=
  foldr Z.add 0 (map Violation.penalty_cost violations).

Definition violated_edges (violations : list Violation.t) : list (Z * Z) :=
  map (λ v, (Violation.source v, Violation.dest v)) violations.

(** ** Gamma accessors, the violation summary and the solved flow *)

(** [get_gamma_value] *)
Definition get_gamma_value (self : controller) : Q := _min_gamma self.

Module ArcLine.
(** An arc line of the TSG file as [detect_escape_edges] reads it: its
    line number (from 1) and the integers [int(parts[1])],
    [int(parts[2])] and [int(parts[5])] of a line that starts with
    ['a '] and has at least six fields. *)
Record t : Type := Make {
  line_num : Z;
  source : Z;
  dest : Z;
  cost : Z
}.
End ArcLine.

(** [detect_escape_edges], lines 53-70, on the arc lines of the file in
    their order (none when the file is missing: the [except] clause). *)
Definition detect_escape_edges (arc_lines : list ArcLine.t) : list EscapeEdge.t :=
  foldl
    (λ (escape_edges : list EscapeEdge.t) (a : ArcLine.t),
       if (ArcLine.source a >? 80) && (ArcLine.dest a >? 80) && (ArcLine.cost a >? 0)
       then escape_edges ++
              [ {| EscapeEdge.source := ArcLine.source a;
                   EscapeEdge.dest := ArcLine.dest a;
                   EscapeEdge.cost := ArcLine.cost a;
                   EscapeEdge.line := ArcLine.line_num a;
                   EscapeEdge.is_escape_edge := true |} ]
       else escape_edges)
    [] arc_lines.

(** The two attributes that [analyze_current_violations] writes and
    [get_violation_summary] reads; [__init__] sets both to [[]]. *)
Record violation_log : Type := ViolationLog {
  last_escape_edges : list EscapeEdge.t;
  last_violations : list Violation.t
}.

Definition init_violation_log : violation_log := ViolationLog [] [].

(** [analyze_current_violations].  The two readings of the TSG file are
    arguments: [escape_edges] is what [detect_escape_edges] returned and
    [solved] the flow read for [analyze_escape_edge_flow]. *)
Definition analyze_current_violations (log : violation_log)
    (escape_edges : list EscapeEdge.t) (solved : option flowDict)
    : violation_log * list Violation.t :=
  let log := {| last_escape_edges := escape_edges;
                last_violations := last_violations log |} in
  match escape_edges with
  | [] => (log, [])
  | _ :: _ =>
      let violations := analyze_escape_edge_flow escape_edges solved in
      ({| last_escape_edges := last_escape_edges log;
          last_violations := violations |}, violations)
  end.

Module Summary.
(** The dictionary that [get_violation_summary] returns. *)
Record t : Type := Make {
  escape_edges_count : nat;
  violations_count : nat;
  total_violation_flow : Z;
  total_penalty_cost : Z;
  violated_edges : list (Z * Z)
}.
End Summary.

Definition get_violation_summary (log : violation_log) : Summary.t :=
  {| Summary.escape_edges_count := length (last_escape_edges log);
     Summary.violations_count := length (last_violations log);
     Summary.total_violation_flow := total_violation_flow (last_violations log);
     Summary.total_penalty_cost := total_penalty_cost (last_violations log);
     Summary.violated_edges := violated_edges (last_violations log) |}.

(** [NetworkXSolution.read_dimac_file], lines 194-200: the dictionary
    that the method stores as [self.flowDict], computed from the one that
    [networkx.network_simplex] returned. *)
Definition filtered_data (flow_dict : flowDict) : flowDict :=
  omap (λ sub_dict : gmap string Z,
          let filtered_sub_dict : gmap string Z :=
            filter (λ kv : string * Z, kv.2 ≠ 0) sub_dict in
          if bool_decide (filtered_sub_dict ≠ ∅) then Some filtered_sub_dict
          else None)
       flow_dict.

(** ** Weakly connected subgraphs of omega *)

Module UnionFind.
(** The two inner functions of [extract_weakly_connected_subgraph], on
    the dictionary [parent] that they share.  [find] returns the root of
    [u] and re-attaches every node on the way to it.  It calls itself
    once per step of the way: [fuel] is the number of nested calls that
    the interpreter's recursion limit still allows, and [None] stands
    for the [RecursionError] of a deeper recursion and for the
    [KeyError] of a node without entry. *)
Fixpoint find (fuel : nat) (parent : gmap Z Z) (u : Z) : option (gmap Z Z * Z) :=
  match fuel with
  | O => None
  | S fuel =>
      p ← parent !! u;
      if bool_decide (p ≠ u) then
        '(parent, r) ← find fuel parent p;
        Some (<[u := r]> parent, r)
      else Some (parent, p)
  end.

Definition union (fuel : nat) (parent : gmap Z Z) (u v : Z) : option (gmap Z Z) :=
  '(parent, pu) ← find fuel parent u;
  '(parent, pv) ← find fuel parent v;
  Some (if bool_decide (pu ≠ pv) then <[pu := pv]> parent else parent).
End UnionFind.

(** [components[root].append(e)] on a [defaultdict(list)], whose keys
    keep their order of insertion. *)
Fixpoint components_append (components : list (Z * list edge)) (root : Z)
    (e : edge) : list (Z * list edge) :=
  match components with
  | [] => [(root, [e])]
  | (k, l) :: components' =>
      if bool_decide (k = root) then (k, l ++ [e]) :: components'
      else (k, l) :: components_append components' root e
  end.

(** The body of the loop [for u, v, _, _, _ in graph]. *)
Definition union_step (fuel : nat) (parent : gmap Z Z) (e : edge)
    : option (gmap Z Z) :=
  let '(u, v, _, _, _) := e in
  let parent :=
    if bool_decide (parent !! u = None) then <[u := u]> parent else parent in
  let parent :=
    if bool_decide (parent !! v = None) then <[v := v]> parent else parent in
  UnionFind.union fuel parent u v.

(** The body of the loop [for edge in graph]. *)
Definition group_step (fuel : nat) (st : gmap Z Z * list (Z * list edge))
    (e : edge) : option (gmap Z Z * list (Z * list edge)) :=
  let '(parent, components) := st in
  '(parent, root) ← UnionFind.find fuel parent (endpoints e).1;
  Some (parent, components_append components root e).

(** [extract_weakly_connected_subgraph].  [recursion_depth] is the
    number of nested calls of [find] that the interpreter's recursion
    limit leaves room for when the method runs ([sys.getrecursionlimit()],
    1000 unless changed, less the frames already on the stack). *)
Definition extract_weakly_connected_subgraph (recursion_depth : nat)
    (graph : list edge) : option (list (list edge)) :=
  parent ← foldl (λ st e, parent ← st; union_step recursion_depth parent e)
                 (Some ∅) graph;
  st ← foldl (λ st e, st ← st; group_step recursion_depth st e)
             (Some (parent, [])) graph;
  Some (snd <$> st.2).

(** [get_omega] *)
Definition get_omega (recursion_depth : nat) (self : controller)
    : option (list (list edge)) :=
  if bool_decide (_omega self = []) then Some []
  else extract_weakly_connected_subgraph recursion_depth (_omega self).

(** ** A concrete instance of the collaborators

    Used to run the controller on concrete graphs (the scenarios below);
    the general theorems quantify over every instance. *)

(** Modelled from the spec: [get_max_id], the graph processor's method,
    whose code is not part of the controller.  Section 3 calls it "the
    graph's current maximum id": the largest id among the nodes (0 for a
    graph without nodes). *)
Definition graph_max_id (gp : graph_processor) : Z :=
  foldr Z.max 0 (map id (ts_nodes gp)).

(** Modelled from the spec: [networkx.maximum_flow_value], the max-flow
    capability of section 4.4, as augmenting paths over integer residual
    capacities (Ford-Fulkerson). *)
Definition residual_capacity (R : gmap (flow_node * flow_node) Z)
    (u v : flow_node) : Z :=
  default 0 (R !! (u, v)).

(** A simple path from [u] to [t] along edges of positive residual
    capacity, of at most [depth] edges, avoiding [visited]. *)
Fixpoint find_path (depth : nat) (R : gmap (flow_node * flow_node) Z)
    (nodes visited : list flow_node) (u t : flow_node)
    : option (list (flow_node * flow_node)) :=
  if decide (u = t) then Some []
  else
    match depth with
    | O => None
    | S depth' =>
        (fix try (candidates : list flow_node) :=
           match candidates with
           | [] => None
           | v :: candidates' =>
               if bool_decide (v ∈ u :: visited) || negb (0 <? residual_capacity R u v)
               then try candidates'
               else
                 match find_path depth' R nodes (u :: visited) v t with
                 | Some path => Some ((u, v) :: path)
                 | None => try candidates'
                 end
           end) nodes
    end.

Definition bottleneck (R : gmap (flow_node * flow_node) Z)
    (path : list (flow_node * flow_node)) : Z :=
  match path with
  | [] => 0
  | (u, v) :: path' =>
      foldl (λ (b : Z) '(x, y), Z.min b (residual_capacity R x y))
            (residual_capacity R u v) path'
  end.

Definition augment (R : gmap (flow_node * flow_node) Z)
    (path : list (flow_node * flow_node)) (b : Z)
    : gmap (flow_node * flow_node) Z :=
  foldl (λ (R : gmap (flow_node * flow_node) Z) '(u, v),
           let R := <[(u, v) := residual_capacity R u v - b]> R in
           <[(v, u) := residual_capacity R v u + b]> R)
        R path.

Fixpoint augmenting_paths (fuel : nat) (R : gmap (flow_node * flow_node) Z)
    (nodes : list flow_node) (s t : flow_node) (flow_value : Z) : Z :=
  match fuel with
  | O => flow_value
  | S fuel' =>
      match find_path (length nodes) R nodes [] s t with
      | None => flow_value
      | Some path =>
          let b := bottleneck R path in
          augmenting_paths fuel' (augment R path b) nodes s t (flow_value + b)
      end
  end.

(** Every augmentation adds at least one unit, and the flow is bounded by
    the capacity that leaves [s]: that many rounds, and one more to find
    no path, suffice. *)
Definition nx_maximum_flow_value (G : DiGraph) (s t : flow_node) : Z :=
  let nodes := elements (G_nodes G) in
  let leaving_s :=
    foldr Z.add 0
      (map (λ v, Z.max 0 (residual_capacity (G_capacity G) s v)) nodes) in
  augmenting_paths (S (Z.to_nat leaving_s)) (G_capacity G) nodes s t 0.

(** [numpy.mean] on a list of integers: each is converted to a double,
    the doubles are summed and the sum is divided by their number.  numpy
    adds the doubles pairwise rather than from the left; the two sums are
    the same double whenever no partial sum is rounded, as with costs
    whose absolute values add up to at most [2^53]. *)
Definition numpy_mean (costs : list Z) : float64 :=
  float_div (foldl float_add (float_of_Z 0) (float_of_Z <$> costs))
            (float_of_Z (Z.of_nat (length costs))).

#[local] Instance reference_collaborators : Collaborators :=
  {| get_max_id := graph_max_id; maximum_flow_value := nx_maximum_flow_value;
     np_mean := numpy_mean |}.

(** ** Scenarios *)

(** The time-space graph of the controller's unit tests: three spatial
    nodes, three time steps. *)
Definition base_node (i : Z) : node := Node i "" false.

Definition test_ts_edges : list edge :=
  [ (1, 4, 0, 1, Some 10); (2, 5, 0, 1, Some 10);
    (4, 7, 0, 1, Some 10); (5, 8, 0, 1, Some 10);
    (1, 2, 0, 1, Some 5); (4, 5, 0, 1, Some 5); (7, 8, 0, 1, Some 5) ].

Definition test_graph : graph_processor :=
  {| M := 3;
     ts_nodes := map base_node [1; 2; 3; 4; 5; 6; 7; 8; 9];
     ts_edges := test_ts_edges;
     map_nodes := list_to_map (map (λ i, (i, base_node i)) [1; 2; 3; 4; 5; 6; 7; 8; 9]) |}.

(** Restriction on the corridor (1,2) over the timeframe [0,3], at most
    one vehicle: the probe finds flow 0 (nothing leaves the corridor), so
    the virtual flow is 0. *)
Definition corridor_restriction : restriction :=
  ([(1, 2)], (0, 3), 1, 1%Q, None, 2%Q).

(** Restriction on the waiting edge (1,1) over the timeframe [1,3], no
    vehicle allowed: omega is the edge (4,7), the probe finds flow 1, so
    the virtual flow is 1. *)
Definition waiting_restriction : restriction :=
  ([(1, 1)], (1, 3), 0, 1%Q, Some 200%Q, 2%Q).

(** The same graph one step later, once the edge (7,8) has left the
    edge list. *)
Definition later_graph : graph_processor :=
  {| M := 3;
     ts_nodes := ts_nodes test_graph;
     ts_edges :=
       [ (1, 4, 0, 1, Some 10); (2, 5, 0, 1, Some 10);
         (4, 7, 0, 1, Some 10); (5, 8, 0, 1, Some 10);
         (1, 2, 0, 1, Some 5); (4, 5, 0, 1, Some 5) ];
     map_nodes := map_nodes test_graph |}.

(** ** Vocabulary of the statements *)

(** An edge with its lower bound replaced by 0, as omega records it. *)
Definition zero_lower_bound (e : edge) : edge :=
  let '(source_id, dest_id, _, capacity, cost) := e in
  (source_id, dest_id, 0, capacity, cost).

(** The test of [identify_restricted_edges] on one edge, with the
    helpers of the implementation. *)
Definition in_omega (self : controller) (restriction_set : gset (Z * Z))
    (start_time_frame end_time_frame : Z) (e : edge) : bool :=
  let '(source_id, dest_id, _, _, _) := e in
  bool_decide ((_get_node_coordinates self source_id,
                _get_node_coordinates self dest_id) ∈ restriction_set)
  && (_get_node_time self source_id <? end_time_frame)
  && (_get_node_time self dest_id >? start_time_frame).

(** The violation reported for an escape edge that carries [flow_value]. *)
Definition violation_of (flow_dict : flowDict) (edge : EscapeEdge.t) : Violation.t :=
  {| Violation.source := EscapeEdge.source edge;
     Violation.dest := EscapeEdge.dest edge;
     Violation.flow := escape_flow flow_dict edge;
     Violation.gamma_cost := EscapeEdge.cost edge;
     Violation.penalty_cost := escape_flow flow_dict edge * EscapeEdge.cost edge |}.

(** The default gamma in the words of the specification (section 4.5):
    [max(k_factor * mean(cost) * max(1.0, priority), min_gamma)], the mean
    falling back to 10 when the list has no costed edge.  Compared with
    [calculate_default_gamma] in [C8_default_gamma]. *)
Definition mean_cost_or_10 `{Collaborators} (TSG : list edge) : float64 :=
  match omap edge_cost TSG with
  | [] => float_of_Z 10
  | costs => np_mean costs
  end.

Definition claimed_default_gamma `{Collaborators} (TSG : list edge)
    (priority k min_gamma : float64) : float64 :=
  py_max (float_mul (float_mul k (mean_cost_or_10 TSG))
                    (py_max (float_of_Z 1) priority))
         min_gamma.

(** A graph whose four edges cost 100, 100, 100 and 101 (mean 100.25). *)
Definition costly_graph : graph_processor :=
  {| M := 3;
     ts_nodes := map base_node [1; 2; 3; 4; 5; 6];
     ts_edges := [ (1, 4, 0, 1, Some 100); (2, 5, 0, 1, Some 100);
                   (3, 6, 0, 1, Some 100); (1, 2, 0, 1, Some 101) ];
     map_nodes := ∅ |}.

(** A graph whose three edges cost 100, 100 and 185: the mean 385/3 is
    no double. *)
Definition uneven_graph : graph_processor :=
  {| M := 3;
     ts_nodes := map base_node [1; 2; 3; 4; 5; 6];
     ts_edges := [ (1, 4, 0, 1, Some 100); (2, 5, 0, 1, Some 100);
                   (3, 6, 0, 1, Some 185) ];
     map_nodes := ∅ |}.

(** A graph whose one edge costs [2^53 + 1], which no double holds. *)
Definition heavy_graph : graph_processor :=
  {| M := 3;
     ts_nodes := map base_node [1; 2; 3; 4; 5; 6];
     ts_edges := [ (1, 4, 0, 1, Some 9007199254740993) ];
     map_nodes := ∅ |}.

(** The quantities that [restriction_step] computes for one restriction. *)
Definition restriction_omega (self : controller) (gp : graph_processor)
    (restriction_item : restriction) : list edge :=
  let '(restriction_edges_config, (start_time_frame, end_time_frame), _, _, _, _) :=
    restriction_item in
  identify_restricted_edges self gp restriction_edges_config
                            start_time_frame end_time_frame.

Definition restriction_virtual_flow `{Collaborators} (self : controller)
    (gp : graph_processor) (restriction_item : restriction) : Z :=
  let '(_, _, U, _, _, _) := restriction_item in
  let omega := restriction_omega self gp restriction_item in
  let restricted_nodes := identify_restricted_nodes omega in
  calculate_virtual_flow
    (calculate_max_flow omega
       (calculate_incoming_capacity_for_restricted_nodes (ts_edges gp) restricted_nodes)
       (calculate_outgoing_capacity_for_restricted_nodes (ts_edges gp) restricted_nodes))
    U.

Definition restriction_gamma `{Collaborators} (self : controller)
    (gp : graph_processor) (restriction_item : restriction) : Z :=
  let '(_, _, _, priority, gamma_config, k_val) := restriction_item in
  resolve_gamma self gp priority gamma_config k_val.

(** The five edges that replace the omega edge [(u, v, 0, cap, cost)],
    given the global pair and the two intermediate ids. *)
Definition replacement_edges (vS_global_id vD_global_id v_i1_id v_i2_id : Z)
    (e : edge) : list edge :=
  let '(u, v, _, cap, cost) := e in
  [ (u, v_i1_id, 0, cap, cost);
    (v_i1_id, v_i2_id, 0, cap, Some 0);
    (v_i2_id, v, 0, cap, Some 0);
    (vS_global_id, v_i1_id, 0, cap, Some 0);
    (v_i2_id, vD_global_id, 0, cap, Some 0) ].

(** The replacement edges of a whole omega: its [i]-th edge (from 0) gets
    the intermediate ids [base + 2i + 1] and [base + 2i + 2]. *)
Definition siphon_edges (vS_global_id vD_global_id base : Z) (omega : list edge)
    : list edge :=
  concat (imap (λ (i : nat) (e : edge),
                  replacement_edges vS_global_id vD_global_id
                                    (base + 2 * Z.of_nat i + 1)
                                    (base + 2 * Z.of_nat i + 2) e)
               omega).

(** What a run of the builder adds: [n] artificial nodes, whose ids are
    the next [n] after [max_node_id_val], and the edges [new_edges]; the
    edge list of the graph, the other nodes and the configuration stay as
    they are. *)
Definition grows (self : controller) (gp : graph_processor) (max_node_id_val : Z)
    (self' : controller) (gp' : graph_processor) (max_node_id_val' : Z)
    (n : Z) (new_edges : list edge) : Prop :=
  0 ≤ n
  ∧ max_node_id_val' = max_node_id_val + n
  ∧ _all_additional_edges self' = _all_additional_edges self ++ new_edges
  ∧ _all_additional_nodes self'
    = list_to_set (seqZ (max_node_id_val + 1) n) ∪ _all_additional_nodes self
  ∧ (∃ new_nodes, ts_nodes gp' = ts_nodes gp ++ new_nodes
                  ∧ id <$> new_nodes = seqZ (max_node_id_val + 1) n
                  ∧ Forall (λ nd, is_restriction_node nd = true) new_nodes)
  ∧ ts_edges gp' = ts_edges gp
  ∧ M gp' = M gp
  ∧ (∀ k, ¬ (max_node_id_val < k ≤ max_node_id_val') →
          map_nodes gp' !! k = map_nodes gp !! k)
  ∧ _M self' = _M self
  ∧ restrictions self' = restrictions self
  ∧ _min_gamma self' = _min_gamma self.

(** What the same run does to the rollback record and to the demand
    map: omega grows by [added_omega]; every new edge touches a node id
    above the counter; and, when the demand map only has keys up to the
    counter, its total is kept, its keys stay up to the new counter, and
    it is unchanged when no edge was emitted. *)
Definition ledger_grows (self : controller) (max_node_id_val : Z)
    (self' : controller) (max_node_id_val' : Z)
    (new_edges added_omega : list edge) : Prop :=
  _omega self' = _omega self ++ added_omega
  ∧ Forall (λ e : edge, max_node_id_val < (endpoints e).1
                         ∨ max_node_id_val < (endpoints e).2) new_edges
  ∧ ((∀ k, is_Some (_virtual_node_demands self !! k) → k ≤ max_node_id_val) →
     total_demand (_virtual_node_demands self')
     = total_demand (_virtual_node_demands self)
     ∧ (∀ k, is_Some (_virtual_node_demands self' !! k) → k ≤ max_node_id_val')
     ∧ (new_edges = [] → _virtual_node_demands self' = _virtual_node_demands self)).

(** The controllers that a run can hold: the fresh one, and the ones
    left by [apply_restriction] and by [remove_artificial_artifact], on
    any graph and any batch, and by the setters of the restrictions, of
    gamma and of omega. *)
Inductive reachable `{Collaborators} : controller → Prop :=
  | reachable_init (gp : graph_processor) :
      reachable (init gp)
  | reachable_apply (self : controller) (gp : graph_processor)
                    (restrictions_data_cache : list restriction) :
      reachable self →
      reachable (apply_restriction self gp restrictions_data_cache).1
  | reachable_cleanup (self : controller) (gp : graph_processor) :
      reachable self →
      reachable (remove_artificial_artifact self gp).1
  | reachable_set_restrictions (self : controller)
                               (restrictions_data : list restriction) :
      reachable self →
      reachable (set_restrictions self restrictions_data)
  | reachable_set_gamma_value (self : controller) (gamma_value : Q) :
      reachable self →
      reachable (set_gamma_value self gamma_value)
  | reachable_set_omega (self : controller) (omega : list edge) :
      reachable self →
      reachable (set_omega self omega).

(** An empty ledger, as [__init__] and the cleanup leave it. *)
Definition ledger_empty (self : controller) : Prop :=
  _all_additional_nodes self = ∅
  ∧ _all_additional_edges self = []
  ∧ _omega self = []
  ∧ _virtual_node_demands self = ∅.

(** The data model of section 3 for the graph handed to the controller:
    [get_max_id()] bounds the ids of the nodes, of the node map and of
    the endpoints of the edges, and every lower bound is 0. *)
Definition graph_well_formed `{Collaborators} (gp : graph_processor) : Prop :=
  (∀ n : node, n ∈ ts_nodes gp → id n ≤ get_max_id gp)
  ∧ (∀ k : Z, is_Some (map_nodes gp !! k) → k ≤ get_max_id gp)
  ∧ (∀ e : edge, e ∈ ts_edges gp →
       (endpoints e).1 ≤ get_max_id gp
       ∧ (endpoints e).2 ≤ get_max_id gp
       ∧ zero_lower_bound e = e).

(** The test of [identify_restricted_edges] for a restriction tuple. *)
Definition restriction_matches (self : controller) (restriction_item : restriction)
    (e : edge) : bool :=
  let '(restriction_edges_config, (start_time_frame, end_time_frame), _, _, _, _) :=
    restriction_item in
  in_omega self (list_to_set restriction_edges_config)
           start_time_frame end_time_frame e.

(** The test of [detect_escape_edges] on one arc line, and the
    dictionary it appends. *)
Definition looks_like_escape (a : ArcLine.t) : bool :=
  (ArcLine.source a >? 80) && (ArcLine.dest a >? 80) && (ArcLine.cost a >? 0).

Definition escape_edge_of_arc (a : ArcLine.t) : EscapeEdge.t :=
  {| EscapeEdge.source := ArcLine.source a;
     EscapeEdge.dest := ArcLine.dest a;
     EscapeEdge.cost := ArcLine.cost a;
     EscapeEdge.line := ArcLine.line_num a;
     EscapeEdge.is_escape_edge := true |}.

(** The capacity of an edge, and the edges of [TSG] that cross the
    border of [restricted_nodes] at one node: those that enter [v] from
    outside, those that leave [u] to the outside. *)
Definition edge_capacity (e : edge) : Z :=
  let '(_, _, _, capacity, _) := e in capacity.

Definition entering (TSG : list edge) (restricted_nodes : gset Z) (v : Z) : list edge :=
  filter (λ e : edge, (endpoints e).2 = v
                      ∧ (endpoints e).2 ∈ restricted_nodes
                      ∧ (endpoints e).1 ∉ restricted_nodes) TSG.

Definition leaving (TSG : list edge) (restricted_nodes : gset Z) (u : Z) : list edge :=
  filter (λ e : edge, (endpoints e).1 = u
                      ∧ (endpoints e).1 ∈ restricted_nodes
                      ∧ (endpoints e).2 ∉ restricted_nodes) TSG.

(** The capacity that the auxiliary graph of [calculate_max_flow] holds
    for the pair [(s, d)] after the loop over omega: that of the last
    omega edge with these endpoints. *)
Definition parallel_capacity (omega : list edge) (s d : Z) : option Z :=
  edge_capacity <$> last (filter (λ e : edge, endpoints e = (s, d)) omega).

(** The bookkeeping of the ledger: every key of the demand map is a
    recorded node and carries a demand other than 0; every recorded edge
    touches a recorded node; edges are recorded exactly when nodes are;
    and the three sizes fit the shape of the topology (two global nodes,
    two demands and one escape edge per producing restriction; two
    intermediate nodes and five edges per replaced omega edge). *)
Definition ledger_consistent (self : controller) : Prop :=
  (∀ (k v : Z), _virtual_node_demands self !! k = Some v →
                k ∈ _all_additional_nodes self ∧ v ≠ 0)
  ∧ Forall (λ e : edge, (endpoints e).1 ∈ _all_additional_nodes self
                        ∨ (endpoints e).2 ∈ _all_additional_nodes self)
           (_all_additional_edges self)
  ∧ (_all_additional_edges self = [] ↔ _all_additional_nodes self = ∅)
  ∧ (2 * length (_all_additional_edges self)
     + 4 * size (_virtual_node_demands self)
     = 5 * size (_all_additional_nodes self))%nat.

(** Weak connectivity in an edge list: two nodes are connected when a
    chain of edges, taken in either direction, leads from one to the
    other. *)
Definition adjacent (graph : list edge) (a b : Z) : Prop :=
  ∃ e : edge, e ∈ graph ∧ endpoints e = (a, b).

Definition weakly_connected (graph : list edge) : relation Z :=
  rtsc (adjacent graph).

(** [reaches parent u r n]: following [parent] from [u] leads in [n]
    steps to [r], which is its own parent. *)
Inductive reaches (parent : gmap Z Z) : Z → Z → nat → Prop :=
  | reaches_root (r : Z) :
      parent !! r = Some r → reaches parent r r 0
  | reaches_step (u p r : Z) (n : nat) :
      parent !! u = Some p → p ≠ u → reaches parent p r n →
      reaches parent u r (S n).

(** What a [find] does to [parent]: same keys, same roots, no chain
    longer. *)
Definition compressed (parent parent' : gmap Z Z) : Prop :=
  (∀ x, is_Some (parent' !! x) ↔ is_Some (parent !! x))
  ∧ (∀ x r m, reaches parent x r m →
              ∃ m', (m' ≤ m)%nat ∧ reaches parent' x r m').

(** The state of the union-find after the edges [graph]: every key has
    a root at most [k] steps away, two keys have the same root exactly
    when [graph] connects them, and the endpoints of [graph] are keys. *)
Definition forest (parent : gmap Z Z) (k : nat) : Prop :=
  ∀ x, is_Some (parent !! x) → ∃ r n, (n ≤ k)%nat ∧ reaches parent x r n.

Definition classes (parent : gmap Z Z) (graph : list edge) : Prop :=
  ∀ x y rx ry nx ny,
    reaches parent x rx nx → reaches parent y ry ny →
    (rx = ry ↔ weakly_connected graph x y).

Definition covered (parent : gmap Z Z) (graph : list edge) : Prop :=
  ∀ e, e ∈ graph → is_Some (parent !! (endpoints e).1)
                   ∧ is_Some (parent !! (endpoints e).2).

Definition union_find (parent : gmap Z Z) (graph : list edge) (k : nat) : Prop :=
  forest parent k ∧ classes parent graph ∧ covered parent graph.

(** The state of the grouping loop after the edges [seen]: the keys of
    [components] are distinct roots, each list is a non-empty sublist of
    [seen] whose edges start at a node of that root, and the lists share
    out [seen]. *)
Definition grouped (parent0 : gmap Z Z) (components : list (Z * list edge))
    (seen : list edge) : Prop :=
  NoDup components.*1
  ∧ (∀ k l, (k, l) ∈ components →
            l ≠ [] ∧ sublist l seen
            ∧ ∀ e, e ∈ l → ∃ n, reaches parent0 (endpoints e).1 k n)
  ∧ concat components.*2 ≡ₚ seen.

(** The node objects that the builder creates: the two global nodes of
    a restriction, labelled with the position at which [list.index]
    finds the restriction, and the two intermediate nodes of each omega
    edge, labelled with its endpoints. *)
Definition global_nodes (self : controller) (restriction_item : restriction)
    (base : Z) : list node :=
  [ RestrictionArtificialNode (base + 1)
      ("Global_vS_Res" +:+ pretty (index (restrictions self) restriction_item));
    RestrictionArtificialNode (base + 2)
      ("Global_vD_Res" +:+ pretty (index (restrictions self) restriction_item)) ].

Definition intermediate_pair (v_i1_id v_i2_id : Z) (e : edge) : list node :=
  let '(u, v, _, _, _) := e in
  [ RestrictionArtificialNode v_i1_id ("v_i1_" +:+ pretty u +:+ "_" +:+ pretty v);
    RestrictionArtificialNode v_i2_id ("v_i2_" +:+ pretty u +:+ "_" +:+ pretty v) ].

Definition intermediate_nodes (base : Z) (omega : list edge) : list node :=
  concat (imap (λ (i : nat) (e : edge),
                  intermediate_pair (base + 2 * Z.of_nat i + 1)
                                    (base + 2 * Z.of_nat i + 2) e)
               omega).

(** The path [1 -> 2 -> ... -> n + 1], its [n] edges listed from the
    start, and the dictionary [parent] that the union loop leaves after
    the first [i] of them: every node points to the next one. *)
Definition chain (n : nat) : list edge :=
  (λ i : nat, (Z.of_nat i, Z.of_nat i + 1, 0, 1, None)) <$> seq 1 n.

Definition chain_parent (i : nat) (parent : gmap Z Z) : Prop :=
  ∀ j : Z,
    parent !! j
    = if decide (1 ≤ j ≤ Z.of_nat i) then Some (j + 1)
      else if decide (j = Z.of_nat i + 1 ∧ (1 ≤ i)%nat) then Some j
      else None.

(** * Properties *)

(** ** Virtual flow *)

(** C7. For all integers [F] and [U] the virtual flow is [max(0, F - U)]
    (so in particular for non-negative ones), and
    [virtual_flow(5,3) = 2], [virtual_flow(3,5) = 0],
    [virtual_flow(10,10) = 0]. *)
Theorem C7_virtual_flow_arithmetic :
  (∀ F U : Z,
     calculate_virtual_flow F U = (if decide (F - U ≤ 0) then 0 else F - U)
     ∧ calculate_virtual_flow F U = Z.max 0 (F - U)
     ∧ 0 ≤ calculate_virtual_flow F U)
  ∧ calculate_virtual_flow 5 3 = 2
  ∧ calculate_virtual_flow 3 5 = 0
  ∧ calculate_virtual_flow 10 10 = 0.
Proof.
  split; [|done].
  intros F U. unfold calculate_virtual_flow.
  case_decide; lia.
Qed.

(** ** Spatial and time indices *)

Lemma time_helper_canonical (M node_id : Z) :
  0 < M →
  node_id / M - (if bool_decide (node_id mod M = 0) then 1 else 0)
  = (node_id - 1) / M.
Proof.
  intros HM.
  pose proof (Z.div_mod node_id M ltac:(lia)) as Hdm.
  pose proof (Z.mod_pos_bound node_id M HM) as Hb.
  case_bool_decide as Hr.
  - apply Z.div_unique with (r := M - 1); [lia|].
    rewrite Hr in Hdm. lia.
  - rewrite Z.sub_0_r.
    apply Z.div_unique with (r := node_id mod M - 1); lia.
Qed.

Lemma coordinate_helper_canonical (M node_id : Z) :
  0 < M →
  (if bool_decide (node_id mod M ≠ 0) then node_id mod M else M)
  = (node_id - 1) mod M + 1.
Proof.
  intros HM.
  pose proof (Z.div_mod node_id M ltac:(lia)) as Hdm.
  pose proof (Z.mod_pos_bound node_id M HM) as Hb.
  case_bool_decide as Hr.
  - assert ((node_id - 1) mod M = node_id mod M - 1) as ->; [|lia].
    symmetry. apply Z.mod_unique with (q := node_id / M); lia.
  - assert ((node_id - 1) mod M = M - 1) as ->; [|lia].
    symmetry. apply Z.mod_unique with (q := node_id / M - 1); [lia|].
    rewrite Hr in Hdm. lia.
Qed.

(** C9. For every node id [>= 1] and every spatial-node count [M >= 1],
    the time helper of the implementation ([id // M], minus one when
    [id % M = 0]) equals the canonical [time_of id = (id - 1) div M], and
    the coordinate helper ([id % M], or [M] when the remainder is 0)
    equals the canonical [spatial_of id = ((id - 1) mod M) + 1]. *)
Theorem C9_indexer_refines_canonical (self : controller) (node_id : Z) :
  1 ≤ node_id →
  1 ≤ _M self →
  _get_node_time self node_id = time_of (_M self) node_id
  ∧ _get_node_coordinates self node_id = spatial_of (_M self) node_id.
Proof.
  intros _ HM. unfold _get_node_time, _get_node_coordinates, time_of, spatial_of.
  split.
  - apply time_helper_canonical. lia.
  - apply coordinate_helper_canonical. lia.
Qed.

Lemma C9_indexer_refines_canonical_witness :
  _get_node_time (init test_graph) 6 = time_of 3 6
  ∧ _get_node_coordinates (init test_graph) 6 = spatial_of 3 6.
Proof.
  apply (C9_indexer_refines_canonical (init test_graph) 6); simpl; lia.
Defined.

(** ** Omega extraction *)

Lemma identify_restricted_edges_filter (self : controller) (gp : graph_processor)
    (restriction_edges : list (Z * Z)) (start_time_frame end_time_frame : Z) :
  identify_restricted_edges self gp restriction_edges start_time_frame end_time_frame
  = zero_lower_bound <$>
      filter (λ e, in_omega self (list_to_set restriction_edges)
                            start_time_frame end_time_frame e = true)
             (ts_edges gp).
Proof.
  unfold identify_restricted_edges.
  match goal with
  | |- foldl ?F [] ?es = _ =>
      enough (∀ acc, foldl F acc es
                     = acc ++ (zero_lower_bound <$>
                                 filter (λ e, in_omega self (list_to_set restriction_edges)
                                                start_time_frame end_time_frame e = true) es))
        as Hgen by exact (Hgen [])
  end.
  induction (ts_edges gp) as [|e es IH]; intros acc.
  - simpl. by rewrite app_nil_r.
  - destruct e as [[[[source_id dest_id] lb] capacity] cost].
    rewrite filter_cons. cbn [foldl]. rewrite IH.
    unfold in_omega at 2. simpl.
    case_bool_decide as Hbase; simpl.
    + destruct (Z.ltb _ _), (Z.gtb _ _); simpl;
        repeat case_decide; try done.
      by rewrite <- app_assoc.
    + repeat case_decide; done.
Qed.

Lemma identify_restricted_edges_lower_bound (self : controller) (gp : graph_processor)
    (restriction_edges : list (Z * Z)) (start_time_frame end_time_frame : Z) (e : edge) :
  e ∈ identify_restricted_edges self gp restriction_edges start_time_frame end_time_frame →
  zero_lower_bound e = e.
Proof.
  rewrite identify_restricted_edges_filter, list_elem_of_fmap.
  intros ([[[[s d] lb] c] k] & -> & _). done.
Qed.

(** C4. Omega contains [(source, dest, 0, cap, cost)] exactly when the
    edge list has an edge [(source, dest, _, cap, cost)] whose spatial base
    pair [(spatial_of source, spatial_of dest)] is one of the restricted
    edges and whose times satisfy [time_of source < end] and
    [time_of dest > start]; and on the unit tests' graph ([M = 3]) the
    restriction on (1,2) with timeframe [0,3] yields exactly
    [(4,5,0,1,5)] and [(7,8,0,1,5)], the edge (1,2) at time 0 excluded. *)
Theorem C4_omega_extraction (self : controller) (gp : graph_processor)
    (restriction_edges : list (Z * Z)) (start_time_frame end_time_frame : Z) :
  1 ≤ _M self →
  (∀ (source_id dest_id capacity : Z) (cost : option Z),
     (source_id, dest_id, 0, capacity, cost)
       ∈ identify_restricted_edges self gp restriction_edges
                                   start_time_frame end_time_frame
     ↔ (∃ lb, (source_id, dest_id, lb, capacity, cost) ∈ ts_edges gp)
       ∧ (spatial_of (_M self) source_id, spatial_of (_M self) dest_id) ∈ restriction_edges
       ∧ time_of (_M self) source_id < end_time_frame
       ∧ time_of (_M self) dest_id > start_time_frame)
  ∧ identify_restricted_edges (init test_graph) test_graph [(1, 2)] 0 3
    = [(4, 5, 0, 1, Some 5); (7, 8, 0, 1, Some 5)]
  ∧ (1, 2, 0, 1, Some 5) ∈ ts_edges test_graph
  ∧ (1, 2, 0, 1, Some 5) ∉ identify_restricted_edges (init test_graph) test_graph [(1, 2)] 0 3.
Proof.
  intros HM. split; [|split; [by vm_compute|split; [set_solver|by vm_compute; set_solver]]].
  intros source_id dest_id capacity cost.
  rewrite identify_restricted_edges_filter, list_elem_of_fmap.
  assert (∀ e : edge,
            in_omega self (list_to_set restriction_edges) start_time_frame end_time_frame e = true
            ↔ (spatial_of (_M self) (endpoints e).1, spatial_of (_M self) (endpoints e).2)
                ∈ restriction_edges
              ∧ time_of (_M self) (endpoints e).1 < end_time_frame
              ∧ time_of (_M self) (endpoints e).2 > start_time_frame) as Hin.
  { intros [[[[s d] lb] c] k]. unfold in_omega, _get_node_time, _get_node_coordinates. simpl.
    rewrite !time_helper_canonical, !coordinate_helper_canonical by lia.
    rewrite !andb_true_iff, bool_decide_eq_true, elem_of_list_to_set.
    unfold time_of, spatial_of. rewrite Z.ltb_lt, Z.gtb_lt. naive_solver lia. }
  split.
  - intros ([[[[s d] lb] c] k] & Heq & Hf). simplify_eq/=.
    apply list_elem_of_filter in Hf as [Hp He]. apply Hin in Hp. simpl in Hp.
    naive_solver.
  - intros ([lb He] & Hbase & Ht1 & Ht2).
    exists (source_id, dest_id, lb, capacity, cost). split; [done|].
    apply list_elem_of_filter. split; [|done]. apply Hin. done.
Qed.

Lemma C4_omega_extraction_witness :
  (4, 5, 0, 1, Some 5) ∈ identify_restricted_edges (init test_graph) test_graph [(1, 2)] 0 3
  ↔ (∃ lb, (4, 5, lb, 1, Some 5) ∈ ts_edges test_graph)
    ∧ (spatial_of 3 4, spatial_of 3 5) ∈ [(1, 2)]
    ∧ time_of 3 4 < 3
    ∧ time_of 3 5 > 0.
Proof.
  assert (1 ≤ _M (init test_graph)) as HM by (simpl; lia).
  exact (proj1 (C4_omega_extraction (init test_graph) test_graph [(1, 2)] 0 3 HM)
               4 5 1 (Some 5)).
Defined.

(** ** Violation detection *)

Lemma escape_edge_violations_filter (flow_dict : flowDict)
    (escape_edges : list EscapeEdge.t) :
  escape_edge_violations flow_dict escape_edges
  = violation_of flow_dict <$>
      filter (λ edge, escape_flow flow_dict edge > 0) escape_edges.
Proof.
  unfold escape_edge_violations.
  match goal with
  | |- foldl ?F [] ?es = _ =>
      enough (∀ acc, foldl F acc es
                     = acc ++ (violation_of flow_dict <$>
                                 filter (λ edge, escape_flow flow_dict edge > 0) es))
        as Hgen by exact (Hgen [])
  end.
  induction escape_edges as [|e es IH]; intros acc.
  - simpl. by rewrite app_nil_r.
  - rewrite filter_cons. cbn [foldl]. rewrite IH.
    destruct (Z.gtb_spec (escape_flow flow_dict e) 0); case_decide; try lia.
    + by rewrite fmap_cons, <- app_assoc.
    + done.
Qed.

(** C5. Given the solved flow and the known escape edges, the detector
    reports, in order, one violation for each escape edge whose flow is
    strictly positive and none for the others; the flow of an edge absent
    from the assignment is 0; every reported violation has
    [penalty_cost = flow * gamma_cost]; and an escape edge that carries
    flow 2 at gamma 200 gives exactly one violation, of penalty 400. *)
Theorem C5_violation_detection (flow_dict : flowDict)
    (escape_edges : list EscapeEdge.t) :
  analyze_escape_edge_flow escape_edges (Some flow_dict)
  = violation_of flow_dict <$>
      filter (λ edge, escape_flow flow_dict edge > 0) escape_edges
  ∧ (∀ v : Violation.t,
       v ∈ analyze_escape_edge_flow escape_edges (Some flow_dict)
       ↔ ∃ edge, edge ∈ escape_edges
                 ∧ escape_flow flow_dict edge > 0
                 ∧ v = {| Violation.source := EscapeEdge.source edge;
                          Violation.dest := EscapeEdge.dest edge;
                          Violation.flow := escape_flow flow_dict edge;
                          Violation.gamma_cost := EscapeEdge.cost edge;
                          Violation.penalty_cost :=
                            escape_flow flow_dict edge * EscapeEdge.cost edge |})
  ∧ (∀ edge : EscapeEdge.t,
       escape_flow flow_dict edge
       = default 0 (flow_dict !! pretty (EscapeEdge.source edge)
                      ≫= λ row, row !! pretty (EscapeEdge.dest edge)))
  ∧ analyze_escape_edge_flow
      [EscapeEdge.Make 10 11 200 42 true]
      (Some {[ "10" := {[ "11" := 2 ]} ]})
    = [Violation.Make 10 11 2 200 400].
Proof.
  assert (analyze_escape_edge_flow escape_edges (Some flow_dict)
          = violation_of flow_dict <$>
              filter (λ edge, escape_flow flow_dict edge > 0) escape_edges) as Heq.
  { destruct escape_edges as [|e es]; [done|].
    unfold analyze_escape_edge_flow. apply escape_edge_violations_filter. }
  split; [done|]. split; [|split; [|by vm_compute]].
  - intros v. rewrite Heq, list_elem_of_fmap. split.
    + intros (e & -> & He). apply list_elem_of_filter in He as [Hpos He].
      exists e. done.
    + intros (e & He & Hpos & ->). exists e. split; [done|].
      apply list_elem_of_filter. done.
  - intros e. unfold escape_flow.
    destruct (flow_dict !! _) as [row|]; simpl; [|done].
    by destruct (row !! _).
Qed.

(** ** Gamma resolution *)

Lemma py_round_ge_floor (x : Q) : Qfloor x ≤ py_round x.
Proof.
  unfold py_round. destruct (_ ?= _)%Q; [destruct (Z.even _)|..]; lia.
Qed.

Lemma py_round_nearest (x : Q) :
  (inject_Z (py_round x) - (1 # 2) <= x)%Q ∧ (x <= inject_Z (py_round x) + (1 # 2))%Q.
Proof.
  pose proof (Qfloor_le x) as Hlo. pose proof (Qlt_floor x) as Hhi.
  unfold py_round.
  rewrite inject_Z_plus in Hhi. change (inject_Z 1) with 1%Q in Hhi.
  destruct (x - inject_Z (Qfloor x) ?= 1 # 2)%Q eqn:Hc.
  - apply Qeq_alt in Hc.
    destruct (Z.even (Qfloor x)); rewrite ?inject_Z_plus;
      change (inject_Z 1) with 1%Q; split; lra.
  - apply Qlt_alt in Hc. split; lra.
  - apply Qgt_alt in Hc. rewrite inject_Z_plus.
    change (inject_Z 1) with 1%Q. split; lra.
Qed.

Lemma float_compare_None (x y : float64) :
  float_compare x y = None → float_is_nan x = true ∨ float_is_nan y = true.
Proof. destruct x as [| | |? ? ?], y as [| | |? ? ?]; cbn; naive_solver. Qed.

Lemma float_le_refl (x : float64) :
  float_is_nan x = false → float_le x x = true.
Proof.
  unfold float_le.
  destruct x as [?|[]| |s m e]; intros Hnan; try done; cbn.
  by rewrite (proj1 (Qeq_alt _ _) (Qeq_refl _)).
Qed.

Lemma py_max_either (a b : float64) : py_max a b = a ∨ py_max a b = b.
Proof. unfold py_max. destruct (float_gt b a); [by right|by left]. Qed.

Lemma py_max_floor (a b : float64) :
  float_is_nan (py_max a b) = false →
  float_is_nan b = false →
  float_le b (py_max a b) = true.
Proof.
  unfold py_max, float_gt.
  destruct (float_compare b a) as [[| |]|] eqn:Hc; intros Ha Hb.
  - unfold float_le. by rewrite Hc.
  - unfold float_le. by rewrite Hc.
  - by apply float_le_refl.
  - apply float_compare_None in Hc as [Hc|Hc]; congruence.
Qed.

Lemma float_le_value (x y : float64) (qx qy : Q) :
  float_le x y = true →
  float_value x = Some qx → float_value y = Some qy →
  (qx <= qy)%Q.
Proof.
  unfold float_le. intros Hle Hx Hy.
  assert (Hc : float_compare x y = Some (qx ?= qy)%Q).
  { destruct x as [?|?| |? ? ?], y as [?|?| |? ? ?]; try done;
      cbn in Hx, Hy; injection Hx as <-; injection Hy as <-; done. }
  rewrite Hc in Hle.
  destruct (qx ?= qy)%Q eqn:Hcmp; try done.
  - apply Qeq_alt in Hcmp. rewrite Hcmp. apply Qle_refl.
  - apply Qlt_alt in Hcmp. by apply Qlt_le_weak.
Qed.

Lemma py_int_round_floor (min_gamma gamma : float64) (floor : Z) (m : Q) (r : Z) :
  float_le min_gamma gamma = true →
  float_value min_gamma = Some m → (m == inject_Z floor)%Q →
  py_int_round gamma = Some r →
  floor ≤ r.
Proof.
  intros Hle Hm Hfloor Hr. unfold py_int_round in Hr.
  destruct (float_value gamma) as [v|] eqn:Hv; [|done].
  injection Hr as <-.
  pose proof (float_le_value _ _ _ _ Hle Hm Hv) as Hmv.
  etrans; [|apply py_round_ge_floor].
  rewrite <- (Qfloor_Z floor). apply Qfloor_resp_le.
  by rewrite <- Hfloor.
Qed.

Lemma float_value_not_nan (x : float64) (v : Q) :
  float_value x = Some v → float_is_nan x = false.
Proof. by destruct x. Qed.

(** Counterexample to C8 as stated.  On the empty edge list the code
    returns [min_gamma] (200) where the claimed formula gives
    [max(2 * 10 * 30, 200) = 600]; and the gamma that a restriction gets
    is rounded: with mean cost 100.25 and [k = 2] it is 200, not 200.5.
    Every number of the two runs is a double, and no product is
    rounded. *)
Lemma C8_default_gamma_counterexample :
  (calculate_default_gamma [] (float_of_Q 30) (float_of_Q 2) (float_of_Q 200)
   = float_of_Q 200
   ∧ claimed_default_gamma [] (float_of_Q 30) (float_of_Q 2) (float_of_Q 200)
     = float_of_Q 600
   ∧ Qred <$> float_value (float_of_Q 200) = Some 200%Q
   ∧ Qred <$> float_value (float_of_Q 600) = Some 600%Q
   ∧ calculate_default_gamma [] (float_of_Q 30) (float_of_Q 2) (float_of_Q 200)
     ≠ claimed_default_gamma [] (float_of_Q 30) (float_of_Q 2) (float_of_Q 200))
  ∧ (resolve_gamma (init costly_graph) costly_graph 1 None 2 = 200
     ∧ Qred <$> float_value
                  (claimed_default_gamma (ts_edges costly_graph) (float_of_Q 1)
                     (float_of_Q 2) (float_of_Q (_min_gamma (init costly_graph))))
       = Some (401 # 2)
     ∧ ¬ (inject_Z (resolve_gamma (init costly_graph) costly_graph 1 None 2)
          == 401 # 2)%Q).
Proof.
  split.
  - split; [by vm_compute|]. split; [by vm_compute|].
    split; [by vm_compute|]. split; [by vm_compute|].
    vm_compute. discriminate.
  - split; [by vm_compute|]. split; [by vm_compute|].
    vm_compute. discriminate.
Qed.

(** The default gamma is computed in doubles.  With costs 100, 100 and
    185, [k = 2.5] and priority 3 the mean is the double next to 385/3
    and the two products give 962.5000000000001, so the gamma is 963
    (the real number 962.5 would round to 962); with the one cost
    [2^53 + 1] and [k = 2] the mean is [2^53] and the gamma [2^54]. *)
Example default_gamma_in_doubles :
  np_mean [100; 100; 185] = S754_finite false 4515327751400107 (-45)
  ∧ calculate_default_gamma (ts_edges uneven_graph) (float_of_Q 3)
      (float_of_Q (5 # 2)) (float_of_Q 200)
    = S754_finite false 8466239533875201 (-43)
  ∧ resolve_gamma (init uneven_graph) uneven_graph 3 None (5 # 2) = 963
  ∧ py_round ((5 # 2) * (385 # 3) * 3) = 962
  ∧ resolve_gamma (init heavy_graph) heavy_graph 1 None 2 = 2 ^ 54.
Proof. repeat split; by vm_compute. Qed.

(** C8, amended.  Without an explicit gamma, [calculate_default_gamma]
    returns [min_gamma] on an empty edge list and otherwise
    [max(k * mean_cost * max(1.0, priority), min_gamma)], the two
    products taken in double precision from the left, where [mean_cost]
    is numpy's mean of the costs that are not [None], or 10 when there
    is none: the value is [min_gamma] or the second product.  Unless it
    is a NaN, the value is at least [min_gamma].  The gamma resolved for
    a restriction is [int(round(.))] of the value: the integer nearest
    to it, ties to the even one, when the value is finite, and an
    exception when it is not.  A resolved gamma is at least [min_gamma]
    whenever [min_gamma] is an integer, as the default 200 is. *)
Theorem C8_default_gamma `{Collaborators} (TSG : list edge)
    (priority k min_gamma : float64) :
  let gamma := calculate_default_gamma TSG priority k min_gamma in
  gamma = match TSG with
          | [] => min_gamma
          | _ :: _ => claimed_default_gamma TSG priority k min_gamma
          end
  ∧ (gamma = min_gamma
     ∨ (TSG ≠ []
        ∧ gamma = float_mul (float_mul k (mean_cost_or_10 TSG))
                            (py_max (float_of_Z 1) priority)))
  ∧ (float_is_nan gamma = false → float_is_nan min_gamma = false →
     float_le min_gamma gamma = true)
  ∧ (∀ v : Q,
       float_value gamma = Some v →
       py_int_round gamma = Some (py_round v)
       ∧ (inject_Z (py_round v) - (1 # 2) <= v)%Q
       ∧ (v <= inject_Z (py_round v) + (1 # 2))%Q)
  ∧ (float_value gamma = None → py_int_round gamma = None)
  ∧ (∀ (floor : Z) (m : Q) (r : Z),
       float_value min_gamma = Some m → (m == inject_Z floor)%Q →
       py_int_round gamma = Some r →
       floor ≤ r)
  ∧ (∀ (self : controller) (gp : graph_processor) (priority k : Q) (r : Z),
       py_int_round
         (calculate_default_gamma (ts_edges gp) (float_of_Q priority)
            (float_of_Q k) (float_of_Q (_min_gamma self))) = Some r →
       resolve_gamma self gp priority None k = r)
  ∧ (∀ (gp : graph_processor) (priority k : Q) (r : Z),
       py_int_round
         (calculate_default_gamma (ts_edges gp) (float_of_Q priority)
            (float_of_Q k) (float_of_Q (_min_gamma (init gp)))) = Some r →
       resolve_gamma (init gp) gp priority None k = r ∧ 200 ≤ r).
Proof.
  cbv zeta.
  assert (Heq : calculate_default_gamma TSG priority k min_gamma
                = match TSG with
                  | [] => min_gamma
                  | _ :: _ => claimed_default_gamma TSG priority k min_gamma
                  end).
  { destruct TSG as [|e TSG]; [done|].
    unfold calculate_default_gamma, claimed_default_gamma, mean_cost_or_10.
    by destruct (omap edge_cost (e :: TSG)). }
  assert (Hfloor : ∀ (T : list edge) (p kf m : float64),
            float_is_nan (calculate_default_gamma T p kf m) = false →
            float_is_nan m = false →
            float_le m (calculate_default_gamma T p kf m) = true).
  { intros T p kf m Hg Hm. destruct T as [|e T]; [by apply float_le_refl|].
    by apply py_max_floor. }
  assert (Hround : ∀ (T : list edge) (p kf m : float64) (floor : Z) (q : Q) (r : Z),
            float_value m = Some q → (q == inject_Z floor)%Q →
            py_int_round (calculate_default_gamma T p kf m) = Some r →
            floor ≤ r).
  { intros T p kf m floor q r Hm Hq Hr.
    apply (py_int_round_floor m (calculate_default_gamma T p kf m) floor q r);
      [|done..].
    apply Hfloor; [|by eapply float_value_not_nan].
    unfold py_int_round in Hr.
    destruct (float_value (calculate_default_gamma T p kf m)) eqn:Hv; [|done].
    by eapply float_value_not_nan. }
  split; [exact Heq|].
  split.
  { rewrite Heq. destruct TSG as [|e TSG]; [by left|].
    unfold claimed_default_gamma.
    destruct (py_max_either
                (float_mul (float_mul k (mean_cost_or_10 (e :: TSG)))
                           (py_max (float_of_Z 1) priority)) min_gamma)
      as [-> | ->]; [by right|by left]. }
  split; [apply Hfloor|].
  split.
  { intros v Hv. unfold py_int_round. rewrite Hv.
    split; [done|]. apply py_round_nearest. }
  split; [by intros Hv; unfold py_int_round; rewrite Hv|].
  split; [intros floor m r; apply Hround|].
  split.
  { intros self gp p kq r Hr. unfold resolve_gamma. by rewrite Hr. }
  intros gp p kq r Hr. split; [unfold resolve_gamma; by rewrite Hr|].
  eapply (Hround _ _ _ _ 200 (finite_value (float_of_Q 200))); [| |exact Hr].
  - by vm_compute.
  - by vm_compute.
Qed.

(** ** The builder *)

Lemma grows_refl (self : controller) (gp : graph_processor) (mx : Z)
    (self' : controller) :
  _all_additional_edges self' = _all_additional_edges self →
  _all_additional_nodes self' = _all_additional_nodes self →
  _M self' = _M self →
  restrictions self' = restrictions self →
  _min_gamma self' = _min_gamma self →
  grows self gp mx self' gp mx 0 [].
Proof.
  intros He Hn HM Hr Hg. unfold grows. rewrite He, Hn, app_nil_r.
  repeat split; try done; try lia.
  - set_solver.
  - exists []. rewrite app_nil_r. split; [done|]. split; [done|constructor].
Qed.

Lemma grows_trans (self1 self2 self3 : controller) (gp1 gp2 gp3 : graph_processor)
    (mx1 mx2 mx3 n1 n2 : Z) (edges1 edges2 : list edge) :
  grows self1 gp1 mx1 self2 gp2 mx2 n1 edges1 →
  grows self2 gp2 mx2 self3 gp3 mx3 n2 edges2 →
  grows self1 gp1 mx1 self3 gp3 mx3 (n1 + n2) (edges1 ++ edges2).
Proof.
  intros (Hn1 & Hmx1 & He1 & Hs1 & (new1 & Ht1 & Hi1 & Ha1) & Hte1 & HM1 & Hm1 & H1a & H1b & H1c)
         (Hn2 & Hmx2 & He2 & Hs2 & (new2 & Ht2 & Hi2 & Ha2) & Hte2 & HM2 & Hm2 & H2a & H2b & H2c).
  unfold grows. subst mx2 mx3.
  rewrite He2, He1, Hs2, Hs1, Ht2, Ht1, Hte2, HM2, H2a, H2b, H2c.
  rewrite seqZ_app by lia.
  repeat split; try done; try lia.
  - by rewrite app_assoc.
  - replace (mx1 + n1 + 1) with (mx1 + 1 + n1) by lia. set_solver.
  - exists (new1 ++ new2). rewrite fmap_app, Hi1, Hi2, app_assoc.
    replace (mx1 + n1 + 1) with (mx1 + 1 + n1) by lia.
    split; [done|]. split; [done|]. by apply Forall_app.
  - intros k Hk. rewrite Hm2, Hm1 by lia. done.
Qed.

Lemma seqZ_two (m : Z) : seqZ m 2 = [m; m + 1].
Proof.
  unfold seqZ. simpl.
  apply (f_equal2 cons); [lia|]. apply (f_equal2 cons); [lia|done].
Qed.

Lemma omega_edge_step_grows (vS_global_id vD_global_id : Z)
    (self : controller) (gp : graph_processor) (mx : Z) (edge_orig : edge) :
  zero_lower_bound edge_orig = edge_orig →
  ∃ self' gp',
    omega_edge_step vS_global_id vD_global_id (self, gp, mx) edge_orig
    = (self', gp', mx + 2)
    ∧ grows self gp mx self' gp' (mx + 2) 2
            (replacement_edges vS_global_id vD_global_id (mx + 1) (mx + 2) edge_orig)
    ∧ _omega self' = _omega self
    ∧ _virtual_node_demands self' = _virtual_node_demands self.
Proof.
  destruct edge_orig as [[[[u v] l] cap] cost]. intros Hl. simplify_eq/=.
  replace (mx + 1 + 1) with (mx + 2) by lia.
  eexists _, _. split; [done|].
  split; [|done]. unfold grows. cbn -[seqZ]. rewrite seqZ_two.
  replace (mx + 1 + 1) with (mx + 2) by lia.
  repeat split; try done; try lia.
  - set_solver.
  - eexists. split; [done|]. split; [done|]. by repeat constructor.
  - intros k Hk. rewrite !lookup_insert_ne by lia. done.
Qed.

Lemma siphon_edges_cons (vS_global_id vD_global_id base : Z) (e : edge)
    (omega : list edge) :
  siphon_edges vS_global_id vD_global_id base (e :: omega)
  = replacement_edges vS_global_id vD_global_id (base + 1) (base + 2) e
    ++ siphon_edges vS_global_id vD_global_id (base + 2) omega.
Proof.
  unfold siphon_edges. rewrite imap_cons. cbn [concat].
  replace (base + 2 * Z.of_nat 0 + 1) with (base + 1) by lia.
  replace (base + 2 * Z.of_nat 0 + 2) with (base + 2) by lia.
  f_equal. f_equal. apply imap_ext. intros i x _. simpl.
  f_equal; lia.
Qed.

Lemma siphon_edges_length (vS_global_id vD_global_id base : Z) (omega : list edge) :
  length (siphon_edges vS_global_id vD_global_id base omega) = (5 * length omega)%nat.
Proof.
  revert base. induction omega as [|e omega IH]; intros base; [done|].
  rewrite siphon_edges_cons, length_app, IH.
  destruct e as [[[[u v] l] cap] cost]. simpl. lia.
Qed.

Lemma foldl_omega_edge_step_grows (vS_global_id vD_global_id : Z)
    (omega : list edge) :
  Forall (λ e, zero_lower_bound e = e) omega →
  ∀ (self : controller) (gp : graph_processor) (mx : Z),
  ∃ self' gp',
    foldl (omega_edge_step vS_global_id vD_global_id) (self, gp, mx) omega
    = (self', gp', mx + 2 * Z.of_nat (length omega))
    ∧ grows self gp mx self' gp' (mx + 2 * Z.of_nat (length omega)) (2 * Z.of_nat (length omega))
            (siphon_edges vS_global_id vD_global_id mx omega)
    ∧ _omega self' = _omega self
    ∧ _virtual_node_demands self' = _virtual_node_demands self.
Proof.
  induction 1 as [|e omega He _ IH]; intros self gp mx.
  - exists self, gp. simpl. replace (mx + 2 * Z.of_nat 0) with mx by lia.
    split; [done|]. split; [|done]. by apply grows_refl.
  - destruct (omega_edge_step_grows vS_global_id vD_global_id self gp mx e He)
      as (self1 & gp1 & Hstep & Hg1 & Ho1 & Hd1).
    destruct (IH self1 gp1 (mx + 2)) as (self2 & gp2 & Hfold & Hg2 & Ho2 & Hd2).
    exists self2, gp2. cbn [foldl]. rewrite Hstep, Hfold.
    replace (mx + 2 + 2 * Z.of_nat (length omega)) with (mx + 2 * Z.of_nat (length (e :: omega)))
      in * by (simpl; lia).
    split; [done|]. split; [|split; [congruence|congruence]].
    rewrite siphon_edges_cons.
    replace (2 * Z.of_nat (length (e :: omega)))
      with (2 + 2 * Z.of_nat (length omega)) in * by (simpl; lia).
    eapply grows_trans; done.
Qed.

Lemma identify_restricted_edges_ext (self self' : controller)
    (gp gp' : graph_processor) (restriction_edges : list (Z * Z))
    (start_time_frame end_time_frame : Z) :
  _M self' = _M self →
  ts_edges gp' = ts_edges gp →
  identify_restricted_edges self' gp' restriction_edges start_time_frame end_time_frame
  = identify_restricted_edges self gp restriction_edges start_time_frame end_time_frame.
Proof.
  intros HM He. unfold identify_restricted_edges, _get_node_time, _get_node_coordinates.
  by rewrite HM, He.
Qed.

(** The three outcomes of one round of the loop. *)
Lemma restriction_step_cases `{Collaborators} (self : controller)
    (gp : graph_processor) (mx : Z) (restriction_item : restriction) :
  let omega := restriction_omega self gp restriction_item in
  let virtual_flow := restriction_virtual_flow self gp restriction_item in
  let gamma := restriction_gamma self gp restriction_item in
  (omega = [] ∧ restriction_step (self, gp, mx) restriction_item = (self, gp, mx))
  ∨ (omega ≠ [] ∧ virtual_flow = 0
     ∧ restriction_step (self, gp, mx) restriction_item
       = (set_omega self (_omega self ++ omega), gp, mx))
  ∨ (omega ≠ [] ∧ 0 < virtual_flow
     ∧ ∃ self' gp',
         restriction_step (self, gp, mx) restriction_item
         = (self', gp', mx + 2 + 2 * Z.of_nat (length omega))
         ∧ grows self gp mx self' gp' (mx + 2 + 2 * Z.of_nat (length omega))
                 (2 + 2 * Z.of_nat (length omega))
                 (siphon_edges (mx + 1) (mx + 2) (mx + 2) omega
                  ++ [(mx + 1, mx + 2, 0, virtual_flow, Some gamma)])
         ∧ _omega self' = _omega self ++ omega
         ∧ _virtual_node_demands self'
           = <[mx + 2 := - virtual_flow]>
               (<[mx + 1 := virtual_flow]> (_virtual_node_demands self))).
Proof.
  destruct restriction_item as [[[[[redges [start_tf end_tf]] U] priority] gamma_config] k_val].
  intros omega virtual_flow gamma.
  unfold restriction_step.
  fold (restriction_omega self gp (redges, (start_tf, end_tf), U, priority, gamma_config, k_val)).
  fold omega.
  destruct omega as [|e0 omega0] eqn:Homega; [by left|right].
  assert (restriction_virtual_flow self gp
            (redges, (start_tf, end_tf), U, priority, gamma_config, k_val)
          = virtual_flow) as Hvf by done.
  unfold restriction_virtual_flow in Hvf. fold omega in Hvf. rewrite Homega in Hvf.
  cbn [ts_edges set_omega] in *. rewrite Hvf.
  assert (0 ≤ virtual_flow) as Hnonneg.
  { rewrite <- Hvf. unfold calculate_virtual_flow. lia. }
  destruct (Z.leb_spec virtual_flow 0) as [Hle|Hlt].
  { left. split; [done|]. split; [lia|done]. }
  right. split; [done|]. split; [done|].
  assert (Forall (λ e, zero_lower_bound e = e) (e0 :: omega0)) as Hzero.
  { rewrite <- Homega. apply Forall_forall. intros e He.
    eapply identify_restricted_edges_lower_bound. exact He. }
  replace (mx + 1 + 1) with (mx + 2) by lia.
  match goal with
  | |- context [foldl (omega_edge_step ?a ?b) (?s, ?g, ?m) ?o] =>
      destruct (foldl_omega_edge_step_grows a b o Hzero s g m)
        as (self2 & gp2 & Hfold & Hg & Ho & Hd);
      assert (grows self gp mx s g m 2 []) as Hglobal
  end.
  { unfold grows. cbn -[seqZ]. rewrite seqZ_two.
    replace (mx + 1 + 1) with (mx + 2) by lia.
    repeat split; try done; try lia.
    - by rewrite app_nil_r.
    - set_solver.
    - eexists. split; [done|]. split; [done|]. by repeat constructor.
    - intros j Hj. rewrite !lookup_insert_ne by lia. done. }
  rewrite Hfold.
  eexists _, _. split; [done|].
  pose proof (grows_trans _ _ _ _ _ _ _ _ _ _ _ _ _ Hglobal Hg) as Hboth.
  rewrite app_nil_l in Hboth.
  split; [|split].
  - replace (2 + 2 * Z.of_nat (length (e0 :: omega0)))
      with (2 + 2 * Z.of_nat (length (e0 :: omega0)) + 0) by lia.
    eapply grows_trans; [exact Hboth|].
    destruct Hg as (_ & _ & _ & _ & _ & _ & _ & _ & HM2 & Hr2 & Hg2).
    unfold grows. cbn -[seqZ].
    repeat split; try done; try lia.
    + set_solver.
    + exists []. rewrite app_nil_r. split; [done|]. split; [done|constructor].
  - simpl. by rewrite Ho.
  - simpl. by rewrite Hd.
Qed.





(** ** The loop over the restrictions *)

Lemma total_demand_insert (demands : gmap Z Z) (k v : Z) :
  demands !! k = None →
  total_demand (<[k := v]> demands) = v + total_demand demands.
Proof.
  intros Hk. unfold total_demand.
  rewrite map_fold_insert_L; [done| |done].
  intros. lia.
Qed.

Lemma ledger_grows_refl (self self' : controller) (mx : Z) (added_omega : list edge) :
  _omega self' = _omega self ++ added_omega →
  _virtual_node_demands self' = _virtual_node_demands self →
  ledger_grows self mx self' mx [] added_omega.
Proof.
  intros Ho Hd. unfold ledger_grows. rewrite Ho, Hd. split; [done|].
  split; [by apply Forall_nil|]. done.
Qed.

Lemma ledger_grows_trans (self1 self2 self3 : controller) (mx1 mx2 mx3 : Z)
    (edges1 edges2 omega1 omega2 : list edge) :
  mx1 ≤ mx2 →
  ledger_grows self1 mx1 self2 mx2 edges1 omega1 →
  ledger_grows self2 mx2 self3 mx3 edges2 omega2 →
  ledger_grows self1 mx1 self3 mx3 (edges1 ++ edges2) (omega1 ++ omega2).
Proof.
  intros Hle (Ho1 & Hf1 & Hd1) (Ho2 & Hf2 & Hd2). unfold ledger_grows.
  split; [by rewrite Ho2, Ho1, app_assoc|]. split.
  - apply Forall_app. split; [done|].
    eapply Forall_impl; [exact Hf2|]. intros e He. simpl in He. lia.
  - intros Hkeys. destruct (Hd1 Hkeys) as (Ht1 & Hk1 & He1).
    destruct (Hd2 Hk1) as (Ht2 & Hk2 & He2).
    split; [congruence|]. split; [done|].
    intros [-> ->]%app_eq_nil. rewrite He2, He1; done.
Qed.

Lemma siphon_edges_fresh (vS_global_id vD_global_id mx : Z) (omega : list edge) :
  ∀ base, mx ≤ base →
    Forall (λ e : edge, mx < (endpoints e).1 ∨ mx < (endpoints e).2)
           (siphon_edges vS_global_id vD_global_id base omega).
Proof.
  induction omega as [|e omega IH]; intros base Hbase.
  - constructor.
  - rewrite siphon_edges_cons. apply Forall_app. split; [|apply IH; lia].
    destruct e as [[[[u v] l] cap] cost]. simpl.
    repeat (constructor; [simpl; lia|]). constructor.
Qed.

(** One round of the loop, whatever its outcome. *)
Lemma restriction_step_grows `{Collaborators} (self : controller)
    (gp : graph_processor) (mx : Z) (restriction_item : restriction) :
  ∃ self' gp' mx' n new_edges,
    restriction_step (self, gp, mx) restriction_item = (self', gp', mx')
    ∧ grows self gp mx self' gp' mx' n new_edges
    ∧ ledger_grows self mx self' mx' new_edges
                   (restriction_omega self gp restriction_item).
Proof.
  destruct (restriction_step_cases self gp mx restriction_item)
    as [[Hnil Hstep]|[(Hne & Hzero & Hstep)|(Hne & Hpos & self' & gp' & Hstep & Hg & Ho & Hd)]].
  - exists self, gp, mx, 0, []. rewrite Hnil. split; [done|]. split.
    + by apply grows_refl.
    + apply ledger_grows_refl; [by rewrite app_nil_r|done].
  - eexists _, gp, mx, 0, []. split; [exact Hstep|]. split.
    + by apply grows_refl.
    + by apply ledger_grows_refl.
  - eexists self', gp', _, _, _. split; [exact Hstep|]. split; [exact Hg|].
    unfold ledger_grows. split; [exact Ho|]. split.
    + apply Forall_app. split; [apply siphon_edges_fresh; lia|].
      constructor; [simpl; lia|constructor].
    + intros Hkeys. rewrite Hd.
      assert (_virtual_node_demands self !! (mx + 1) = None) as Hfresh1.
      { apply eq_None_not_Some. intros Hs. apply Hkeys in Hs. lia. }
      assert (_virtual_node_demands self !! (mx + 2) = None) as Hfresh2.
      { apply eq_None_not_Some. intros Hs. apply Hkeys in Hs. lia. }
      split; [|split].
      * rewrite total_demand_insert by (rewrite lookup_insert_ne by lia; done).
        rewrite total_demand_insert by done. lia.
      * intros k Hk. destruct (decide (k = mx + 2)) as [->|Hne2]; [lia|].
        rewrite lookup_insert_ne in Hk by done.
        destruct (decide (k = mx + 1)) as [->|Hne1]; [lia|].
        rewrite lookup_insert_ne in Hk by done. apply Hkeys in Hk. lia.
      * intros Hemp. by apply app_eq_nil in Hemp as [_ ?].
Qed.

Lemma restriction_omega_ext (self self' : controller) (gp gp' : graph_processor)
    (restriction_item : restriction) :
  _M self' = _M self →
  ts_edges gp' = ts_edges gp →
  restriction_omega self' gp' restriction_item
  = restriction_omega self gp restriction_item.
Proof.
  intros HM He.
  destruct restriction_item as [[[[[redges [start_tf end_tf]] U] priority] gc] k_val].
  by apply identify_restricted_edges_ext.
Qed.

(** The whole loop. *)
Lemma foldl_restriction_step_grows `{Collaborators} (batch : list restriction) :
  ∀ (self : controller) (gp : graph_processor) (mx : Z),
  ∃ self' gp' mx' n new_edges,
    foldl restriction_step (self, gp, mx) batch = (self', gp', mx')
    ∧ grows self gp mx self' gp' mx' n new_edges
    ∧ ledger_grows self mx self' mx' new_edges
                   (concat (restriction_omega self gp <$> batch)).
Proof.
  induction batch as [|r batch IH]; intros self gp mx.
  - exists self, gp, mx, 0, []. split; [done|]. split.
    + by apply grows_refl.
    + apply ledger_grows_refl; [by rewrite app_nil_r|done].
  - destruct (restriction_step_grows self gp mx r)
      as (self1 & gp1 & mx1 & n1 & edges1 & Hstep & Hg1 & Hl1).
    destruct (IH self1 gp1 mx1)
      as (self2 & gp2 & mx2 & n2 & edges2 & Hfold & Hg2 & Hl2).
    exists self2, gp2, mx2, (n1 + n2), (edges1 ++ edges2).
    cbn [foldl]. rewrite Hstep, Hfold. split; [done|].
    split; [by eapply grows_trans|].
    rewrite fmap_cons. cbn [concat].
    assert (restriction_omega self1 gp1 <$> batch = restriction_omega self gp <$> batch)
      as Hext.
    { apply list_fmap_ext. intros i r' _.
      destruct Hg1 as (_ & _ & _ & _ & _ & Hte & _ & _ & HM & _).
      by apply restriction_omega_ext. }
    rewrite Hext in Hl2.
    eapply ledger_grows_trans; [|exact Hl1|exact Hl2].
    destruct Hg1 as (? & ? & _). lia.
Qed.

(** ** The apply cycle *)

Lemma remove_artificial_artifact_ledger (self : controller) (gp : graph_processor) :
  let self' := (remove_artificial_artifact self gp).1 in
  _all_additional_nodes self' = ∅
  ∧ _all_additional_edges self' = []
  ∧ _omega self' = []
  ∧ _virtual_node_demands self' = ∅
  ∧ restrictions self' = restrictions self
  ∧ _M self' = _M self
  ∧ _min_gamma self' = _min_gamma self.
Proof. done. Qed.

Lemma reset_artifacts_ledger (self : controller) (gp : graph_processor) :
  let self' := (reset_artifacts self gp).1 in
  _all_additional_nodes self' = ∅
  ∧ _all_additional_edges self' = []
  ∧ restrictions self' = restrictions self
  ∧ _M self' = _M self
  ∧ _min_gamma self' = _min_gamma self
  ∧ (_virtual_node_demands self' = ∅
     ∨ _virtual_node_demands self' = _virtual_node_demands self
       ∧ _all_additional_edges self = []).
Proof.
  unfold reset_artifacts.
  destruct (bool_decide (_all_additional_nodes self ≠ ∅)) eqn:Hn;
    [simpl; repeat split; by left|].
  destruct (bool_decide (_all_additional_edges self ≠ [])) eqn:He;
    [simpl; repeat split; by left|].
  apply bool_decide_eq_false in Hn, He.
  apply dec_stable in Hn, He. simpl. repeat split; try done. by right.
Qed.

Lemma apply_batch_grows `{Collaborators} (self : controller) (gp : graph_processor) :
  let self1 := (reset_artifacts self gp).1 in
  let gp1 := (reset_artifacts self gp).2 in
  ∃ self2 gp2 mx2 n new_edges,
    apply_batch self gp = (self2, commit self2 gp2)
    ∧ grows self1 gp1 (get_max_id gp1) self2 gp2 mx2 n new_edges
    ∧ ledger_grows self1 (get_max_id gp1) self2 mx2 new_edges
                   (concat (restriction_omega self1 gp1 <$> restrictions self1)).
Proof.
  intros self1 gp1. unfold apply_batch.
  destruct (reset_artifacts self gp) as [s1 g1] eqn:Hreset. subst self1 gp1. simpl.
  destruct (foldl_restriction_step_grows (restrictions s1) s1 g1 (get_max_id g1))
    as (self2 & gp2 & mx2 & n & new_edges & Hfold & Hg & Hl).
  rewrite Hfold. by exists self2, gp2, mx2, n, new_edges.
Qed.

Lemma commit_frame (self : controller) (gp : graph_processor) :
  ts_nodes (commit self gp) = ts_nodes gp
  ∧ map_nodes (commit self gp) = map_nodes gp
  ∧ M (commit self gp) = M gp.
Proof. unfold commit. by case_bool_decide. Qed.

(** C6. In an apply cycle over a batch (one with a valid restriction),
    the recorded node ids are exactly those handed out by one counter,
    seeded once with [get_max_id()] of the graph as the batch starts
    (after the reset) and incremented before each allocation: they are
    the consecutive values after the seed, so pairwise distinct, and each
    is greater than the seed, hence greater than every node id of the
    graph before the batch, [get_max_id()] being the largest of those. *)
Theorem C6_fresh_node_ids `{Collaborators} (self : controller)
    (gp : graph_processor) (restrictions_data_cache : list restriction) :
  let self0 := set_restrictions self restrictions_data_cache in
  let gp1 := (reset_artifacts self0 gp).2 in
  let seed := get_max_id gp1 in
  let self' := (apply_restriction self gp restrictions_data_cache).1 in
  let gp' := (apply_restriction self gp restrictions_data_cache).2 in
  restrictions self0 ≠ [] →
  (∀ n : node, n ∈ ts_nodes gp1 → id n ≤ seed) →
  ∃ (count : Z) (new_nodes : list node),
    0 ≤ count
    ∧ ts_nodes gp' = ts_nodes gp1 ++ new_nodes
    ∧ id <$> new_nodes = seqZ (seed + 1) count
    ∧ _all_additional_nodes self' = list_to_set (id <$> new_nodes)
    ∧ NoDup (id <$> new_nodes)
    ∧ size (_all_additional_nodes self') = length new_nodes
    ∧ (∀ k : Z, k ∈ _all_additional_nodes self' →
         seed < k ∧ ∀ n : node, n ∈ ts_nodes gp1 → id n < k).
Proof.
  intros self0 gp1 seed self' gp' Hvalid Hmax.
  unfold self', gp', apply_restriction. fold self0.
  rewrite bool_decide_eq_false_2 by done.
  destruct (apply_batch_grows self0 gp)
    as (self2 & gp2 & mx2 & n & new_edges & Happly & Hg & _).
  destruct (reset_artifacts_ledger self0 gp) as (Hnodes & _).
  destruct Hg as (Hn & _ & _ & Hset & (new_nodes & Hts & Hids & _) & _).
  rewrite Happly. simpl.
  destruct (commit_frame self2 gp2) as (-> & _ & _).
  fold gp1 seed in Hts, Hids, Hset. rewrite Hnodes in Hset.
  assert (_all_additional_nodes self2 = list_to_set (id <$> new_nodes)) as Hrec.
  { rewrite Hset, Hids. set_solver. }
  exists n, new_nodes.
  split; [done|]. split; [done|]. split; [done|]. split; [done|].
  split; [rewrite Hids; apply NoDup_seqZ|].
  split.
  - rewrite Hrec, size_list_to_set, length_fmap; [done|].
    rewrite Hids. apply NoDup_seqZ.
  - intros k Hk. rewrite Hrec, Hids, elem_of_list_to_set, elem_of_seqZ in Hk.
    split; [lia|]. intros nd Hnd. apply Hmax in Hnd. lia.
Qed.

Lemma C6_fresh_node_ids_witness :
  ∃ (count : Z) (new_nodes : list node),
    0 ≤ count
    ∧ ts_nodes (apply_restriction (init test_graph) test_graph
                  [corridor_restriction; waiting_restriction]).2
      = ts_nodes test_graph ++ new_nodes
    ∧ id <$> new_nodes = seqZ 10 count
    ∧ _all_additional_nodes
        (apply_restriction (init test_graph) test_graph
           [corridor_restriction; waiting_restriction]).1
      = list_to_set (id <$> new_nodes)
    ∧ NoDup (id <$> new_nodes)
    ∧ size (_all_additional_nodes
              (apply_restriction (init test_graph) test_graph
                 [corridor_restriction; waiting_restriction]).1)
      = length new_nodes
    ∧ (∀ k : Z,
         k ∈ _all_additional_nodes
               (apply_restriction (init test_graph) test_graph
                  [corridor_restriction; waiting_restriction]).1 →
         9 < k ∧ ∀ n : node, n ∈ ts_nodes test_graph → id n < k).
Proof.
  refine (C6_fresh_node_ids (init test_graph) test_graph
            [corridor_restriction; waiting_restriction] _ _).
  - vm_compute. discriminate.
  - intros n. change (n ∈ base_node <$> [1; 2; 3; 4; 5; 6; 7; 8; 9] → id n ≤ 9).
    intros (i & -> & Hi)%list_elem_of_fmap. simpl. set_unfold. lia.
Defined.

(** ** Virtual node demands *)




(** ** Cleanup *)

Lemma filter_all {A : Type} (P : A → Prop) `{∀ x, Decision (P x)} (l : list A) :
  Forall P l → filter P l = l.
Proof.
  induction 1 as [|x l Hx _ IH]; [done|].
  by rewrite filter_cons_True, IH.
Qed.

Lemma filter_none {A : Type} (P : A → Prop) `{∀ x, Decision (P x)} (l : list A) :
  Forall (λ x, ¬ P x) l → filter P l = [].
Proof.
  induction 1 as [|x l Hx _ IH]; [done|].
  by rewrite filter_cons_False, IH.
Qed.

Lemma lookup_set_fold_delete (m : gmap Z node) (X : gset Z) (k : Z) :
  set_fold (λ (node_id : Z) (m : gmap Z node), delete node_id m) m X !! k
  = if decide (k ∈ X) then None else m !! k.
Proof.
  revert X k.
  apply (set_fold_ind_L
           (λ (r : gmap Z node) (X : gset Z),
              ∀ k, r !! k = if decide (k ∈ X) then None else m !! k)).
  - intros k. by rewrite decide_False by set_solver.
  - intros x Y r Hx IH k. destruct (decide (k = x)) as [->|Hne].
    + rewrite lookup_delete_eq. by rewrite decide_True by set_solver.
    + rewrite lookup_delete_ne, IH by done.
      destruct (decide (k ∈ Y)).
      * by rewrite decide_True by set_solver.
      * by rewrite decide_False by set_solver.
Qed.

Lemma existsb_own_endpoints (edges : list edge) :
  edges ≠ [] →
  existsb (λ e : edge,
             bool_decide (endpoints e ∈ (list_to_set (endpoints <$> edges) : gset (Z * Z))))
          edges = true.
Proof.
  destruct edges as [|a edges]; [done|]. intros _. simpl.
  rewrite bool_decide_eq_true_2 by set_solver. done.
Qed.

(** What [remove_artificial_artifact] leaves of the graph
    (section 4.8): the nodes whose id is not in [additional_nodes]; the
    edges whose endpoint pair is not that of an additional edge, and, when
    there were additional edges, the edges of omega. *)
Lemma remove_artificial_artifact_graph (self : controller) (gp : graph_processor) :
  let gp' := (remove_artificial_artifact self gp).2 in
  ts_nodes gp' = filter (λ n : node, id n ∉ _all_additional_nodes self) (ts_nodes gp)
  ∧ (∀ k, map_nodes gp' !! k
          = if decide (k ∈ _all_additional_nodes self) then None else map_nodes gp !! k)
  ∧ M gp' = M gp
  ∧ (∀ e : edge,
       e ∈ ts_edges gp'
       ↔ (e ∈ ts_edges gp ∧ endpoints e ∉ endpoints <$> _all_additional_edges self)
         ∨ (_all_additional_edges self ≠ [] ∧ e ∈ _omega self)).
Proof.
  unfold remove_artificial_artifact. cbn zeta.
  set (gp1 := if bool_decide (_all_additional_nodes self ≠ ∅) then _ else gp).
  assert (ts_nodes gp1 = filter (λ n : node, id n ∉ _all_additional_nodes self) (ts_nodes gp)
          ∧ (∀ k, map_nodes gp1 !! k
                  = if decide (k ∈ _all_additional_nodes self) then None
                    else map_nodes gp !! k)
          ∧ M gp1 = M gp ∧ ts_edges gp1 = ts_edges gp) as (Hn1 & Hm1 & HM1 & He1).
  { subst gp1. case_bool_decide as Hne; simpl.
    - split; [done|]. split; [|done]. intros k. apply lookup_set_fold_delete.
    - rewrite Hne.
      split; [symmetry; apply filter_all, Forall_forall; set_solver|].
      split; [|done]. intros k. by rewrite decide_False by set_solver. }
  clearbody gp1.
  set (gp2 := if bool_decide (_all_additional_edges self ≠ []) then _ else gp1).
  assert (ts_nodes gp2 = ts_nodes gp1 ∧ map_nodes gp2 = map_nodes gp1 ∧ M gp2 = M gp1
          ∧ (∀ e, e ∈ ts_edges gp2
                  ↔ e ∈ ts_edges gp1
                    ∧ endpoints e ∉ endpoints <$> _all_additional_edges self))
    as (Hn2 & Hm2 & HM2 & He2).
  { subst gp2. case_bool_decide as Hne; simpl.
    - split; [done|]. split; [done|]. split; [done|]. intros e.
      rewrite list_elem_of_filter, elem_of_list_to_set. naive_solver.
    - rewrite Hne. split; [done|]. split; [done|]. split; [done|]. intros e.
      split; [intros He; split; [done|apply not_elem_of_nil]|by intros [? _]]. }
  clearbody gp2.
  match goal with
  | |- context [bool_decide (?S ≠ ∅)] =>
      assert (∀ e, e ∈ S ↔ _all_additional_edges self ≠ [] ∧ e ∈ _omega self) as Hre
  end.
  { intros e. rewrite elem_of_list_to_set, list_elem_of_filter.
    destruct (decide (_all_additional_edges self = [])) as [Hnil|Hne].
    - rewrite Hnil. simpl. naive_solver.
    - rewrite existsb_own_endpoints by done. naive_solver. }
  match goal with
  | |- context [bool_decide (?S ≠ ∅)] => generalize dependent S
  end.
  intros S Hre.
  case_bool_decide as HS; simpl; rewrite ?Hn2, ?Hn1, ?HM2, ?HM1.
  - split; [done|]. split; [intros k; by rewrite Hm2, Hm1|]. split; [done|].
    intros e. rewrite elem_of_app, elem_of_elements, Hre, He2, He1.
    naive_solver.
  - split; [done|]. split; [intros k; by rewrite Hm2, Hm1|]. split; [done|].
    intros e. rewrite He2, He1. split; [naive_solver|].
    intros [?|He]; [done|]. apply Hre in He. set_solver.
Qed.

(** Cleanup on an empty ledger changes nothing. *)
Lemma remove_artificial_artifact_empty (self : controller) (gp : graph_processor) :
  ledger_empty self →
  remove_artificial_artifact self gp = (self, gp).
Proof.
  intros (Hn & He & Ho & Hd). destruct self. simpl in *. subst.
  unfold remove_artificial_artifact. simpl.
  rewrite !bool_decide_eq_false_2 by (intros Hne; by apply Hne).
  done.
Qed.

Lemma commit_edges (self : controller) (gp : graph_processor) (e : edge) :
  e ∈ ts_edges (commit self gp)
  ↔ if decide (_all_additional_edges self = []) then e ∈ ts_edges gp
    else (e ∈ ts_edges gp ∧ endpoints e ∉ endpoints <$> _omega self)
         ∨ e ∈ _all_additional_edges self.
Proof.
  unfold commit. case_bool_decide as Hne.
  - rewrite decide_False by done. simpl.
    rewrite elem_of_app, list_elem_of_filter. set_solver.
  - by rewrite decide_True.
Qed.

Lemma elem_of_concat {A : Type} (x : A) (ls : list (list A)) :
  x ∈ concat ls ↔ ∃ l, x ∈ l ∧ l ∈ ls.
Proof.
  induction ls as [|l ls IH]; simpl.
  - split; [by intros ?%not_elem_of_nil|]. by intros (l & _ & ?%not_elem_of_nil).
  - rewrite elem_of_app, IH. split.
    + intros [Hx|(l' & Hx & Hl')]; [exists l|exists l']; set_solver.
    + intros (l' & Hx & [->|Hl']%elem_of_cons); [by left|right; by exists l'].
Qed.

Lemma restriction_omega_filter (self : controller) (gp : graph_processor)
    (restriction_item : restriction) :
  restriction_omega self gp restriction_item
  = zero_lower_bound <$>
      filter (λ e, restriction_matches self restriction_item e = true) (ts_edges gp).
Proof.
  destruct restriction_item as [[[[[redges [start_tf end_tf]] U] priority] gc] k_val].
  apply identify_restricted_edges_filter.
Qed.

Lemma restriction_matches_endpoints (self : controller) (restriction_item : restriction)
    (e1 e2 : edge) :
  endpoints e1 = endpoints e2 →
  restriction_matches self restriction_item e1
  = restriction_matches self restriction_item e2.
Proof.
  destruct restriction_item as [[[[[redges [start_tf end_tf]] U] priority] gc] k_val].
  destruct e1 as [[[[s1 d1] l1] c1] k1], e2 as [[[[s2 d2] l2] c2] k2].
  intros [= -> ->]. done.
Qed.

Lemma endpoints_zero_lower_bound (e : edge) :
  endpoints (zero_lower_bound e) = endpoints e.
Proof. by destruct e as [[[[s d] l] c] k]. Qed.

(** X18. From an empty ledger (no recorded node, edge, omega or demand,
    as after [__init__] or a cleanup) and on a well-formed graph,
    cleanup after apply gives back the nodes (the list, and the node
    map) and, as a set, the edges that the graph had before the apply,
    and leaves the ledger empty; and a cleanup on an empty ledger, in
    particular a second cleanup, changes neither the controller nor the
    graph. *)
Theorem cleanup_restores_graph `{Collaborators} (self : controller)
    (gp : graph_processor) (restrictions_data_cache : list restriction) :
  let applied := apply_restriction self gp restrictions_data_cache in
  let cleaned := remove_artificial_artifact applied.1 applied.2 in
  let again := remove_artificial_artifact cleaned.1 cleaned.2 in
  ledger_empty self →
  graph_well_formed gp →
  ts_nodes cleaned.2 = ts_nodes gp
  ∧ map_nodes cleaned.2 = map_nodes gp
  ∧ (∀ e : edge, e ∈ ts_edges cleaned.2 ↔ e ∈ ts_edges gp)
  ∧ M cleaned.2 = M gp
  ∧ ledger_empty cleaned.1
  ∧ again = cleaned
  ∧ (∀ (self0 : controller) (gp0 : graph_processor),
       ledger_empty self0 → remove_artificial_artifact self0 gp0 = (self0, gp0)).
Proof.
  intros applied cleaned again (Hn0 & He0 & Ho0 & Hd0) (Hwf_nodes & Hwf_map & Hwf_edges).
  assert (ledger_empty cleaned.1) as Hcleared by done.
  assert (again = cleaned) as Hagain.
  { unfold again. rewrite remove_artificial_artifact_empty by done. by destruct cleaned. }
  cut (ts_nodes cleaned.2 = ts_nodes gp
       ∧ map_nodes cleaned.2 = map_nodes gp
       ∧ (∀ e : edge, e ∈ ts_edges cleaned.2 ↔ e ∈ ts_edges gp)
       ∧ M cleaned.2 = M gp).
  { intros (? & ? & ? & ?). repeat (split; [done|]).
    intros. by apply remove_artificial_artifact_empty. }
  clear Hcleared Hagain again.
  set (self0 := set_restrictions self restrictions_data_cache).
  subst cleaned applied. unfold apply_restriction. fold self0.
  case_bool_decide as Hvalid.
  { rewrite remove_artificial_artifact_empty by done. done. }
  destruct (apply_batch_grows self0 gp)
    as (self2 & gp2 & mx2 & n & new_edges & -> & Hg & Hl).
  assert (reset_artifacts self0 gp = (self0, gp)) as Hreset.
  { unfold reset_artifacts. simpl. rewrite Hn0, He0.
    rewrite !bool_decide_eq_false_2 by (intros Hne; by apply Hne). done. }
  rewrite Hreset in Hg, Hl. simpl in Hg, Hl.
  set (seed := get_max_id gp) in *.
  destruct Hg as (Hn & Hmx & Hedges & Hnodes & (new_nodes & Hts & Hids & _) & Hte & HM & Hmap & HMs & _).
  destruct Hl as (Homega & Hfresh & _).
  simpl in Hedges, Hnodes, Homega. rewrite He0 in Hedges. rewrite Hn0 in Hnodes.
  rewrite Ho0 in Homega. simpl in Hedges, Homega.
  destruct (remove_artificial_artifact_graph self2 (commit self2 gp2))
    as (Hcn & Hcm & HcM & Hce).
  destruct (commit_frame self2 gp2) as (Hkn & Hkm & HkM).
  assert (∀ k, k ∈ _all_additional_nodes self2 ↔ seed < k ≤ seed + n) as Hrec.
  { intros k. rewrite Hnodes, elem_of_union, elem_of_list_to_set, elem_of_seqZ.
    split; [intros [?|?%not_elem_of_empty]; [lia|done]|intros ?; left; lia]. }
  cbn [fst snd]. split; [|split; [|split]].
  - rewrite Hcn, Hkn, Hts, filter_app.
    rewrite filter_all, filter_none, app_nil_r; [done| |].
    + apply Forall_forall. intros nd Hnd Hnot. apply Hnot, Hrec.
      apply (list_elem_of_fmap_2 id) in Hnd. rewrite Hids in Hnd.
      apply elem_of_seqZ in Hnd. lia.
    + apply Forall_forall. intros nd Hnd Hin%Hrec.
      apply Hwf_nodes in Hnd. fold seed in Hnd. lia.
  - apply map_eq. intros k. rewrite Hcm, Hkm.
    case_decide as Hk.
    + apply Hrec in Hk.
      symmetry. apply eq_None_not_Some. intros Hs. apply Hwf_map in Hs.
      fold seed in Hs. lia.
    + rewrite Hrec in Hk. apply Hmap. lia.
  - intros e. rewrite Hce. rewrite (commit_edges self2 gp2 e).
    rewrite Hedges, Homega, Hte.
    assert (∀ o, o ∈ concat (restriction_omega self0 gp <$> restrictions self0) →
                 o ∈ ts_edges gp) as Hsound.
    { intros o (l & Ho & Hl)%elem_of_concat.
      apply list_elem_of_fmap in Hl as (r & -> & Hr).
      rewrite restriction_omega_filter in Ho.
      apply list_elem_of_fmap in Ho as (e' & -> & He').
      apply list_elem_of_filter in He' as [_ He'].
      by rewrite (proj2 (proj2 (Hwf_edges e' He'))). }
    assert (∀ e', e' ∈ ts_edges gp →
              endpoints e' ∈ endpoints <$> concat (restriction_omega self0 gp <$> restrictions self0) →
              e' ∈ concat (restriction_omega self0 gp <$> restrictions self0))
      as Hcomplete.
    { intros e' He' (o & Hpair & Ho)%list_elem_of_fmap.
      apply elem_of_concat in Ho as (l & Ho & Hl).
      apply list_elem_of_fmap in Hl as (r & -> & Hr).
      apply elem_of_concat. exists (restriction_omega self0 gp r).
      split; [|by apply list_elem_of_fmap_2].
      rewrite restriction_omega_filter in *.
      apply list_elem_of_fmap in Ho as (e'' & -> & He'').
      apply list_elem_of_filter in He'' as [Hmatch He''].
      rewrite endpoints_zero_lower_bound in Hpair.
      apply list_elem_of_fmap. exists e'.
      split; [by rewrite (proj2 (proj2 (Hwf_edges e' He')))|].
      apply list_elem_of_filter. split; [|done].
      by rewrite (restriction_matches_endpoints self0 r e' e''). }
    assert (∀ e', e' ∈ ts_edges gp → endpoints e' ∉ endpoints <$> new_edges) as Hold.
    { intros e' He' (a & Hpair & Ha)%list_elem_of_fmap.
      apply (proj1 (Forall_forall _ _) Hfresh) in Ha.
      destruct (Hwf_edges e' He') as (H1 & H2 & _). rewrite Hpair in H1, H2.
      fold seed in H1, H2. lia. }
    case_decide as Hnil.
    + rewrite Hnil. simpl. split; [by intros [[? _]|[? _]]|].
      intros He. left. split; [done|]. apply not_elem_of_nil.
    + split.
      * intros [[[[He _]|Ha] Hp]|[_ Ho]]; [done| |by apply Hsound].
        exfalso. apply Hp. by apply list_elem_of_fmap_2.
      * intros He.
        destruct (decide (endpoints e ∈ endpoints <$>
                            concat (restriction_omega self0 gp <$> restrictions self0)))
          as [Hin|Hout].
        -- right. split; [done|]. by apply Hcomplete.
        -- left. split; [by left|]. by apply Hold.
  - by rewrite HcM, HkM.
Qed.

Lemma test_graph_well_formed : graph_well_formed test_graph.
Proof.
  unfold graph_well_formed. change (get_max_id test_graph) with 9.
  split; [|split].
  - intros n (i & -> & Hi)%list_elem_of_fmap. simpl. set_unfold. lia.
  - intros k Hk%elem_of_dom. unfold test_graph in Hk. cbn [map_nodes] in Hk.
    rewrite dom_list_to_map_L in Hk. simpl in Hk. set_unfold. lia.
  - intros e He. change (ts_edges test_graph) with test_ts_edges in He.
    unfold test_ts_edges in He.
    repeat (apply elem_of_cons in He as [->|He]; [simpl; by repeat split|]).
    by apply not_elem_of_nil in He.
Qed.

Lemma cleanup_restores_graph_witness :
  let applied :=
    apply_restriction (init test_graph) test_graph
                      [corridor_restriction; waiting_restriction] in
  let cleaned := remove_artificial_artifact applied.1 applied.2 in
  ts_nodes cleaned.2 = ts_nodes test_graph
  ∧ map_nodes cleaned.2 = map_nodes test_graph
  ∧ (∀ e : edge, e ∈ ts_edges cleaned.2 ↔ e ∈ ts_edges test_graph)
  ∧ remove_artificial_artifact cleaned.1 cleaned.2 = cleaned.
Proof.
  assert (ledger_empty (init test_graph)) as Hempty by done.
  destruct (cleanup_restores_graph (init test_graph) test_graph
              [corridor_restriction; waiting_restriction]
              Hempty test_graph_well_formed)
    as (Hnodes & Hmap & Hedges & _ & _ & Hagain & _).
  exact (conj Hnodes (conj Hmap (conj Hedges Hagain))).
Defined.

Lemma remove_artificial_artifact_again (self : controller) (gp : graph_processor) :
  remove_artificial_artifact (remove_artificial_artifact self gp).1
                             (remove_artificial_artifact self gp).2
  = remove_artificial_artifact self gp.
Proof.
  rewrite remove_artificial_artifact_empty; [by destruct (remove_artificial_artifact self gp)|].
  destruct (remove_artificial_artifact_ledger self gp) as (? & ? & ? & ? & _).
  by repeat split.
Qed.

(** C2 fails on the code, on a controller whose [_omega] is not empty
    when the apply starts.  The apply resets the ledger only when it
    holds nodes or edges, so an omega that [set_omega] stored, or that an
    earlier apply recorded for restrictions that needed no virtual flow,
    stays in [_omega]; the cleanup then appends every edge of [_omega] to
    the edge list, whether or not the graph held it before the apply.
    First run: omega is set to the one edge (20,21), which the graph
    does not have; after the waiting restriction is applied and cleaned
    up, the nodes are back and so is every edge of the graph, but
    (20,21) has joined the edge list.  Second run: the corridor
    restriction is applied on the test graph (no virtual flow: nothing is
    built, its omega (4,5), (7,8) is recorded); the waiting restriction
    is then applied on the later graph, from which (7,8) has gone, and
    cleaned up: (7,8) is in the edge list again.  In both runs a second
    cleanup changes nothing. *)
Theorem C2_stale_omega_readded :
  let stale : edge := (20, 21, 0, 1, Some 1) in
  let self := set_omega (init test_graph) [stale] in
  let applied := apply_restriction self test_graph [waiting_restriction] in
  let cleaned := remove_artificial_artifact applied.1 applied.2 in
  let alone :=
    apply_restriction (init test_graph) test_graph [corridor_restriction] in
  let applied' := apply_restriction alone.1 later_graph [waiting_restriction] in
  let cleaned' := remove_artificial_artifact applied'.1 applied'.2 in
  (reachable self
   ∧ _all_additional_nodes self = ∅
   ∧ _all_additional_edges self = []
   ∧ _omega self = [stale])
  ∧ graph_well_formed test_graph
  ∧ (stale ∉ ts_edges test_graph)
  ∧ _omega applied.1 = [stale; (4, 7, 0, 1, Some 10)]
  ∧ ts_nodes cleaned.2 = ts_nodes test_graph
  ∧ map_nodes cleaned.2 = map_nodes test_graph
  ∧ (∀ e : edge, e ∈ ts_edges test_graph → e ∈ ts_edges cleaned.2)
  ∧ stale ∈ ts_edges cleaned.2
  ∧ ¬ (∀ e : edge, e ∈ ts_edges cleaned.2 ↔ e ∈ ts_edges test_graph)
  ∧ remove_artificial_artifact cleaned.1 cleaned.2 = cleaned
  ∧ (reachable alone.1
     ∧ alone.2 = test_graph
     ∧ _all_additional_nodes alone.1 = ∅
     ∧ _all_additional_edges alone.1 = []
     ∧ _omega alone.1 = [(4, 5, 0, 1, Some 5); (7, 8, 0, 1, Some 5)])
  ∧ graph_well_formed later_graph
  ∧ ((7, 8, 0, 1, Some 5) ∉ ts_edges later_graph)
  ∧ _omega applied'.1
    = [(4, 5, 0, 1, Some 5); (7, 8, 0, 1, Some 5); (4, 7, 0, 1, Some 10)]
  ∧ ts_nodes cleaned'.2 = ts_nodes later_graph
  ∧ (∀ e : edge, e ∈ ts_edges later_graph → e ∈ ts_edges cleaned'.2)
  ∧ (7, 8, 0, 1, Some 5) ∈ ts_edges cleaned'.2
  ∧ ¬ (∀ e : edge, e ∈ ts_edges cleaned'.2 ↔ e ∈ ts_edges later_graph)
  ∧ remove_artificial_artifact cleaned'.1 cleaned'.2 = cleaned'.
Proof.
  cbv zeta.
  set (stale := (20, 21, 0, 1, Some 1) : edge).
  set (cleaned := remove_artificial_artifact
         (apply_restriction (set_omega (init test_graph) [stale]) test_graph
                            [waiting_restriction]).1
         (apply_restriction (set_omega (init test_graph) [stale]) test_graph
                            [waiting_restriction]).2).
  set (alone := apply_restriction (init test_graph) test_graph [corridor_restriction]).
  set (cleaned' := remove_artificial_artifact
         (apply_restriction alone.1 later_graph [waiting_restriction]).1
         (apply_restriction alone.1 later_graph [waiting_restriction]).2).
  assert (Hin : stale ∈ ts_edges cleaned.2) by compute_done.
  assert (Hout : stale ∉ ts_edges test_graph) by compute_done.
  assert (Hin' : (7, 8, 0, 1, Some 5) ∈ ts_edges cleaned'.2) by compute_done.
  assert (Hout' : (7, 8, 0, 1, Some 5) ∉ ts_edges later_graph) by compute_done.
  assert (Hlater : graph_well_formed later_graph).
  { destruct test_graph_well_formed as (Hn & Hm & _).
    split; [exact Hn|]. split; [exact Hm|].
    intros e He. change (get_max_id later_graph) with 9.
    cbn [later_graph ts_edges] in He.
    repeat (apply elem_of_cons in He as [-> | He]; [simpl; by repeat split|]).
    by apply not_elem_of_nil in He. }
  split.
  { split; [apply reachable_set_omega, reachable_init|].
    split; [vm_compute; reflexivity|]. split; vm_compute; reflexivity. }
  split; [exact test_graph_well_formed|].
  split; [exact Hout|].
  split; [vm_compute; reflexivity|].
  split; [vm_compute; reflexivity|].
  split; [vm_compute; reflexivity|].
  split.
  { intros e He. change (ts_edges test_graph) with test_ts_edges in He.
    unfold test_ts_edges in He.
    repeat (apply elem_of_cons in He as [-> | He]; [compute_done|]).
    by apply not_elem_of_nil in He. }
  split; [exact Hin|].
  split; [intros Heq; apply Hout, Heq, Hin|].
  split; [apply remove_artificial_artifact_again|].
  split.
  { split; [apply reachable_apply, reachable_init|].
    split; [vm_compute; reflexivity|].
    split; [vm_compute; reflexivity|]. split; vm_compute; reflexivity. }
  split; [exact Hlater|].
  split; [exact Hout'|].
  split; [vm_compute; reflexivity|].
  split; [vm_compute; reflexivity|].
  split.
  { intros e He. cbn [later_graph ts_edges] in He.
    repeat (apply elem_of_cons in He as [-> | He]; [compute_done|]).
    by apply not_elem_of_nil in He. }
  split; [exact Hin'|].
  split; [intros Heq; apply Hout', Heq, Hin'|].
  apply remove_artificial_artifact_again.
Qed.

(** ** Naturally satisfied restrictions *)

(** C1 fails on the code.  The batch is the corridor restriction (omega
    [(4,5)], [(7,8)]; max flow 0, so virtual flow 0) followed by the
    waiting restriction (virtual flow 1).  The first restriction
    allocates no node and records no edge, but its omega has gone into
    [_omega] before the [continue], and the commit removes its two edges
    from the live edge list: after the apply neither is left, and no
    edge replaces them.  Alone in a batch the same restriction leaves the
    edge list as it was. *)
Theorem C1_zero_flow_omega_removed :
  let self := init test_graph in
  let applied :=
    apply_restriction self test_graph [corridor_restriction; waiting_restriction] in
  let alone := apply_restriction self test_graph [corridor_restriction] in
  restriction_omega self test_graph corridor_restriction
  = [(4, 5, 0, 1, Some 5); (7, 8, 0, 1, Some 5)]
  ∧ restriction_virtual_flow self test_graph corridor_restriction = 0
  ∧ restriction_virtual_flow self test_graph waiting_restriction = 1
  ∧ (4, 5, 0, 1, Some 5) ∈ ts_edges test_graph
  ∧ (7, 8, 0, 1, Some 5) ∈ ts_edges test_graph
  ∧ ts_edges applied.2
    = [ (1, 4, 0, 1, Some 10); (2, 5, 0, 1, Some 10); (5, 8, 0, 1, Some 10);
        (1, 2, 0, 1, Some 5);
        (4, 12, 0, 1, Some 10); (12, 13, 0, 1, Some 0); (13, 7, 0, 1, Some 0);
        (10, 12, 0, 1, Some 0); (13, 11, 0, 1, Some 0);
        (10, 11, 0, 1, Some 200) ]
  ∧ ((4, 5, 0, 1, Some 5) ∉ ts_edges (applied.2))
  ∧ ((7, 8, 0, 1, Some 5) ∉ ts_edges (applied.2))
  ∧ _omega applied.1
    = [(4, 5, 0, 1, Some 5); (7, 8, 0, 1, Some 5); (4, 7, 0, 1, Some 10)]
  ∧ ts_edges alone.2 = ts_edges test_graph
  ∧ _all_additional_edges alone.1 = []
  ∧ _omega alone.1 = [(4, 5, 0, 1, Some 5); (7, 8, 0, 1, Some 5)].
Proof.
  cbv zeta.
  assert (ts_edges (apply_restriction (init test_graph) test_graph
                      [corridor_restriction; waiting_restriction]).2
          = [ (1, 4, 0, 1, Some 10); (2, 5, 0, 1, Some 10); (5, 8, 0, 1, Some 10);
              (1, 2, 0, 1, Some 5);
              (4, 12, 0, 1, Some 10); (12, 13, 0, 1, Some 0); (13, 7, 0, 1, Some 0);
              (10, 12, 0, 1, Some 0); (13, 11, 0, 1, Some 0);
              (10, 11, 0, 1, Some 200) ]) as Hafter by (vm_compute; reflexivity).
  rewrite Hafter.
  split; [by vm_compute|]. split; [by vm_compute|]. split; [by vm_compute|].
  split; [compute_done|]. split; [compute_done|].
  split; [done|].
  split; [compute_done|]. split; [compute_done|].
  split; [by vm_compute|]. split; [by vm_compute|]. split; by vm_compute.
Qed.

(** What holds of C1 on the code: the round of the loop for a restriction
    with a non-empty omega and virtual flow 0 allocates no node, records
    no edge and no demand and leaves the graph alone; it only appends the
    omega of the restriction to [_omega]. *)
Theorem zero_flow_restriction_frame `{Collaborators} (self : controller)
    (gp : graph_processor) (max_node_id_val : Z) (restriction_item : restriction) :
  restriction_omega self gp restriction_item ≠ [] →
  restriction_virtual_flow self gp restriction_item = 0 →
  restriction_step (self, gp, max_node_id_val) restriction_item
  = (set_omega self (_omega self ++ restriction_omega self gp restriction_item),
     gp, max_node_id_val).
Proof.
  intros Hne Hzero.
  destruct (restriction_step_cases self gp max_node_id_val restriction_item)
    as [[Hnil _]|[(_ & _ & Hstep)|(_ & Hpos & _)]]; [done|done|lia].
Qed.

Lemma zero_flow_restriction_frame_witness :
  restriction_step (init test_graph, test_graph, 9) corridor_restriction
  = (set_omega (init test_graph)
       (_omega (init test_graph)
        ++ restriction_omega (init test_graph) test_graph corridor_restriction),
     test_graph, 9).
Proof.
  apply (zero_flow_restriction_frame (init test_graph) test_graph 9 corridor_restriction).
  - vm_compute. discriminate.
  - vm_compute. reflexivity.
Defined.

(** A restriction whose spatial edges occur nowhere in the graph has an
    empty omega, and its round of the loop changes nothing: no ledger
    entry, no node id taken from the counter. *)
Theorem no_omega_restriction_noop `{Collaborators} (self : controller)
    (gp : graph_processor) (max_node_id_val : Z)
    (restriction_edges : list (Z * Z)) (timeframe : Z * Z) (U : Z)
    (priority : Q) (gamma_config : option Q) (k_val : Q) :
  let restriction_item : restriction :=
    (restriction_edges, timeframe, U, priority, gamma_config, k_val) in
  (∀ e : edge, e ∈ ts_edges gp →
     (_get_node_coordinates self (endpoints e).1,
      _get_node_coordinates self (endpoints e).2) ∉ restriction_edges) →
  restriction_omega self gp restriction_item = []
  ∧ restriction_step (self, gp, max_node_id_val) restriction_item
    = (self, gp, max_node_id_val).
Proof.
  intros restriction_item Hnowhere.
  assert (restriction_omega self gp restriction_item = []) as Hnil.
  { destruct timeframe as [start_tf end_tf]. unfold restriction_item, restriction_omega.
    rewrite identify_restricted_edges_filter, filter_none; [done|].
    apply Forall_forall. intros [[[[s d] l] c] k] He Hin.
    apply Hnowhere in He. simpl in He, Hin.
    apply andb_true_iff in Hin as [Hin _]. apply andb_true_iff in Hin as [Hin _].
    apply bool_decide_eq_true in Hin. set_solver. }
  split; [done|].
  destruct (restriction_step_cases self gp max_node_id_val restriction_item)
    as [[_ Hstep]|[(Hne & _)|(Hne & _)]]; done.
Qed.

Lemma no_omega_restriction_noop_witness :
  restriction_omega (init test_graph) test_graph ([(9, 10)], (1, 3), 1, 1%Q, None, 2%Q) = []
  ∧ restriction_step (init test_graph, test_graph, 9)
                     ([(9, 10)], (1, 3), 1, 1%Q, None, 2%Q)
    = (init test_graph, test_graph, 9).
Proof.
  apply (no_omega_restriction_noop (init test_graph) test_graph 9
           [(9, 10)] (1, 3) 1 1%Q None 2%Q).
  intros e He. change (ts_edges test_graph) with test_ts_edges in He.
  unfold test_ts_edges in He.
  repeat (apply elem_of_cons in He as [->|He]; [compute_done|]).
  by apply not_elem_of_nil in He.
Defined.

(** The defect behind C1, in general.  From an empty ledger and on a
    well-formed graph, as soon as the batch has emitted an edge, the
    commit removes every live edge that matches a restriction of the
    batch, whatever the virtual flow of that restriction: [_omega] is
    extended before the virtual flow is looked at. *)
Theorem commit_removes_every_omega `{Collaborators} (self : controller)
    (gp : graph_processor) (restrictions_data_cache : list restriction)
    (restriction_item : restriction) (e : edge) :
  let applied := apply_restriction self gp restrictions_data_cache in
  ledger_empty self →
  graph_well_formed gp →
  restriction_item ∈ restrictions (set_restrictions self restrictions_data_cache) →
  e ∈ ts_edges gp →
  restriction_matches self restriction_item e = true →
  _all_additional_edges applied.1 ≠ [] →
  e ∉ ts_edges (applied.2).
Proof.
  intros applied (Hn0 & He0 & Ho0 & Hd0) (_ & _ & Hwf_edges) Hr He Hmatch.
  subst applied. unfold apply_restriction.
  set (self0 := set_restrictions self restrictions_data_cache) in *.
  case_bool_decide as Hvalid.
  { rewrite Hvalid in Hr. by apply not_elem_of_nil in Hr. }
  destruct (apply_batch_grows self0 gp)
    as (self2 & gp2 & mx2 & n & new_edges & -> & Hg & Hl).
  assert (reset_artifacts self0 gp = (self0, gp)) as Hreset.
  { unfold reset_artifacts. simpl. rewrite Hn0, He0.
    rewrite !bool_decide_eq_false_2 by (intros Hne; by apply Hne). done. }
  rewrite Hreset in Hg, Hl. simpl in Hg, Hl.
  destruct Hg as (_ & _ & Hedges & _ & _ & Hte & _).
  destruct Hl as (Homega & Hfresh & _).
  simpl in Hedges, Homega. rewrite He0 in Hedges. rewrite Ho0 in Homega.
  simpl in Hedges, Homega. cbn [fst snd].
  intros Hemitted Hin. apply commit_edges in Hin.
  rewrite decide_False in Hin by done.
  destruct Hin as [[_ Hout]|Hnew].
  - apply Hout. rewrite Homega.
    apply list_elem_of_fmap. exists (zero_lower_bound e).
    split; [by rewrite endpoints_zero_lower_bound|].
    apply elem_of_concat. exists (restriction_omega self0 gp restriction_item).
    split; [|by apply list_elem_of_fmap_2].
    rewrite restriction_omega_filter. apply list_elem_of_fmap_2.
    apply list_elem_of_filter. split; [|done]. exact Hmatch.
  - rewrite Hedges in Hnew.
    apply (proj1 (Forall_forall _ _) Hfresh) in Hnew.
    destruct (Hwf_edges e He) as (H1 & H2 & _). lia.
Qed.

Lemma commit_removes_every_omega_witness :
  (4, 5, 0, 1, Some 5)
    ∉ ts_edges (apply_restriction (init test_graph) test_graph
                  [corridor_restriction; waiting_restriction]).2.
Proof.
  apply (commit_removes_every_omega (init test_graph) test_graph
           [corridor_restriction; waiting_restriction]
           corridor_restriction (4, 5, 0, 1, Some 5)).
  - done.
  - exact test_graph_well_formed.
  - change (corridor_restriction ∈ [corridor_restriction; waiting_restriction]).
    apply elem_of_cons. by left.
  - compute_done.
  - by vm_compute.
  - by vm_compute.
Defined.

(** ** The restriction list *)

Lemma validate_restriction_spec {A : Type} (edges : list (list A))
    (tf : list Z) (U : Z) :
  validate_restriction edges tf U = true
  ↔ edges ≠ [] ∧ 0 ≤ U
    ∧ (∃ s e : Z, tf = [s; e] ∧ s ≤ e)
    ∧ Forall (λ edge, length edge = 2%nat) edges.
Proof.
  unfold validate_restriction.
  destruct edges as [|edge edges]; [cbn; naive_solver|].
  destruct tf as [|s [|e [|x tf]]]; cbn [py_not orb length Nat.eqb negb nth];
    [naive_solver| |
     |destruct (U <? 0); naive_solver].
  { destruct (U <? 0); naive_solver. }
  destruct (Z.ltb_spec U 0) as [HU|HU]; [split; [done|lia]|].
  destruct (Z.gtb_spec s e) as [Hse|Hse].
  { split; [done|]. intros (_ & _ & (s' & e' & [= <- <-] & Hle) & _). lia. }
  destruct (forallb (λ edge0 : list A, (length edge0 =? 2)%nat) (edge :: edges))
    eqn:Hall; cbn [negb].
  - split; [|done]. intros _. split; [done|]. split; [done|].
    split; [by exists s, e|].
    pose proof (proj1 (forallb_forall _ _) Hall) as Hall'.
    apply Forall_forall. intros x Hx.
    apply Nat.eqb_eq, Hall'. by apply list_elem_of_In.
  - split; [done|]. intros (_ & _ & _ & HF).
    assert (Ht : forallb (λ edge0 : list A, (length edge0 =? 2)%nat)
                   (edge :: edges) = true).
    { apply (proj2 (forallb_forall _ _)). intros x Hx. apply Nat.eqb_eq.
      rewrite Forall_forall in HF. by apply HF, list_elem_of_In. }
    congruence.
Qed.

Lemma validate_restriction_typed (edges : list (Z * Z)) (tf : Z * Z) (U : Z) :
  validate_restriction (list_of_pair <$> edges) (list_of_pair tf) U = true
  ↔ edges ≠ [] ∧ 0 ≤ U ∧ tf.1 ≤ tf.2.
Proof.
  rewrite validate_restriction_spec. split.
  - intros (Hne & HU & (s & e & [= <- <-] & Hle) & _).
    split; [|done]. intros ->. by apply Hne.
  - intros (Hne & HU & Htf). split; [|split; [done|split]].
    + intros Hnil. apply Hne. by destruct edges.
    + by exists tf.1, tf.2.
    + apply Forall_fmap, Forall_forall. by intros [u v] _.
Qed.

Lemma valid_restrictions_typed (raw : list (raw_restriction Z)) :
  ∃ kept : list restriction, valid_restrictions raw = raw_of <$> kept.
Proof.
  unfold valid_restrictions. induction raw as [|r raw [kept IH]]; [by exists []|].
  rewrite filter_cons. destruct r as [[[[[edges tf] U] priority] gamma] k].
  case_decide as Hv; [|by exists kept].
  apply validate_restriction_spec in Hv as (_ & _ & (s & e & -> & _) & HF).
  assert (Hp : ∃ pairs : list (Z * Z), edges = list_of_pair <$> pairs).
  { clear -HF. induction HF as [|edge edges Hl _ [pairs ->]]; [by exists []|].
    destruct edge as [|u [|v [|? ?]]]; try done.
    by exists ((u, v) :: pairs). }
  destruct Hp as [pairs ->].
  exists ((pairs, (s, e), U, priority, gamma, k) :: kept).
  rewrite IH. done.
Qed.

Lemma set_restrictions_raw (self : controller) (data : list restriction) :
  raw_of <$> restrictions (set_restrictions self data)
  = valid_restrictions (raw_of <$> data).
Proof.
  cbn [set_restrictions restrictions]. unfold valid_restrictions.
  induction data as [|r data IH]; [done|].
  rewrite fmap_cons, !filter_cons.
  destruct r as [[[[[edges tf] U] priority] gamma] k]. cbn [raw_of].
  repeat case_decide; try done.
  by rewrite fmap_cons, IH.
Qed.

(** X4.  [validate_restriction] accepts an entry exactly when its edge
    list is not empty, its [U] is not negative, its timeframe has exactly
    two values of which the first is not after the second, and every one
    of its edges has exactly two entries; an edge list such as
    [[[[1, 2]]]], whose one edge is a single list, is turned down.
    [set_restrictions] replaces the restriction list by the entries of
    its argument that pass, in their order: the entries it keeps of a
    list that follows the annotation are all of the stored shape, and on
    entries of that shape the check comes down to the first, the second
    and the order of the timeframe.  The list the controller held before
    plays no part, a second call on the kept list changes nothing, and
    the ledger is not touched. *)
Theorem set_restrictions_keeps_valid (self : controller) (data : list restriction) :
  let self' := set_restrictions self data in
  (∀ (A : Type) (edges : list (list A)) (tf : list Z) (U : Z),
     validate_restriction edges tf U = true
     ↔ edges ≠ [] ∧ 0 ≤ U
       ∧ (∃ s e : Z, tf = [s; e] ∧ s ≤ e)
       ∧ Forall (λ edge, length edge = 2%nat) edges)
  ∧ validate_restriction [[[1; 2]]] [0; 3] 1 = false
  ∧ (∀ (A : Type) (raw : list (raw_restriction A)) edges tf U priority gamma k,
       (edges, tf, U, priority, gamma, k) ∈ valid_restrictions raw
       ↔ (edges, tf, U, priority, gamma, k) ∈ raw
         ∧ validate_restriction edges tf U = true)
  ∧ (∀ (A : Type) (raw : list (raw_restriction A)),
       sublist (valid_restrictions raw) raw)
  ∧ (∀ raw : list (raw_restriction Z),
       ∃ kept : list restriction, valid_restrictions raw = raw_of <$> kept)
  ∧ raw_of <$> restrictions self' = valid_restrictions (raw_of <$> data)
  ∧ (∀ edges tf U priority gamma k,
       (edges, tf, U, priority, gamma, k) ∈ restrictions self'
       ↔ (edges, tf, U, priority, gamma, k) ∈ data
         ∧ edges ≠ [] ∧ 0 ≤ U ∧ tf.1 ≤ tf.2)
  ∧ sublist (restrictions self') data
  ∧ (∀ other : controller,
       restrictions (set_restrictions other data) = restrictions self')
  ∧ set_restrictions self' (restrictions self') = self'
  ∧ _omega self' = _omega self
  ∧ _all_additional_edges self' = _all_additional_edges self
  ∧ _all_additional_nodes self' = _all_additional_nodes self
  ∧ _virtual_node_demands self' = _virtual_node_demands self
  ∧ _min_gamma self' = _min_gamma self.
Proof.
  cbv zeta.
  split; [intros A edges tf U; apply validate_restriction_spec|].
  split; [done|].
  split.
  { intros A raw edges tf U priority gamma k. unfold valid_restrictions.
    rewrite list_elem_of_filter. naive_solver. }
  split; [intros A raw; apply sublist_filter|].
  split; [apply valid_restrictions_typed|].
  split; [apply set_restrictions_raw|].
  split; [|split; [|split; [|split]]]; try done.
  - intros edges tf U priority gamma k. cbn [set_restrictions restrictions].
    rewrite list_elem_of_filter, validate_restriction_typed. naive_solver.
  - cbn [set_restrictions restrictions]. apply sublist_filter.
  - unfold set_restrictions at 1. cbn [restrictions _M _min_gamma _omega
      _all_additional_edges _all_additional_nodes _virtual_node_demands].
    unfold set_restrictions. f_equal.
    cbn [restrictions]. apply filter_all.
    apply Forall_forall. intros r Hr.
    by apply list_elem_of_filter in Hr as [Hr _].
Qed.

(** ** The gamma setter *)

Lemma apply_batch_restrictions `{Collaborators} (self : controller)
    (gp : graph_processor) :
  restrictions (apply_batch self gp).1 = restrictions self.
Proof.
  destruct (apply_batch_grows self gp)
    as (self2 & gp2 & mx2 & n & new_edges & Heq & Hg & _).
  rewrite Heq. cbn [fst].
  destruct Hg as (_ & _ & _ & _ & _ & _ & _ & _ & _ & Hr & _).
  rewrite Hr. by destruct (reset_artifacts_ledger self gp) as (_ & _ & Hr' & _).
Qed.

Lemma apply_restriction_restrictions `{Collaborators} (self : controller)
    (gp : graph_processor) (restrictions_data_cache : list restriction) :
  restrictions (apply_restriction self gp restrictions_data_cache).1
  = restrictions (set_restrictions self restrictions_data_cache).
Proof.
  unfold apply_restriction. case_bool_decide; [done|].
  apply apply_batch_restrictions.
Qed.

(** X5.  [set_gamma_value] stores the value as the floor that
    [get_gamma_value] reads back and as the explicit gamma of every
    restriction of the list, whose other components and order it keeps.
    From then on the gamma resolved for such a restriction is the rounded
    value, whatever the graph and the floor, and the escape edge that the
    builder emits for it carries that cost.  The ledger is not touched.
    The rewritten list does not outlive the next [apply_restriction]: on
    its cached path the call takes the restrictions from the cache, with
    the gammas recorded there. *)
Theorem set_gamma_value_overrides `{Collaborators} (self : controller)
    (gamma_value : Q) :
  let self' := set_gamma_value self gamma_value in
  get_gamma_value self' = gamma_value
  ∧ (∀ (i : nat) edges tf U priority gamma k,
       restrictions self !! i = Some (edges, tf, U, priority, gamma, k) →
       restrictions self' !! i
       = Some (edges, tf, U, priority, Some gamma_value, k))
  ∧ length (restrictions self') = length (restrictions self)
  ∧ (∀ (r : restriction) (other : controller) (gp : graph_processor),
       r ∈ restrictions self' →
       restriction_gamma other gp r = py_round gamma_value)
  ∧ (∀ (gp : graph_processor) (mx : Z) (r : restriction),
       r ∈ restrictions self' →
       restriction_omega self' gp r ≠ [] →
       0 < restriction_virtual_flow self' gp r →
       last (_all_additional_edges (restriction_step (self', gp, mx) r).1.1)
       = Some (mx + 1, mx + 2, 0, restriction_virtual_flow self' gp r,
               Some (py_round gamma_value)))
  ∧ (∀ (gp : graph_processor) (cache : list restriction),
       restrictions (apply_restriction self' gp cache).1
       = restrictions (set_restrictions self cache))
  ∧ _omega self' = _omega self
  ∧ _all_additional_edges self' = _all_additional_edges self
  ∧ _all_additional_nodes self' = _all_additional_nodes self
  ∧ _virtual_node_demands self' = _virtual_node_demands self.
Proof.
  cbv zeta.
  assert (Hgamma : ∀ (r : restriction) (other : controller) (gp : graph_processor),
            r ∈ restrictions (set_gamma_value self gamma_value) →
            restriction_gamma other gp r = py_round gamma_value).
  { intros r other gp Hr. cbn [set_gamma_value restrictions] in Hr.
    apply list_elem_of_fmap in Hr as ([[[[[e tf] U] p] g] k] & -> & _).
    done. }
  split; [done|]. split; [|split; [|split; [exact Hgamma|split; [|split]]]];
    try done.
  - intros i edges tf U priority gamma k Hi.
    cbn [set_gamma_value restrictions]. apply list_lookup_fmap_Some.
    exists (edges, tf, U, priority, gamma, k). by split.
  - cbn [set_gamma_value restrictions]. apply length_fmap.
  - intros gp mx r Hr Hne Hpos.
    destruct (restriction_step_cases (set_gamma_value self gamma_value) gp mx r)
      as [[Hnil _]|[(_ & Hz & _)|(_ & _ & self2 & gp2 & Heq & Hg & _)]];
      [done|lia|].
    rewrite Heq. cbn [fst].
    destruct Hg as (_ & _ & -> & _).
    rewrite app_assoc, last_snoc.
    by rewrite (Hgamma r _ gp Hr).
  - intros gp cache. by rewrite apply_restriction_restrictions.
Qed.

(** ** The solved flow and the violation summary *)

Lemma filtered_data_lookup (flow_dict : flowDict) (source_str : string) :
  filtered_data flow_dict !! source_str
  = match flow_dict !! source_str with
    | Some sub_dict =>
        if bool_decide (filter (λ kv : string * Z, kv.2 ≠ 0) sub_dict ≠ ∅)
        then Some (filter (λ kv : string * Z, kv.2 ≠ 0) sub_dict)
        else None
    | None => None
    end.
Proof.
  unfold filtered_data. rewrite lookup_omap.
  by destruct (flow_dict !! source_str).
Qed.

Lemma escape_flow_filtered_data (flow_dict : flowDict) (edge : EscapeEdge.t) :
  escape_flow (filtered_data flow_dict) edge = escape_flow flow_dict edge.
Proof.
  unfold escape_flow. rewrite filtered_data_lookup.
  destruct (flow_dict !! pretty (EscapeEdge.source edge)) as [sub_dict|]; [|done].
  case_bool_decide as Hne.
  - destruct (sub_dict !! pretty (EscapeEdge.dest edge)) as [v|] eqn:Hv.
    + destruct (decide (v = 0)) as [->|Hv0].
      * rewrite (proj2 (map_lookup_filter_None _ _ _)); [done|].
        right. intros x Hx. cbn. rewrite Hv in Hx. naive_solver.
      * by rewrite (map_lookup_filter_Some_2 _ _ _ v).
    + rewrite (proj2 (map_lookup_filter_None _ _ _)); [done|]. by left.
  - destruct (sub_dict !! pretty (EscapeEdge.dest edge)) as [v|] eqn:Hv; [|done].
    destruct (decide (v = 0)) as [->|Hv0]; [done|].
    assert (Hin : filter (λ kv : string * Z, kv.2 ≠ 0) sub_dict
                    !! pretty (EscapeEdge.dest edge) = Some v)
      by by apply map_lookup_filter_Some_2.
    by rewrite Hne in Hin.
Qed.

(** X6.  [read_dimac_file] keeps of the solved flow the entries that are
    not 0 and the rows that still have an entry: a stored row is never
    empty and a stored entry is an entry of the solver's dictionary,
    different from 0.  The flow that the violation detector reads for an
    escape edge is the same in the stored dictionary as in the solver's,
    so the violations reported are the same; filtering twice changes
    nothing. *)
Theorem filtered_data_keeps_violations (flow_dict : flowDict) :
  (∀ (source_str : string) (row : gmap string Z),
     filtered_data flow_dict !! source_str = Some row →
     row ≠ ∅
     ∧ ∃ sub_dict, flow_dict !! source_str = Some sub_dict
         ∧ ∀ (dest_str : string) (flow_value : Z),
             row !! dest_str = Some flow_value
             ↔ sub_dict !! dest_str = Some flow_value ∧ flow_value ≠ 0)
  ∧ (∀ edge : EscapeEdge.t,
       escape_flow (filtered_data flow_dict) edge = escape_flow flow_dict edge)
  ∧ (∀ escape_edges : list EscapeEdge.t,
       analyze_escape_edge_flow escape_edges (Some (filtered_data flow_dict))
       = analyze_escape_edge_flow escape_edges (Some flow_dict))
  ∧ filtered_data (filtered_data flow_dict) = filtered_data flow_dict.
Proof.
  split; [|split; [exact (escape_flow_filtered_data flow_dict)|split]].
  - intros source_str row. rewrite filtered_data_lookup.
    destruct (flow_dict !! source_str) as [sub_dict|]; [|done].
    case_bool_decide as Hne; [|done].
    intros [= <-]. split; [done|]. exists sub_dict. split; [done|].
    intros dest_str flow_value. by rewrite map_lookup_filter_Some.
  - intros [|e escape_edges]; [done|]. cbn [analyze_escape_edge_flow].
    rewrite !escape_edge_violations_filter.
    assert (Hf : ∀ l : list EscapeEdge.t,
              violation_of (filtered_data flow_dict)
                <$> filter (λ edge, escape_flow (filtered_data flow_dict) edge > 0) l
              = violation_of flow_dict
                  <$> filter (λ edge, escape_flow flow_dict edge > 0) l).
    { induction l as [|x l IH]; [done|].
      rewrite !filter_cons. rewrite escape_flow_filtered_data.
      case_decide; [|exact IH].
      rewrite !fmap_cons, IH. f_equal.
      unfold violation_of. by rewrite escape_flow_filtered_data. }
    apply Hf.
  - apply map_eq. intros source_str. rewrite !filtered_data_lookup.
    destruct (flow_dict !! source_str) as [sub_dict|]; [|done].
    case_bool_decide as Hne; [|done].
    assert (Hidem : filter (λ kv : string * Z, kv.2 ≠ 0)
                      (filter (λ kv : string * Z, kv.2 ≠ 0) sub_dict)
                    = filter (λ kv : string * Z, kv.2 ≠ 0) sub_dict).
    { apply map_eq. intros k. apply option_eq. intros v.
      rewrite !map_lookup_filter_Some. naive_solver. }
    rewrite Hidem. by rewrite bool_decide_eq_true_2.
Qed.

Lemma detect_escape_edges_filter (arc_lines : list ArcLine.t) :
  detect_escape_edges arc_lines
  = escape_edge_of_arc <$> filter (λ a, looks_like_escape a = true) arc_lines.
Proof.
  unfold detect_escape_edges.
  match goal with
  | |- foldl ?F [] ?l = _ =>
      enough (∀ acc, foldl F acc l
                     = acc ++ (escape_edge_of_arc
                                 <$> filter (λ a, looks_like_escape a = true) l))
        as Hgen by exact (Hgen [])
  end.
  induction arc_lines as [|a l IH]; intros acc.
  - cbn. by rewrite app_nil_r.
  - cbn [foldl]. rewrite IH, filter_cons.
    change ((ArcLine.source a >? 80) && (ArcLine.dest a >? 80)
            && (ArcLine.cost a >? 0)) with (looks_like_escape a).
    destruct (looks_like_escape a) eqn:Htest.
    + rewrite decide_True by done. by rewrite fmap_cons, <- app_assoc.
    + by rewrite decide_False by done.
Qed.

Lemma analyze_escape_edge_flow_filter (escape_edges : list EscapeEdge.t)
    (solved : option flowDict) :
  analyze_escape_edge_flow escape_edges solved
  = match solved with
    | Some flow_dict =>
        violation_of flow_dict
          <$> filter (λ edge, escape_flow flow_dict edge > 0) escape_edges
    | None => []
    end.
Proof.
  destruct escape_edges as [|e l]; [by destruct solved|].
  destruct solved as [flow_dict|]; [|done].
  apply escape_edge_violations_filter.
Qed.

Lemma total_violation_flow_ge_length (violations : list Violation.t) :
  Forall (λ v, 0 < Violation.flow v) violations →
  Z.of_nat (length violations) ≤ total_violation_flow violations.
Proof.
  unfold total_violation_flow.
  induction 1 as [|v l Hv _ IH]; [done|]. cbn [length map foldr]. lia.
Qed.

Lemma total_penalty_cost_ge_flow (violations : list Violation.t) :
  Forall (λ v, Violation.flow v ≤ Violation.penalty_cost v) violations →
  total_violation_flow violations ≤ total_penalty_cost violations.
Proof.
  unfold total_violation_flow, total_penalty_cost.
  induction 1 as [|v l Hv _ IH]; [done|]. cbn [map foldr]. lia.
Qed.

(** X7.  [analyze_current_violations] followed by
    [get_violation_summary], on the arc lines of the file and the solved
    flow.  The escape edges are the arc lines whose two ids exceed 80 and
    whose cost is positive, in file order.  Every violation has positive
    flow, positive gamma cost and penalty flow * gamma.  When an escape
    edge was detected, the summary counts no more violations than escape
    edges, the total flow is at least the number of violations and at
    most the total penalty, the penalty is 0 exactly when there is no
    violation, and the violated edges are escape edges, in order.  When
    none was detected the call returns [[]] and keeps [last_violations]:
    the summary then reports 0 escape edges beside the violations of the
    earlier analysis. *)
Theorem violation_summary_after_analysis (log : violation_log)
    (arc_lines : list ArcLine.t) (solved : option flowDict) :
  let escape_edges := detect_escape_edges arc_lines in
  let log' := (analyze_current_violations log escape_edges solved).1 in
  let violations := (analyze_current_violations log escape_edges solved).2 in
  let summary := get_violation_summary log' in
  (∀ e : EscapeEdge.t,
     e ∈ escape_edges
     ↔ ∃ a : ArcLine.t,
         a ∈ arc_lines ∧ 80 < ArcLine.source a ∧ 80 < ArcLine.dest a
         ∧ 0 < ArcLine.cost a ∧ e = escape_edge_of_arc a)
  ∧ sublist (EscapeEdge.line <$> escape_edges) (ArcLine.line_num <$> arc_lines)
  ∧ last_escape_edges log' = escape_edges
  ∧ Forall (λ v, 0 < Violation.flow v ∧ 0 < Violation.gamma_cost v
                 ∧ Violation.penalty_cost v
                   = Violation.flow v * Violation.gamma_cost v
                 ∧ 80 < Violation.source v ∧ 80 < Violation.dest v)
           violations
  ∧ (escape_edges ≠ [] →
       last_violations log' = violations
       ∧ (Summary.violations_count summary
          ≤ Summary.escape_edges_count summary)%nat
       ∧ Z.of_nat (Summary.violations_count summary)
         ≤ Summary.total_violation_flow summary
       ∧ Summary.total_violation_flow summary
         ≤ Summary.total_penalty_cost summary
       ∧ (Summary.total_penalty_cost summary = 0 ↔ violations = [])
       ∧ sublist (Summary.violated_edges summary)
                 ((λ e, (EscapeEdge.source e, EscapeEdge.dest e)) <$> escape_edges))
  ∧ (escape_edges = [] →
       violations = []
       ∧ last_violations log' = last_violations log
       ∧ Summary.escape_edges_count summary = 0%nat
       ∧ Summary.violations_count summary = length (last_violations log)).
Proof.
  cbv zeta.
  assert (Hdet : ∀ e : EscapeEdge.t,
            e ∈ detect_escape_edges arc_lines
            ↔ ∃ a : ArcLine.t,
                a ∈ arc_lines ∧ 80 < ArcLine.source a ∧ 80 < ArcLine.dest a
                ∧ 0 < ArcLine.cost a ∧ e = escape_edge_of_arc a).
  { intros e. rewrite detect_escape_edges_filter, list_elem_of_fmap.
    unfold looks_like_escape. split.
    - intros (a & -> & Ha). apply list_elem_of_filter in Ha as [Ht Ha].
      apply andb_prop in Ht as [Ht H3]. apply andb_prop in Ht as [H1 H2].
      exists a. repeat split; [done|lia..].
    - intros (a & Ha & H1 & H2 & H3 & ->). exists a. split; [done|].
      apply list_elem_of_filter. split; [|done].
      apply andb_true_intro. split; [apply andb_true_intro; split|]; lia. }
  set (escape_edges := detect_escape_edges arc_lines) in *.
  assert (Hviol : (analyze_current_violations log escape_edges solved).2
                  = analyze_escape_edge_flow escape_edges solved).
  { unfold analyze_current_violations. by destruct escape_edges. }
  assert (Hall : Forall (λ v, 0 < Violation.flow v ∧ 0 < Violation.gamma_cost v
                              ∧ Violation.penalty_cost v
                                = Violation.flow v * Violation.gamma_cost v
                              ∧ 80 < Violation.source v ∧ 80 < Violation.dest v)
                        (analyze_escape_edge_flow escape_edges solved)).
  { rewrite analyze_escape_edge_flow_filter.
    destruct solved as [flow_dict|]; [|constructor].
    apply Forall_forall. intros v Hv.
    apply list_elem_of_fmap in Hv as (e & -> & He).
    apply list_elem_of_filter in He as [Hpos He].
    apply Hdet in He as (a & _ & H1 & H2 & H3 & ->).
    unfold violation_of. cbn in *. repeat split; lia. }
  split; [exact Hdet|]. split; [|split; [|split; [|split]]].
  - subst escape_edges. rewrite detect_escape_edges_filter, <- list_fmap_compose.
    change (EscapeEdge.line ∘ escape_edge_of_arc) with ArcLine.line_num.
    apply fmap_sublist, sublist_filter.
  - unfold analyze_current_violations. by destruct escape_edges.
  - by rewrite Hviol.
  - intros Hne. rewrite Hviol.
    assert (Hlast : last_violations
                      (analyze_current_violations log escape_edges solved).1
                    = analyze_escape_edge_flow escape_edges solved).
    { unfold analyze_current_violations. by destruct escape_edges. }
    assert (Hesc : last_escape_edges
                     (analyze_current_violations log escape_edges solved).1
                   = escape_edges).
    { unfold analyze_current_violations. by destruct escape_edges. }
    unfold get_violation_summary.
    cbn [Summary.violations_count Summary.escape_edges_count
         Summary.total_violation_flow Summary.total_penalty_cost
         Summary.violated_edges].
    rewrite Hlast, Hesc.
    assert (Hflow : Z.of_nat (length (analyze_escape_edge_flow escape_edges solved))
                    ≤ total_violation_flow
                        (analyze_escape_edge_flow escape_edges solved)).
    { apply total_violation_flow_ge_length.
      eapply Forall_impl; [exact Hall|]. cbn. tauto. }
    assert (Hpen : total_violation_flow (analyze_escape_edge_flow escape_edges solved)
                   ≤ total_penalty_cost
                       (analyze_escape_edge_flow escape_edges solved)).
    { apply total_penalty_cost_ge_flow.
      eapply Forall_impl; [exact Hall|]. cbn. intros v (? & ? & -> & _). nia. }
    split; [done|]. split; [|split; [done|split; [done|split]]].
    + rewrite analyze_escape_edge_flow_filter.
      destruct solved as [flow_dict|]; [|cbn; lia].
      rewrite length_fmap. apply length_filter.
    + split.
      * intros H0. destruct (analyze_escape_edge_flow escape_edges solved); [done|].
        cbn [length] in Hflow. lia.
      * by intros ->.
    + rewrite analyze_escape_edge_flow_filter.
      destruct solved as [flow_dict|]; [|apply sublist_nil_l].
      unfold violated_edges. rewrite <- list_fmap_compose.
      change ((λ v : Violation.t, (Violation.source v, Violation.dest v))
                ∘ violation_of flow_dict)
        with (λ e : EscapeEdge.t, (EscapeEdge.source e, EscapeEdge.dest e)).
      apply fmap_sublist, sublist_filter.
  - intros Hnil. rewrite Hnil. done.
Qed.

(** ** Cut capacities *)

Lemma identify_restricted_nodes_elem (omega : list edge) (k : Z) :
  k ∈ identify_restricted_nodes omega
  ↔ ∃ e : edge, e ∈ omega ∧ (k = (endpoints e).1 ∨ k = (endpoints e).2).
Proof.
  unfold identify_restricted_nodes.
  match goal with
  | |- k ∈ foldl ?F ∅ omega ↔ _ =>
      enough (∀ acc : gset Z,
                k ∈ foldl F acc omega
                ↔ k ∈ acc ∨ ∃ e : edge,
                      e ∈ omega ∧ (k = (endpoints e).1 ∨ k = (endpoints e).2))
        as Hgen
  end.
  { rewrite Hgen. set_solver. }
  induction omega as [|[[[[s d] l] c] w] omega IH]; intros acc.
  - cbn [foldl]. split; [by left|]. intros [?|(e & He & _)]; [done|].
    by apply elem_of_nil in He.
  - cbn [foldl]. rewrite IH. split.
    + intros [Hk|(e & He & Hk)].
      * apply elem_of_union in Hk as [Hk|Hk].
        { right. exists (s, d, l, c, w). split; [by left|].
          right. cbn. set_solver. }
        apply elem_of_union in Hk as [Hk|Hk]; [|by left].
        right. exists (s, d, l, c, w). split; [by left|].
        left. cbn. set_solver.
      * right. exists e. split; [by right|done].
    + intros [Hk|(e & He & Hk)]; [left; set_solver|].
      apply elem_of_cons in He as [->|He].
      * left. cbn in Hk. set_solver.
      * right. by exists e.
Qed.

Lemma calculate_total_capacity_cons (e : edge) (l : list edge) :
  calculate_total_capacity (e :: l) = edge_capacity e + calculate_total_capacity l.
Proof. by destruct e as [[[[s d] lo] c] w]. Qed.

Lemma incoming_capacity_lookup (TSG : list edge) (restricted_nodes : gset Z) (v : Z) :
  calculate_incoming_capacity_for_restricted_nodes TSG restricted_nodes !! v
  = match entering TSG restricted_nodes v with
    | [] => None
    | crossing => Some (calculate_total_capacity crossing)
    end.
Proof.
  unfold calculate_incoming_capacity_for_restricted_nodes.
  match goal with
  | |- foldl ?F ∅ TSG !! v = _ =>
      enough (∀ acc : gmap Z Z,
                foldl F acc TSG !! v
                = match entering TSG restricted_nodes v with
                  | [] => acc !! v
                  | crossing =>
                      Some (default 0 (acc !! v) + calculate_total_capacity crossing)
                  end) as Hgen
  end.
  { rewrite Hgen, lookup_empty. by destruct (entering _ _ _). }
  induction TSG as [|[[[[s d] l] c] w] TSG IH]; intros acc; [done|].
  cbn [foldl]. rewrite IH. unfold entering. rewrite filter_cons.
  cbn [endpoints fst snd].
  destruct (bool_decide_reflect (d ∈ restricted_nodes)) as [Hd|Hd];
    destruct (bool_decide_reflect (s ∈ restricted_nodes)) as [Hs|Hs]; cbn [andb negb].
  - rewrite decide_False by tauto. done.
  - destruct (decide (d = v)) as [->|Hdv].
    + rewrite decide_True by done. unfold defaultdict_add.
      rewrite lookup_insert_eq. cbn [default from_option]. unfold Datatypes.id.
      destruct (filter _ TSG) as [|e' l'] eqn:Hf.
      * unfold calculate_total_capacity. cbn. f_equal. lia.
      * rewrite (calculate_total_capacity_cons (s, v, l, c, w)). cbn [edge_capacity].
        f_equal. lia.
    + rewrite decide_False by tauto. unfold defaultdict_add.
      rewrite lookup_insert_ne by done. done.
  - rewrite decide_False by tauto. done.
  - rewrite decide_False by tauto. done.
Qed.

Lemma outgoing_capacity_lookup (TSG : list edge) (restricted_nodes : gset Z) (u : Z) :
  calculate_outgoing_capacity_for_restricted_nodes TSG restricted_nodes !! u
  = match leaving TSG restricted_nodes u with
    | [] => None
    | crossing => Some (calculate_total_capacity crossing)
    end.
Proof.
  unfold calculate_outgoing_capacity_for_restricted_nodes.
  match goal with
  | |- foldl ?F ∅ TSG !! u = _ =>
      enough (∀ acc : gmap Z Z,
                foldl F acc TSG !! u
                = match leaving TSG restricted_nodes u with
                  | [] => acc !! u
                  | crossing =>
                      Some (default 0 (acc !! u) + calculate_total_capacity crossing)
                  end) as Hgen
  end.
  { rewrite Hgen, lookup_empty. by destruct (leaving _ _ _). }
  induction TSG as [|[[[[s d] l] c] w] TSG IH]; intros acc; [done|].
  cbn [foldl]. rewrite IH. unfold leaving. rewrite filter_cons.
  cbn [endpoints fst snd].
  destruct (bool_decide_reflect (s ∈ restricted_nodes)) as [Hs|Hs];
    destruct (bool_decide_reflect (d ∈ restricted_nodes)) as [Hd|Hd]; cbn [andb negb].
  - rewrite decide_False by tauto. done.
  - destruct (decide (s = u)) as [->|Hsu].
    + rewrite decide_True by done. unfold defaultdict_add.
      rewrite lookup_insert_eq. cbn [default from_option]. unfold Datatypes.id.
      destruct (filter _ TSG) as [|e' l'] eqn:Hf.
      * unfold calculate_total_capacity. cbn. f_equal. lia.
      * rewrite (calculate_total_capacity_cons (u, d, l, c, w)). cbn [edge_capacity].
        f_equal. lia.
    + rewrite decide_False by tauto. unfold defaultdict_add.
      rewrite lookup_insert_ne by done. done.
  - rewrite decide_False by tauto. done.
  - rewrite decide_False by tauto. done.
Qed.

(** X8.  The two boundary maps of the cut analysis, for any edge list
    and any node set: a node is a key of the incoming map exactly when
    some edge enters it from outside the set, and its value is then the
    total capacity of those edges; the same for the outgoing map and the
    edges that leave to the outside.  Keys are restricted nodes, and an
    edge whose two endpoints are on the same side of the border counts
    in neither map. *)
Theorem cut_capacities (TSG : list edge) (restricted_nodes : gset Z) :
  let incoming :=
    calculate_incoming_capacity_for_restricted_nodes TSG restricted_nodes in
  let outgoing :=
    calculate_outgoing_capacity_for_restricted_nodes TSG restricted_nodes in
  (∀ v : Z, incoming !! v
            = match entering TSG restricted_nodes v with
              | [] => None
              | crossing => Some (calculate_total_capacity crossing)
              end)
  ∧ (∀ u : Z, outgoing !! u
              = match leaving TSG restricted_nodes u with
                | [] => None
                | crossing => Some (calculate_total_capacity crossing)
                end)
  ∧ (∀ v : Z, is_Some (incoming !! v) → v ∈ restricted_nodes)
  ∧ (∀ u : Z, is_Some (outgoing !! u) → u ∈ restricted_nodes)
  ∧ (∀ e : edge,
       ((endpoints e).1 ∈ restricted_nodes ↔ (endpoints e).2 ∈ restricted_nodes) →
       ∀ k : Z, (e ∉ entering TSG restricted_nodes k)
                ∧ (e ∉ leaving TSG restricted_nodes k)).
Proof.
  cbv zeta. split; [exact (incoming_capacity_lookup TSG restricted_nodes)|].
  split; [exact (outgoing_capacity_lookup TSG restricted_nodes)|].
  split; [|split].
  - intros v. rewrite incoming_capacity_lookup.
    destruct (entering TSG restricted_nodes v) as [|e l] eqn:He.
    + by intros [? ?].
    + intros _. assert (Hin : e ∈ entering TSG restricted_nodes v)
        by (rewrite He; by left).
      apply list_elem_of_filter in Hin as [(<- & ? & _) _]. done.
  - intros u. rewrite outgoing_capacity_lookup.
    destruct (leaving TSG restricted_nodes u) as [|e l] eqn:He.
    + by intros [? ?].
    + intros _. assert (Hin : e ∈ leaving TSG restricted_nodes u)
        by (rewrite He; by left).
      apply list_elem_of_filter in Hin as [(<- & ? & _) _]. done.
  - intros e Hside k. unfold entering, leaving.
    rewrite !list_elem_of_filter. tauto.
Qed.

(** X9.  The restricted nodes of an omega are the endpoints of its
    edges, so the set is empty only for the empty omega, and no omega
    edge counts in the boundary maps computed for that set: the capacity
    of the cut comes from the rest of the graph. *)
Theorem restricted_nodes_of_omega (omega : list edge) :
  let restricted_nodes := identify_restricted_nodes omega in
  (∀ k : Z, k ∈ restricted_nodes
            ↔ ∃ e : edge, e ∈ omega ∧ (k = (endpoints e).1 ∨ k = (endpoints e).2))
  ∧ (restricted_nodes = ∅ ↔ omega = [])
  ∧ (∀ (TSG : list edge) (e : edge) (k : Z),
       e ∈ omega →
       (e ∉ entering TSG restricted_nodes k)
       ∧ (e ∉ leaving TSG restricted_nodes k))
  ∧ (∀ (TSG : list edge) (k : Z),
       calculate_incoming_capacity_for_restricted_nodes
         (TSG ++ omega) restricted_nodes !! k
       = calculate_incoming_capacity_for_restricted_nodes
           TSG restricted_nodes !! k
       ∧ calculate_outgoing_capacity_for_restricted_nodes
           (TSG ++ omega) restricted_nodes !! k
         = calculate_outgoing_capacity_for_restricted_nodes
             TSG restricted_nodes !! k).
Proof.
  cbv zeta.
  assert (Hside : ∀ e : edge, e ∈ omega →
            (endpoints e).1 ∈ identify_restricted_nodes omega
            ∧ (endpoints e).2 ∈ identify_restricted_nodes omega).
  { intros e He. split; apply identify_restricted_nodes_elem; exists e; tauto. }
  split; [exact (identify_restricted_nodes_elem omega)|]. split; [|split].
  - split.
    + intros Hemp. destruct omega as [|e omega]; [done|].
      destruct (Hside e) as [H1 _]; [by left|]. rewrite Hemp in H1.
      by apply not_elem_of_empty in H1.
    + by intros ->.
  - intros TSG e k He. destruct (Hside e He) as [H1 H2].
    unfold entering, leaving. rewrite !list_elem_of_filter. tauto.
  - intros TSG k. rewrite !incoming_capacity_lookup, !outgoing_capacity_lookup.
    unfold entering, leaving. rewrite !filter_app.
    rewrite (filter_none _ omega), (filter_none _ omega), !app_nil_r; [done|..];
      apply Forall_forall; intros e He; destruct (Hside e He); tauto.
Qed.

(** ** The auxiliary graph of the max-flow probe *)

Lemma foldl_add_edge_omega (omega : list edge) (G : DiGraph) :
  let G' :=
    foldl (λ (G : DiGraph) (e : edge),
             let '(source_id, dest_id, _, capacity, _) := e in
             add_edge G (TSNode source_id) (TSNode dest_id) capacity)
          G omega in
  (∀ s d : Z, G_capacity G' !! (TSNode s, TSNode d)
              = match parallel_capacity omega s d with
                | Some c => Some c
                | None => G_capacity G !! (TSNode s, TSNode d)
                end)
  ∧ (∀ key : flow_node * flow_node,
       (∀ s d : Z, key ≠ (TSNode s, TSNode d)) →
       G_capacity G' !! key = G_capacity G !! key)
  ∧ (∀ n : flow_node,
       n ∈ G_nodes G'
       ↔ n ∈ G_nodes G
         ∨ ∃ k : Z, n = TSNode k ∧ k ∈ identify_restricted_nodes omega).
Proof.
  cbv zeta. induction omega as [|[[[[s' d'] l] c] w] omega IH] using rev_ind.
  - cbn [foldl]. split; [|split]; [done..|].
    intros n. split; [by left|]. intros [?|(k & _ & Hk)]; [done|].
    apply identify_restricted_nodes_elem in Hk as (e & He & _).
    by apply elem_of_nil in He.
  - rewrite foldl_app. cbn [foldl]. destruct IH as (IH1 & IH2 & IH3).
    split; [|split].
    + intros s d. unfold parallel_capacity. rewrite filter_app.
      cbn [add_edge G_capacity]. rewrite filter_cons, filter_nil.
      cbn [endpoints].
      destruct (decide ((s', d') = (s, d))) as [[= -> ->]|Hne].
      * rewrite lookup_insert_eq, last_snoc. done.
      * rewrite lookup_insert_ne by congruence. rewrite app_nil_r. apply IH1.
    + intros key Hkey. cbn [add_edge G_capacity].
      rewrite lookup_insert_ne by (intros <-; by apply (Hkey s' d')).
      by apply IH2.
    + intros n. cbn [add_edge G_nodes].
      rewrite elem_of_union, IH3.
      setoid_rewrite identify_restricted_nodes_elem.
      setoid_rewrite elem_of_app. setoid_rewrite list_elem_of_singleton.
      split.
      * intros [Hn|[Hn|(k & -> & e & He & Hk)]].
        -- right. apply elem_of_union in Hn as [Hn|Hn];
             apply elem_of_singleton in Hn as ->;
             [exists s'|exists d']; (split; [done|]);
             exists (s', d', l, c, w); cbn; tauto.
        -- by left.
        -- right. exists k. split; [done|]. exists e. tauto.
      * intros [Hn|(k & -> & e & [He| ->] & Hk)].
        -- right. by left.
        -- right. right. exists k. split; [done|]. by exists e.
        -- left. cbn in Hk. destruct Hk as [->| ->]; set_solver.
Qed.

Lemma map_fold_add_edge (mk_u mk_v : Z → flow_node) (G : DiGraph) (m : gmap Z Z) :
  (∀ k k' : Z, (mk_u k, mk_v k) = (mk_u k', mk_v k') → k = k') →
  let G' :=
    map_fold (λ (node_id capacity : Z) (G : DiGraph),
                add_edge G (mk_u node_id) (mk_v node_id) capacity) G m in
  (∀ k : Z, G_capacity G' !! (mk_u k, mk_v k)
            = match m !! k with
              | Some c => Some c
              | None => G_capacity G !! (mk_u k, mk_v k)
              end)
  ∧ (∀ key : flow_node * flow_node,
       (∀ k : Z, key ≠ (mk_u k, mk_v k)) →
       G_capacity G' !! key = G_capacity G !! key)
  ∧ (∀ n : flow_node,
       n ∈ G_nodes G'
       ↔ n ∈ G_nodes G
         ∨ ∃ k : Z, is_Some (m !! k) ∧ (n = mk_u k ∨ n = mk_v k)).
Proof.
  intros Hinj. cbv zeta.
  apply (map_fold_weak_ind
           (λ (G' : DiGraph) (m : gmap Z Z),
              (∀ k : Z, G_capacity G' !! (mk_u k, mk_v k)
                        = match m !! k with
                          | Some c => Some c
                          | None => G_capacity G !! (mk_u k, mk_v k)
                          end)
              ∧ (∀ key : flow_node * flow_node,
                   (∀ k : Z, key ≠ (mk_u k, mk_v k)) →
                   G_capacity G' !! key = G_capacity G !! key)
              ∧ (∀ n : flow_node,
                   n ∈ G_nodes G'
                   ↔ n ∈ G_nodes G
                     ∨ ∃ k : Z, is_Some (m !! k) ∧ (n = mk_u k ∨ n = mk_v k)))).
  - split; [|split]; [done..|].
    intros n. split; [by left|]. intros [?|(k & Hk & _)]; [done|].
    rewrite lookup_empty in Hk. by destruct Hk.
  - intros i x m' r Hi (IH1 & IH2 & IH3). split; [|split].
    + intros k. cbn [add_edge G_capacity].
      destruct (decide (i = k)) as [->|Hne].
      * by rewrite !lookup_insert_eq.
      * rewrite lookup_insert_ne by (intros Heq; by apply Hinj in Heq).
        rewrite lookup_insert_ne by done. apply IH1.
    + intros key Hkey. cbn [add_edge G_capacity].
      rewrite lookup_insert_ne by (intros <-; by apply (Hkey i)).
      by apply IH2.
    + intros n. cbn [add_edge G_nodes]. rewrite elem_of_union, IH3. split.
      * intros [Hn|[Hn|(k & Hk & Hn)]].
        -- right. exists i. rewrite lookup_insert_eq. split; [done|]. set_solver.
        -- by left.
        -- right. exists k. split; [|done].
           destruct (decide (i = k)) as [->|Hne];
             [by rewrite lookup_insert_eq|by rewrite lookup_insert_ne].
      * intros [Hn|(k & Hk & Hn)]; [right; by left|].
        destruct (decide (i = k)) as [->|Hne].
        -- left. set_solver.
        -- rewrite lookup_insert_ne in Hk by done. right. right. by exists k.
Qed.

(** X10.  The graph that [calculate_max_flow] hands to the max-flow
    routine.  Its edges are: from [vS] to each key of the incoming map,
    with the recorded capacity; from each key of the outgoing map to
    [vT], with the recorded capacity; and between the endpoints of each
    omega edge, parallel omega edges sharing one edge that carries the
    capacity of the last of them.  No edge enters [vS], none leaves
    [vT], and there is none from [vS] to [vT].  The nodes are [vS] and
    [vT], present even for an empty omega, the endpoints of omega and
    the keys of the two maps.  With the maps of the cut analysis, the
    edge from [vS] into a node carries the total capacity of the graph's
    edges that enter the node from outside the restricted set. *)
Theorem max_flow_graph_shape (omega : list edge) (incoming outgoing : gmap Z Z) :
  let G := max_flow_graph omega incoming outgoing in
  (∀ v : Z, G_capacity G !! (vS, TSNode v) = incoming !! v)
  ∧ (∀ u : Z, G_capacity G !! (TSNode u, vT) = outgoing !! u)
  ∧ (∀ s d : Z, G_capacity G !! (TSNode s, TSNode d) = parallel_capacity omega s d)
  ∧ (∀ x : flow_node, G_capacity G !! (x, vS) = None)
  ∧ (∀ x : flow_node, G_capacity G !! (vT, x) = None)
  ∧ G_capacity G !! (vS, vT) = None
  ∧ (∀ n : flow_node,
       n ∈ G_nodes G
       ↔ n = vS ∨ n = vT
         ∨ ∃ k : Z, n = TSNode k
                    ∧ (k ∈ identify_restricted_nodes omega
                       ∨ is_Some (incoming !! k) ∨ is_Some (outgoing !! k)))
  ∧ (∀ (TSG : list edge) (restricted_nodes : gset Z) (v : Z),
       G_capacity
         (max_flow_graph omega
            (calculate_incoming_capacity_for_restricted_nodes TSG restricted_nodes)
            (calculate_outgoing_capacity_for_restricted_nodes TSG restricted_nodes))
         !! (vS, TSNode v)
       = match entering TSG restricted_nodes v with
         | [] => None
         | crossing => Some (calculate_total_capacity crossing)
         end).
Proof.
  assert (Hshape : ∀ inc out : gmap Z Z,
            let G := max_flow_graph omega inc out in
            (∀ v : Z, G_capacity G !! (vS, TSNode v) = inc !! v)
            ∧ (∀ u : Z, G_capacity G !! (TSNode u, vT) = out !! u)
            ∧ (∀ s d : Z, G_capacity G !! (TSNode s, TSNode d)
                          = parallel_capacity omega s d)
            ∧ (∀ x : flow_node, G_capacity G !! (x, vS) = None)
            ∧ (∀ x : flow_node, G_capacity G !! (vT, x) = None)
            ∧ G_capacity G !! (vS, vT) = None
            ∧ (∀ n : flow_node,
                 n ∈ G_nodes G
                 ↔ n = vS ∨ n = vT
                   ∨ ∃ k : Z, n = TSNode k
                              ∧ (k ∈ identify_restricted_nodes omega
                                 ∨ is_Some (inc !! k) ∨ is_Some (out !! k)))).
  { intros inc out. cbv zeta. unfold max_flow_graph.
    set (G0 := add_node (add_node (MkDiGraph ∅ ∅) vS) vT).
    destruct (foldl_add_edge_omega omega G0) as (O1 & O2 & O3).
    cbv zeta in O1, O2, O3.
    set (G1 := foldl _ G0 omega) in *.
    destruct (map_fold_add_edge (λ _, vS) TSNode G1 inc) as (I1 & I2 & I3);
      [by intros k k' [= ->]|].
    cbv zeta in I1, I2, I3.
    set (G2 := map_fold _ G1 inc) in *.
    destruct (map_fold_add_edge TSNode (λ _, vT) G2 out) as (T1 & T2 & T3);
      [by intros k k' [= ->]|].
    cbv zeta in T1, T2, T3.
    set (G3 := map_fold _ G2 out) in *.
    assert (H0 : ∀ key, G_capacity G0 !! key = None) by done.
    split; [|split; [|split; [|split; [|split; [|split]]]]].
    - intros v. rewrite T2 by done. rewrite I1.
      destruct (inc !! v); [done|]. rewrite O2 by done. apply H0.
    - intros u. rewrite T1. destruct (out !! u); [done|].
      rewrite I2 by done. rewrite O2 by done. apply H0.
    - intros s d. rewrite T2 by done. rewrite I2 by done. rewrite O1.
      by destruct (parallel_capacity omega s d).
    - intros x. rewrite T2 by done. rewrite I2 by done.
      rewrite O2 by done. apply H0.
    - intros x. rewrite T2 by done. rewrite I2 by done.
      rewrite O2 by done. apply H0.
    - rewrite T2 by done. rewrite I2 by done. rewrite O2 by done. apply H0.
    - intros n. rewrite T3, I3, O3.
      assert (HG0 : n ∈ G_nodes G0 ↔ n = vS ∨ n = vT).
      { subst G0. cbn [add_node G_nodes]. set_solver. }
      rewrite HG0. split.
      + intros [[[Hn|(k & -> & Hk)]|(k & Hk & [-> | ->])]|(k & Hk & [-> | ->])];
          [tauto| |by left| | |by right; left].
        * right; right. exists k. tauto.
        * right; right. exists k. tauto.
        * right; right. exists k. tauto.
      + intros [-> |[-> |(k & -> & [Hk|[Hk|Hk]])]].
        * left; left; left. by left.
        * left; left; left. by right.
        * left; left; right. by exists k.
        * left; right. exists k. split; [done|by right].
        * right. exists k. split; [done|by left]. }
  cbv zeta. destruct (Hshape incoming outgoing) as (H1 & H2 & H3 & H4 & H5 & H6 & H7).
  do 7 (split; [done|]).
  intros TSG restricted_nodes v.
  destruct (Hshape
              (calculate_incoming_capacity_for_restricted_nodes TSG restricted_nodes)
              (calculate_outgoing_capacity_for_restricted_nodes TSG restricted_nodes))
    as (-> & _).
  apply incoming_capacity_lookup.
Qed.

(** ** The bookkeeping of the ledger *)

Lemma siphon_edges_within (vS_global_id vD_global_id : Z) (omega : list edge) :
  ∀ base,
    Forall (λ e : edge,
              base < (endpoints e).1 ≤ base + 2 * Z.of_nat (length omega)
              ∨ base < (endpoints e).2 ≤ base + 2 * Z.of_nat (length omega))
           (siphon_edges vS_global_id vD_global_id base omega).
Proof.
  induction omega as [|e omega IH]; intros base.
  - constructor.
  - rewrite siphon_edges_cons. apply Forall_app. split.
    + destruct e as [[[[u v] l] cap] cost]. cbn [replacement_edges length].
      repeat (constructor; [cbn [endpoints fst snd]; lia|]). constructor.
    + eapply Forall_impl; [apply IH|]. cbn [length]. intros x. cbn beta. lia.
Qed.

Lemma restriction_step_consistent `{Collaborators} (self : controller)
    (gp : graph_processor) (mx : Z) (restriction_item : restriction) :
  ledger_consistent self →
  (∀ k, k ∈ _all_additional_nodes self → k ≤ mx) →
  ledger_consistent (restriction_step (self, gp, mx) restriction_item).1.1
  ∧ (∀ k, k ∈ _all_additional_nodes
              (restriction_step (self, gp, mx) restriction_item).1.1 →
          k ≤ (restriction_step (self, gp, mx) restriction_item).2).
Proof.
  intros (Hdem & Htouch & Hiff & Hsize) Hbound.
  destruct (restriction_step_cases self gp mx restriction_item)
    as [[_ ->]|[(_ & _ & ->)|(_ & Hpos & self' & gp' & -> & Hg & _ & Hd)]];
    [done|done|].
  cbn [fst snd].
  set (omega := restriction_omega self gp restriction_item) in *.
  set (vf := restriction_virtual_flow self gp restriction_item) in *.
  destruct Hg as (_ & _ & Hedges & Hnodes & _).
  assert (Hin : ∀ k, k ∈ _all_additional_nodes self'
                     ↔ mx < k ≤ mx + 2 + 2 * Z.of_nat (length omega)
                       ∨ k ∈ _all_additional_nodes self).
  { intros k. rewrite Hnodes, elem_of_union, elem_of_list_to_set, elem_of_seqZ.
    split; (intros [?|?]; [left; lia|by right]). }
  assert (Hnone : ∀ k, mx < k → _virtual_node_demands self !! k = None).
  { intros k Hk. apply eq_None_not_Some. intros [v Hv].
    apply Hdem in Hv as [Hv _]. apply Hbound in Hv. lia. }
  split; [|intros k [?|?%Hbound]%Hin; lia].
  split; [|split; [|split]].
  - intros k v. rewrite Hd.
    destruct (decide (k = mx + 2)) as [->|Hne2].
    { rewrite lookup_insert_eq. intros [= <-]. split; [apply Hin; lia|lia]. }
    rewrite lookup_insert_ne by done.
    destruct (decide (k = mx + 1)) as [->|Hne1].
    { rewrite lookup_insert_eq. intros [= <-]. split; [apply Hin; lia|lia]. }
    rewrite lookup_insert_ne by done. intros Hv.
    destruct (Hdem k v Hv). split; [apply Hin; by right|done].
  - rewrite Hedges. apply Forall_app. split.
    + eapply Forall_impl; [exact Htouch|]. cbn beta. intros e.
      rewrite !Hin. tauto.
    + apply Forall_app. split.
      * eapply Forall_impl; [apply siphon_edges_within|]. cbn beta.
        intros e. rewrite !Hin. lia.
      * constructor; [|constructor]. cbn [endpoints fst snd]. left.
        apply Hin. lia.
  - rewrite Hedges. split.
    + intros Hnil. apply app_eq_nil in Hnil as [_ Hnil].
      by apply app_eq_nil in Hnil as [_ Hnil].
    + intros Hemp. assert (Hk : mx + 1 ∈ _all_additional_nodes self')
        by (apply Hin; lia).
      rewrite Hemp in Hk. by apply not_elem_of_empty in Hk.
  - rewrite Hedges, Hnodes, Hd, !length_app, siphon_edges_length.
    rewrite map_size_insert_None
      by (rewrite lookup_insert_ne by lia; apply Hnone; lia).
    rewrite map_size_insert_None by (apply Hnone; lia).
    rewrite size_union.
    2:{ intros k Hk1 Hk2. apply elem_of_list_to_set, elem_of_seqZ in Hk1.
        apply Hbound in Hk2. lia. }
    rewrite size_list_to_set by apply NoDup_seqZ.
    rewrite length_seqZ. cbn [length]. lia.
Qed.

Lemma foldl_restriction_step_consistent `{Collaborators} (batch : list restriction) :
  ∀ (self : controller) (gp : graph_processor) (mx : Z),
    ledger_consistent self →
    (∀ k, k ∈ _all_additional_nodes self → k ≤ mx) →
    ledger_consistent (foldl restriction_step (self, gp, mx) batch).1.1.
Proof.
  induction batch as [|r batch IH]; intros self gp mx Hc Hb; [done|].
  cbn [foldl].
  destruct (restriction_step_consistent self gp mx r Hc Hb) as [Hc' Hb'].
  destruct (restriction_step (self, gp, mx) r) as [[self' gp'] mx'].
  by apply IH.
Qed.

Lemma ledger_consistent_empty (self : controller) :
  _all_additional_nodes self = ∅ →
  _all_additional_edges self = [] →
  _virtual_node_demands self = ∅ →
  ledger_consistent self.
Proof.
  intros Hn He Hd. unfold ledger_consistent. rewrite Hn, He, Hd.
  split; [|split; [|split]]; [|constructor|done|done].
  intros k v Hk. by rewrite lookup_empty in Hk.
Qed.

(** X11.  The bookkeeping of the ledger is consistent in every
    controller that a run can hold: the keys of the demand map are
    recorded nodes with demands other than 0, every recorded edge
    touches a recorded node, edges are recorded exactly when nodes are,
    and twice the number of edges plus four times the number of demands
    is five times the number of nodes. *)
Theorem reachable_ledger_consistent `{Collaborators} (self : controller) :
  reachable self → ledger_consistent self.
Proof.
  induction 1 as [gp|self gp cache Hreach IH|self gp Hreach _
                  |self data Hreach IH|self g Hreach IH|self o Hreach IH];
    [by apply ledger_consistent_empty| |by apply ledger_consistent_empty|done..].
  unfold apply_restriction.
  case_bool_decide as Hvalid; [done|].
  unfold apply_batch.
  set (self0 := set_restrictions self cache) in *.
  destruct (reset_artifacts_ledger self0 gp) as (Hn1 & He1 & _ & _ & _ & Hd1).
  assert (Hstart : ledger_consistent (reset_artifacts self0 gp).1).
  { apply ledger_consistent_empty; [done..|].
    destruct Hd1 as [?|[-> Hnone]]; [done|].
    destruct IH as (Hdem & _ & Hiff & _).
    apply map_eq. intros k. rewrite lookup_empty. apply eq_None_not_Some.
    intros [v Hv]. apply Hdem in Hv as [Hv _].
    assert (Hz : _all_additional_nodes self = ∅) by (apply Hiff; exact Hnone).
    rewrite Hz in Hv. by apply not_elem_of_empty in Hv. }
  destruct (reset_artifacts self0 gp) as [self1 gp1]. cbn [fst snd] in *.
  pose proof (foldl_restriction_step_consistent (restrictions self1) self1 gp1
                (get_max_id gp1) Hstart) as Hloop.
  destruct (foldl restriction_step _ _) as [[self2 gp2] mx2].
  cbn [fst] in *. apply Hloop. intros k Hk. rewrite Hn1 in Hk.
  by apply not_elem_of_empty in Hk.
Qed.

Lemma reachable_ledger_consistent_witness :
  ledger_consistent
    (apply_restriction (init test_graph) test_graph
       [corridor_restriction; waiting_restriction]).1.
Proof.
  exact (reachable_ledger_consistent _
           (reachable_apply _ test_graph
              [corridor_restriction; waiting_restriction]
              (reachable_init test_graph))).
Defined.

(** ** The edge list across an apply and a cleanup *)

Lemma remove_artificial_artifact_ts_edges (self : controller) (gp : graph_processor) :
  ts_edges (remove_artificial_artifact self gp).2
  = filter (λ e : edge,
              endpoints e
                ∉ (list_to_set (endpoints <$> _all_additional_edges self) : gset (Z * Z)))
           (ts_edges gp)
    ++ (if decide (_all_additional_edges self = []) then []
        else elements (list_to_set (_omega self) : gset edge)).
Proof.
  unfold remove_artificial_artifact. cbn zeta.
  set (gp1 := if bool_decide (_all_additional_nodes self ≠ ∅) then _ else gp).
  assert (He1 : ts_edges gp1 = ts_edges gp) by (subst gp1; by case_bool_decide).
  clearbody gp1.
  destruct (decide (_all_additional_edges self = [])) as [Hnil|Hne].
  - rewrite Hnil. cbn [fmap list_fmap list_to_set foldr existsb].
    rewrite (bool_decide_eq_false_2 ([] ≠ [])) by (intros Hx; by apply Hx).
    rewrite filter_none by (apply Forall_forall; by intros).
    rewrite (bool_decide_eq_false_2 (list_to_set [] ≠ ∅))
      by (intros Hx; by apply Hx).
    cbn [snd]. rewrite He1, app_nil_r. symmetry. apply filter_all.
    apply Forall_forall. intros e _. apply not_elem_of_empty.
  - rewrite (bool_decide_eq_true_2 _ Hne).
    rewrite existsb_own_endpoints by done.
    rewrite filter_all by (apply Forall_forall; by intros).
    case_bool_decide as Hre; cbn [snd set_ts_edges ts_edges]; rewrite He1.
    + done.
    + rewrite Hre, elements_empty, app_nil_r. done.
Qed.

Lemma commit_ts_edges (self : controller) (gp : graph_processor) :
  ts_edges (commit self gp)
  = if decide (_all_additional_edges self = []) then ts_edges gp
    else filter (λ e : edge,
                   endpoints e ∉ (list_to_set (endpoints <$> _omega self) : gset (Z * Z)))
                (ts_edges gp)
         ++ _all_additional_edges self.
Proof.
  unfold commit. case_bool_decide as Hne.
  - by rewrite decide_False by done.
  - by rewrite decide_True.
Qed.

(** On a graph whose lower bounds are 0, the omega edges of a batch are
    the edges of the graph that share their endpoints with one of them. *)
Lemma batch_omega_edges (self : controller) (gp : graph_processor)
    (batch : list restriction) (e : edge) :
  (∀ e' : edge, e' ∈ ts_edges gp → zero_lower_bound e' = e') →
  e ∈ concat (restriction_omega self gp <$> batch)
  ↔ e ∈ ts_edges gp
    ∧ endpoints e ∈ endpoints <$> concat (restriction_omega self gp <$> batch).
Proof.
  intros Hzero. split.
  - intros He. split; [|by apply list_elem_of_fmap_2].
    apply elem_of_concat in He as (l & He & Hl).
    apply list_elem_of_fmap in Hl as (r & -> & Hr).
    rewrite restriction_omega_filter in He.
    apply list_elem_of_fmap in He as (e' & -> & He').
    apply list_elem_of_filter in He' as [_ He'].
    by rewrite (Hzero e' He').
  - intros [He Hpair].
    apply list_elem_of_fmap in Hpair as (o & Hpair & Ho).
    apply elem_of_concat in Ho as (l & Ho & Hl).
    apply list_elem_of_fmap in Hl as (r & -> & Hr).
    apply elem_of_concat. exists (restriction_omega self gp r).
    split; [|by apply list_elem_of_fmap_2].
    rewrite restriction_omega_filter in *.
    apply list_elem_of_fmap in Ho as (e'' & -> & He'').
    apply list_elem_of_filter in He'' as [Hmatch He''].
    rewrite endpoints_zero_lower_bound in Hpair.
    apply list_elem_of_fmap. exists e.
    split; [by rewrite (Hzero e He)|].
    apply list_elem_of_filter. split; [|done].
    by rewrite (restriction_matches_endpoints self r e e'').
Qed.

(** X12.  From an empty ledger and on a well-formed graph whose edge
    list has no repeated edge, the edge list after an apply followed by
    a cleanup is a rearrangement of the original one: no edge is lost or
    doubled, the edges that matched no restriction keep their relative
    order at the front, and the restored omega edges follow them. *)
Theorem cleanup_restores_edge_list `{Collaborators} (self : controller)
    (gp : graph_processor) (restrictions_data_cache : list restriction) :
  let applied := apply_restriction self gp restrictions_data_cache in
  let cleaned := remove_artificial_artifact applied.1 applied.2 in
  ledger_empty self →
  graph_well_formed gp →
  NoDup (ts_edges gp) →
  ts_edges cleaned.2 ≡ₚ ts_edges gp
  ∧ length (ts_edges cleaned.2) = length (ts_edges gp)
  ∧ NoDup (ts_edges cleaned.2)
  ∧ ∃ kept restored : list edge,
      ts_edges cleaned.2 = kept ++ restored
      ∧ sublist kept (ts_edges gp)
      ∧ (∀ e : edge, e ∈ restored → e ∈ _omega applied.1).
Proof.
  intros applied cleaned (Hn0 & He0 & Ho0 & Hd0) (Hwf_nodes & Hwf_map & Hwf_edges) Hnd.
  cut (ts_edges cleaned.2 ≡ₚ ts_edges gp
       ∧ ∃ kept restored : list edge,
           ts_edges cleaned.2 = kept ++ restored
           ∧ sublist kept (ts_edges gp)
           ∧ (∀ e : edge, e ∈ restored → e ∈ _omega applied.1)).
  { intros [Hp Hex]. split; [done|]. split; [by rewrite Hp|].
    split; [by rewrite Hp|done]. }
  subst cleaned. rewrite remove_artificial_artifact_ts_edges.
  set (self0 := set_restrictions self restrictions_data_cache).
  subst applied. unfold apply_restriction. fold self0.
  case_bool_decide as Hvalid.
  { cbn [fst snd]. change (_all_additional_edges self0) with (_all_additional_edges self).
    rewrite He0. rewrite decide_True by done. rewrite app_nil_r.
    rewrite filter_all
      by (apply Forall_forall; intros e _; apply not_elem_of_empty).
    split; [done|]. exists (ts_edges gp), []. rewrite app_nil_r.
    split; [done|]. split; [done|]. by intros e ?%elem_of_nil. }
  destruct (apply_batch_grows self0 gp)
    as (self2 & gp2 & mx2 & n & new_edges & -> & Hg & Hl).
  assert (reset_artifacts self0 gp = (self0, gp)) as Hreset.
  { unfold reset_artifacts. simpl. rewrite Hn0, He0.
    rewrite !bool_decide_eq_false_2 by (intros Hne; by apply Hne). done. }
  rewrite Hreset in Hg, Hl. cbn [fst snd] in Hg, Hl.
  set (seed := get_max_id gp) in *.
  destruct Hg as (_ & _ & Hedges & _ & _ & Hte & _).
  destruct Hl as (Homega & Hfresh & _).
  change (_all_additional_edges self0) with (_all_additional_edges self) in Hedges.
  change (_omega self0) with (_omega self) in Homega.
  rewrite He0 in Hedges. rewrite Ho0 in Homega. cbn [app] in Hedges, Homega.
  cbn [fst snd]. rewrite commit_ts_edges, Hte, Hedges, Homega.
  set (Omega := concat (restriction_omega self0 gp <$> restrictions self0)) in *.
  assert (Hbatch : ∀ e, e ∈ Omega
                        ↔ e ∈ ts_edges gp ∧ endpoints e ∈ endpoints <$> Omega).
  { intros e. apply batch_omega_edges. intros e' He'. by apply Hwf_edges. }
  destruct (decide (new_edges = [])) as [Hnil|Hne].
  { rewrite Hnil. cbn [fmap list_fmap list_to_set foldr]. rewrite app_nil_r.
    rewrite filter_all
      by (apply Forall_forall; intros e _; apply not_elem_of_empty).
    split; [done|]. exists (ts_edges gp), []. rewrite app_nil_r.
    split; [done|]. split; [done|]. by intros e ?%elem_of_nil. }
  rewrite filter_app.
  rewrite (filter_none _ new_edges).
  2:{ apply Forall_forall. intros a Ha Hnot. apply Hnot.
      apply elem_of_list_to_set. by apply list_elem_of_fmap_2. }
  rewrite app_nil_r.
  rewrite (filter_all _ (filter _ (ts_edges gp))).
  2:{ apply Forall_forall. intros e He Hin.
      apply list_elem_of_filter in He as [_ He].
      apply elem_of_list_to_set, list_elem_of_fmap in Hin as (a & Hpair & Ha).
      apply (proj1 (Forall_forall _ _) Hfresh) in Ha.
      destruct (Hwf_edges e He) as (H1 & H2 & _). rewrite Hpair in H1, H2.
      fold seed in H1, H2. lia. }
  split.
  - etransitivity; [|apply (filter_app_complement
                              (λ e : edge, endpoints e
                                 ∉ (list_to_set (endpoints <$> Omega) : gset (Z * Z))))].
    apply Permutation_app_head.
    apply NoDup_Permutation; [apply NoDup_elements|by apply NoDup_filter|].
    intros e. rewrite elem_of_elements, elem_of_list_to_set, list_elem_of_filter.
    rewrite Hbatch, elem_of_list_to_set. split.
    + intros [He Hpair]. split; [|done]. by intros Hnot.
    + intros [Hpair He]. split; [done|]. by apply dec_stable.
  - eexists _, _. split; [done|]. split; [apply sublist_filter|].
    intros e. by rewrite elem_of_elements, elem_of_list_to_set.
Qed.

Lemma cleanup_restores_edge_list_witness :
  let applied :=
    apply_restriction (init test_graph) test_graph
                      [corridor_restriction; waiting_restriction] in
  let cleaned := remove_artificial_artifact applied.1 applied.2 in
  ts_edges cleaned.2 ≡ₚ ts_edges test_graph
  ∧ length (ts_edges cleaned.2) = length (ts_edges test_graph).
Proof.
  assert (ledger_empty (init test_graph)) as Hempty by done.
  assert (NoDup (ts_edges test_graph)) as Hnodup by compute_done.
  destruct (cleanup_restores_edge_list (init test_graph) test_graph
              [corridor_restriction; waiting_restriction]
              Hempty test_graph_well_formed Hnodup)
    as (Hperm & Hlen & _).
  exact (conj Hperm Hlen).
Defined.

(** ** Weakly connected subgraphs of omega *)

Lemma reaches_is_root parent u r n : reaches parent u r n → parent !! r = Some r.
Proof. induction 1; done. Qed.

Lemma reaches_dom parent u r n : reaches parent u r n → is_Some (parent !! u).
Proof. destruct 1; by eexists. Qed.

Lemma reaches_fun parent u r n r' n' :
  reaches parent u r n → reaches parent u r' n' → r = r' ∧ n = n'.
Proof.
  intros H. revert r' n'. induction H as [r Hr|u p r n Hu Hne _ IH]; intros r' n' H'.
  - destruct H' as [r' Hr'|u' p' r' n' Hu' Hne' _]; [done|]. congruence.
  - destruct H' as [r' Hr'|u' p' r' n' Hu' Hne' H']; [congruence|].
    assert (p' = p) as -> by congruence.
    destruct (IH _ _ H') as [-> ->]. done.
Qed.

(** Re-attaching [u] to its root keeps every root and lengthens no chain. *)
Lemma reaches_compress parent u r n x r' m :
  reaches parent u r n →
  reaches parent x r' m →
  ∃ m', (m' ≤ m)%nat ∧ reaches (<[u := r]> parent) x r' m'.
Proof.
  intros Hu Hx. induction Hx as [r' Hr'|x q r' m Hx Hne Hq (m' & Hm' & IH)].
  - exists 0%nat. split; [done|]. constructor.
    destruct (decide (r' = u)) as [->|Hneq].
    + destruct (reaches_fun _ _ _ _ _ _ Hu (reaches_root _ _ Hr')) as [-> _].
      by rewrite lookup_insert_eq.
    + by rewrite lookup_insert_ne.
  - destruct (decide (x = u)) as [->|Hneq].
    + destruct (reaches_fun _ _ _ _ _ _ Hu (reaches_step _ _ _ _ _ Hx Hne Hq))
        as [-> ->].
      pose proof (reaches_is_root _ _ _ _ Hq) as Hroot.
      assert (r' ≠ u) by congruence.
      exists 1%nat. split; [lia|].
      eapply reaches_step; [by rewrite lookup_insert_eq|done|].
      constructor. by rewrite lookup_insert_ne.
    + exists (S m'). split; [lia|].
      eapply reaches_step; [by rewrite lookup_insert_ne|done|done].
Qed.

Lemma compressed_refl parent : compressed parent parent.
Proof. split; [done|]. intros x r m H. by exists m. Qed.

Lemma compressed_trans p1 p2 p3 :
  compressed p1 p2 → compressed p2 p3 → compressed p1 p3.
Proof.
  intros [Hd1 Hr1] [Hd2 Hr2]. split.
  - intros x. by rewrite Hd2, Hd1.
  - intros x r m H. destruct (Hr1 _ _ _ H) as (m1 & Hm1 & H1).
    destruct (Hr2 _ _ _ H1) as (m2 & Hm2 & H2). exists m2. split; [lia|done].
Qed.

Lemma find_reaches parent u r n :
  reaches parent u r n →
  ∀ fuel, (n < fuel)%nat →
    ∃ parent', UnionFind.find fuel parent u = Some (parent', r) ∧ compressed parent parent'.
Proof.
  induction 1 as [r Hr|u p r n Hu Hne Hp IH]; intros fuel Hfuel.
  - destruct fuel as [|fuel]; [lia|]. cbn [UnionFind.find]. rewrite Hr. cbn.
    rewrite bool_decide_eq_false_2 by (intros Hx; by apply Hx).
    eexists. split; [done|apply compressed_refl].
  - destruct fuel as [|fuel]; [lia|]. cbn [UnionFind.find]. rewrite Hu. cbn.
    rewrite bool_decide_eq_true_2 by done.
    destruct (IH fuel) as (parent1 & -> & Hd1 & Hr1); [lia|]. cbn.
    eexists. split; [done|].
    destruct (Hr1 _ _ _ (reaches_step _ _ _ _ _ Hu Hne Hp)) as (n1 & _ & Hu1).
    split.
    + intros x. destruct (decide (x = u)) as [->|Hneq].
      * rewrite lookup_insert_eq. split; [intros _; by eexists|by eexists].
      * by rewrite lookup_insert_ne.
    + intros x r' m Hx. destruct (Hr1 _ _ _ Hx) as (m1 & Hm1 & Hx1).
      destruct (reaches_compress _ _ _ _ _ _ _ Hu1 Hx1) as (m2 & Hm2 & Hx2).
      exists m2. split; [lia|done].
Qed.

#[local] Instance weakly_connected_equiv (graph : list edge) :
  Equivalence (weakly_connected graph).
Proof. apply rtsc_equivalence. Qed.

Lemma weakly_connected_mono (g g' : list edge) (x y : Z) :
  (∀ e, e ∈ g → e ∈ g') → weakly_connected g x y → weakly_connected g' x y.
Proof.
  intros Hsub. apply (rtsc_congruence (λ z, z)).
  intros a b (e & He & Hab). exists e. split; [by apply Hsub|done].
Qed.

Lemma weakly_connected_isolated (g : list edge) (u y : Z) :
  (∀ e, e ∈ g → (endpoints e).1 ≠ u ∧ (endpoints e).2 ≠ u) →
  weakly_connected g u y → u = y.
Proof.
  intros Hiso H. apply (rtsc_nf _ _ H).
  intros [z [(e & He & Hp)|(e & He & Hp)]];
    destruct (Hiso e He) as [H1 H2]; rewrite Hp in H1, H2; by cbn in *.
Qed.

Lemma weakly_connected_snoc (g : list edge) (e : edge) (u v x y : Z) :
  endpoints e = (u, v) →
  weakly_connected (g ++ [e]) x y
  ↔ weakly_connected g x y
    ∨ (weakly_connected g x u ∧ weakly_connected g v y)
    ∨ (weakly_connected g x v ∧ weakly_connected g u y).
Proof.
  intros He. split.
  - intros H. induction H as [x|x z y Hxz _ IH]; [by left|].
    assert (Hstep : weakly_connected g x z ∨ (x = u ∧ z = v) ∨ (x = v ∧ z = u)).
    { destruct Hxz as [(e' & He' & Hp)|(e' & He' & Hp)];
        apply elem_of_app in He' as [He'|He'].
      - left. apply rtsc_lr. by exists e'.
      - apply list_elem_of_singleton in He' as ->. rewrite He in Hp.
        right; left. by injection Hp as -> ->.
      - left. apply rtsc_rl. by exists e'.
      - apply list_elem_of_singleton in He' as ->. rewrite He in Hp.
        right; right. by injection Hp as -> ->. }
    destruct Hstep as [Hold|[[-> ->]|[-> ->]]].
    + destruct IH as [IH|[[IH1 IH2]|[IH1 IH2]]].
      * left. by etransitivity.
      * right; left. split; [by etransitivity|done].
      * right; right. split; [by etransitivity|done].
    + destruct IH as [IH|[[IH1 IH2]|[IH1 IH2]]].
      * right; left. split; [reflexivity|done].
      * right; left. split; [reflexivity|done].
      * by left.
    + destruct IH as [IH|[[IH1 IH2]|[IH1 IH2]]].
      * right; right. split; [reflexivity|done].
      * by left.
      * right; right. split; [reflexivity|done].
  - assert (Hsub : ∀ a b, weakly_connected g a b → weakly_connected (g ++ [e]) a b).
    { intros a b. apply weakly_connected_mono. intros e' He'.
      apply elem_of_app. by left. }
    assert (Huv : weakly_connected (g ++ [e]) u v).
    { apply rtsc_lr. exists e. split; [|done]. apply elem_of_app. right.
      by apply list_elem_of_singleton. }
    intros [H|[[H1 H2]|[H1 H2]]].
    + by apply Hsub.
    + etransitivity; [by apply Hsub|]. etransitivity; [exact Huv|by apply Hsub].
    + etransitivity; [by apply Hsub|]. etransitivity; [symmetry; exact Huv|].
      by apply Hsub.
Qed.

Lemma union_find_compressed parent parent' graph k :
  union_find parent graph k → compressed parent parent' →
  union_find parent' graph k.
Proof.
  intros (Hf & Hc & Hcov) [Hd Hr]. split; [|split].
  - intros x Hx. apply Hd in Hx. destruct (Hf x Hx) as (r & n & Hn & H).
    destruct (Hr _ _ _ H) as (n' & Hn' & H'). exists r, n'. split; [lia|done].
  - intros x y rx ry nx ny Hx Hy.
    destruct (Hf x) as (rx0 & nx0 & _ & Hx0);
      [apply Hd; by eapply reaches_dom|].
    destruct (Hf y) as (ry0 & ny0 & _ & Hy0);
      [apply Hd; by eapply reaches_dom|].
    destruct (Hr _ _ _ Hx0) as (nx1 & _ & Hx1).
    destruct (Hr _ _ _ Hy0) as (ny1 & _ & Hy1).
    destruct (reaches_fun _ _ _ _ _ _ Hx Hx1) as [-> _].
    destruct (reaches_fun _ _ _ _ _ _ Hy Hy1) as [-> _].
    by eapply Hc.
  - intros e He. rewrite !Hd. by apply Hcov.
Qed.

Lemma reaches_insert_fresh parent u x r n :
  parent !! u = None → reaches parent x r n → reaches (<[u := u]> parent) x r n.
Proof.
  intros Hu. induction 1 as [r Hr|x p r n Hx Hne _ IH].
  - constructor. rewrite lookup_insert_ne by congruence. done.
  - eapply reaches_step; [|done|done]. rewrite lookup_insert_ne by congruence. done.
Qed.

Lemma union_find_insert_fresh parent graph k u :
  union_find parent graph k → parent !! u = None →
  union_find (<[u := u]> parent) graph k.
Proof.
  intros (Hf & Hc & Hcov) Hu.
  assert (Hiso : ∀ e, e ∈ graph → (endpoints e).1 ≠ u ∧ (endpoints e).2 ≠ u).
  { intros e He. destruct (Hcov e He) as [[? H1] [? H2]]. split; congruence. }
  assert (Hself : reaches (<[u := u]> parent) u u 0).
  { constructor. by rewrite lookup_insert_eq. }
  assert (Hold : ∀ x rx nx, reaches (<[u := u]> parent) x rx nx → x ≠ u →
            ∃ n, reaches parent x rx n ∧ rx ≠ u).
  { intros x rx nx Hx Hne.
    destruct (Hf x) as (r & n & _ & H).
    { apply reaches_dom in Hx. by rewrite lookup_insert_ne in Hx. }
    pose proof (reaches_insert_fresh _ u _ _ _ Hu H) as H'.
    destruct (reaches_fun _ _ _ _ _ _ Hx H') as [-> _].
    exists n. split; [done|]. apply reaches_is_root in H. congruence. }
  split; [|split].
  - intros x Hx. destruct (decide (x = u)) as [->|Hne].
    + exists u, 0%nat. split; [lia|done].
    + rewrite lookup_insert_ne in Hx by done.
      destruct (Hf x Hx) as (r & n & Hn & H). exists r, n. split; [done|].
      by apply reaches_insert_fresh.
  - intros x y rx ry nx ny Hx Hy.
    destruct (decide (x = u)) as [->|Hxu]; destruct (decide (y = u)) as [->|Hyu].
    + destruct (reaches_fun _ _ _ _ _ _ Hx Hself) as [-> _].
      destruct (reaches_fun _ _ _ _ _ _ Hy Hself) as [-> _]. done.
    + destruct (reaches_fun _ _ _ _ _ _ Hx Hself) as [-> _].
      destruct (Hold _ _ _ Hy Hyu) as (n & _ & Hne). split; [congruence|].
      intros H%weakly_connected_isolated; [congruence|done].
    + destruct (reaches_fun _ _ _ _ _ _ Hy Hself) as [-> _].
      destruct (Hold _ _ _ Hx Hxu) as (n & _ & Hne). split; [congruence|].
      intros H. symmetry in H. apply weakly_connected_isolated in H; [congruence|done].
    + destruct (Hold _ _ _ Hx Hxu) as (n1 & Hx0 & _).
      destruct (Hold _ _ _ Hy Hyu) as (n2 & Hy0 & _). by eapply Hc.
  - intros e He. destruct (Hcov e He) as [H1 H2]. split.
    + destruct (decide ((endpoints e).1 = u)) as [->|?];
        [rewrite lookup_insert_eq; by eexists|by rewrite lookup_insert_ne].
    + destruct (decide ((endpoints e).2 = u)) as [->|?];
        [rewrite lookup_insert_eq; by eexists|by rewrite lookup_insert_ne].
Qed.

Lemma reaches_link parent pu pv x r n :
  parent !! pu = Some pu → parent !! pv = Some pv → pu ≠ pv →
  reaches parent x r n →
  reaches (<[pu := pv]> parent) x (if decide (r = pu) then pv else r)
          (if decide (r = pu) then S n else n).
Proof.
  intros Hpu Hpv Hne. induction 1 as [r Hr|x p r n Hx Hnp _ IH].
  - case_decide as Hd.
    + subst r. eapply reaches_step; [by rewrite lookup_insert_eq|done|].
      constructor. by rewrite lookup_insert_ne.
    + constructor. by rewrite lookup_insert_ne.
  - assert (x ≠ pu) by congruence.
    case_decide; (eapply reaches_step; [by rewrite lookup_insert_ne|done|done]).
Qed.

Lemma union_find_union (fuel : nat) (parent : gmap Z Z) (graph : list edge)
    (k : nat) (e : edge) (u v : Z) :
  endpoints e = (u, v) →
  union_find parent graph k → (k < fuel)%nat →
  is_Some (parent !! u) → is_Some (parent !! v) →
  ∃ parent', UnionFind.union fuel parent u v = Some parent'
             ∧ union_find parent' (graph ++ [e]) (S k).
Proof.
  intros He Huf Hfuel Hu Hv. unfold UnionFind.union.
  destruct (proj1 Huf u Hu) as (pu & nu & Hnu & Hru).
  destruct (find_reaches _ _ _ _ Hru fuel) as (parent1 & -> & Hc1); [lia|].
  cbn. pose proof (union_find_compressed _ _ _ _ Huf Hc1) as Huf1.
  destruct (proj1 Huf1 v) as (pv & nv & Hnv & Hrv); [by apply Hc1|].
  destruct (find_reaches _ _ _ _ Hrv fuel) as (parent2 & -> & Hc2); [lia|].
  cbn. pose proof (union_find_compressed _ _ _ _ Huf1 Hc2) as Huf2.
  destruct (proj2 Hc1 _ _ _ Hru) as (nu1 & _ & Hru1).
  destruct (proj2 Hc2 _ _ _ Hru1) as (nu2 & _ & Hru2).
  destruct (proj2 Hc2 _ _ _ Hrv) as (nv2 & _ & Hrv2).
  clear Hru Hru1 Hrv Huf Huf1 Hc1 Hc2 Hu Hv parent parent1.
  destruct Huf2 as (Hf & Hc & Hcov).
  eexists. split; [done|].
  assert (Hroots : ∀ x rx nx, reaches parent2 x rx nx →
            ∀ y ry ny, reaches parent2 y ry ny →
            (rx = ry ∨ (rx = pu ∧ pv = ry) ∨ (rx = pv ∧ pu = ry))
            ↔ weakly_connected (graph ++ [e]) x y).
  { intros x rx nx Hx y ry ny Hy. rewrite (weakly_connected_snoc _ _ _ _ _ _ He).
    rewrite <- (Hc _ _ _ _ _ _ Hx Hy), <- (Hc _ _ _ _ _ _ Hx Hru2),
      <- (Hc _ _ _ _ _ _ Hrv2 Hy), <- (Hc _ _ _ _ _ _ Hx Hrv2),
      <- (Hc _ _ _ _ _ _ Hru2 Hy). done. }
  assert (Hcov' : ∀ parent', (∀ x, is_Some (parent2 !! x) → is_Some (parent' !! x)) →
            covered parent' (graph ++ [e])).
  { intros parent' Hd e' He'. apply elem_of_app in He' as [He'|He'].
    - destruct (Hcov e' He'). split; by apply Hd.
    - apply list_elem_of_singleton in He' as ->. rewrite He. cbn.
      split; apply Hd; by eapply reaches_dom. }
  case_bool_decide as Hne.
  - pose proof (reaches_is_root _ _ _ _ Hru2) as Hpu.
    pose proof (reaches_is_root _ _ _ _ Hrv2) as Hpv.
    assert (Hd : ∀ x, is_Some (<[pu := pv]> parent2 !! x) ↔ is_Some (parent2 !! x)).
    { intros x. destruct (decide (x = pu)) as [->|?].
      - rewrite lookup_insert_eq, Hpu. split; by eexists.
      - by rewrite lookup_insert_ne. }
    split; [|split].
    + intros x Hx. apply Hd in Hx. destruct (Hf x Hx) as (r & n & Hn & H).
      pose proof (reaches_link _ _ _ _ _ _ Hpu Hpv Hne H) as H'.
      eexists _, _. split; [|exact H']. case_decide; lia.
    + intros x y rx ry nx ny Hx Hy.
      destruct (Hf x) as (rx0 & nx0 & _ & Hx0); [apply Hd; by eapply reaches_dom|].
      destruct (Hf y) as (ry0 & ny0 & _ & Hy0); [apply Hd; by eapply reaches_dom|].
      pose proof (reaches_link _ _ _ _ _ _ Hpu Hpv Hne Hx0) as Hx1.
      pose proof (reaches_link _ _ _ _ _ _ Hpu Hpv Hne Hy0) as Hy1.
      destruct (reaches_fun _ _ _ _ _ _ Hx Hx1) as [-> _].
      destruct (reaches_fun _ _ _ _ _ _ Hy Hy1) as [-> _].
      rewrite <- (Hroots _ _ _ Hx0 _ _ _ Hy0).
      repeat case_decide; split; intros; try tauto; try congruence;
        intuition congruence.
    + apply Hcov'. intros x. by rewrite Hd.
  - subst pv.
    split; [|split].
    + intros x Hx. destruct (Hf x Hx) as (r & n & Hn & H). exists r, n.
      split; [lia|done].
    + intros x y rx ry nx ny Hx Hy. rewrite <- (Hroots _ _ _ Hx _ _ _ Hy).
      intuition congruence.
    + by apply Hcov'.
Qed.

Lemma union_find_union_step (fuel : nat) (parent : gmap Z Z) (graph : list edge)
    (k : nat) (e : edge) :
  union_find parent graph k → (k < fuel)%nat →
  ∃ parent', union_step fuel parent e = Some parent'
             ∧ union_find parent' (graph ++ [e]) (S k).
Proof.
  intros Huf Hfuel. destruct e as [[[[u v] l] c] w]. cbn [union_step].
  set (parent1 := if bool_decide (parent !! u = None) then _ else parent).
  assert (union_find parent1 graph k ∧ is_Some (parent1 !! u)) as [Huf1 Hu].
  { subst parent1. case_bool_decide as Hn.
    - split; [by apply union_find_insert_fresh|].
      rewrite lookup_insert_eq. by eexists.
    - split; [done|]. by apply not_eq_None_Some. }
  clearbody parent1.
  set (parent2 := if bool_decide (parent1 !! v = None) then _ else parent1).
  assert (union_find parent2 graph k ∧ is_Some (parent2 !! u)
          ∧ is_Some (parent2 !! v)) as (Huf2 & Hu2 & Hv2).
  { subst parent2. case_bool_decide as Hn.
    - split; [by apply union_find_insert_fresh|].
      rewrite lookup_insert_eq. split; [|by eexists].
      rewrite lookup_insert_ne; [done|]. intros ->. rewrite Hn in Hu.
      by destruct Hu.
    - split; [done|]. split; [done|]. by apply not_eq_None_Some. }
  clearbody parent2.
  by apply (union_find_union fuel parent2 graph k (u, v, l, c, w) u v).
Qed.

Lemma union_find_empty : union_find ∅ [] 0.
Proof.
  split; [|split].
  - intros x [? Hx]. by rewrite lookup_empty in Hx.
  - intros x y rx ry nx ny Hx. apply reaches_dom in Hx as [? Hx].
    by rewrite lookup_empty in Hx.
  - intros e He. by apply elem_of_nil in He.
Qed.

Lemma union_find_loop (fuel : nat) (rest : list edge) :
  ∀ (parent : gmap Z Z) (seen : list edge) (k : nat),
    union_find parent seen k → (k + length rest < fuel)%nat →
    ∃ parent',
      foldl (λ st e, parent ← st; union_step fuel parent e) (Some parent) rest
      = Some parent'
      ∧ union_find parent' (seen ++ rest) (k + length rest).
Proof.
  induction rest as [|e rest IH]; intros parent done' k Huf Hfuel.
  - exists parent. rewrite app_nil_r, Nat.add_0_r. done.
  - cbn [foldl length] in *. cbn [mbind option_bind].
    destruct (union_find_union_step fuel parent done' k e Huf) as (parent1 & -> & Huf1);
      [lia|].
    destruct (IH parent1 (done' ++ [e]) (S k) Huf1) as (parent' & -> & Huf');
      [lia|].
    exists parent'. split; [done|].
    rewrite <- app_assoc in Huf'. cbn [app] in Huf'.
    by replace (k + S (length rest))%nat with (S k + length rest)%nat by lia.
Qed.

Lemma components_append_keys (components : list (Z * list edge)) (root : Z) (e : edge) :
  (components_append components root e).*1
  = if decide (root ∈ components.*1) then components.*1
    else components.*1 ++ [root].
Proof.
  induction components as [|[k l] components IH]; [done|].
  cbn [components_append]. case_bool_decide as Hk.
  - subst k. cbn [fmap list_fmap fst]. rewrite decide_True by (by left). done.
  - cbn [fmap list_fmap fst] in *. rewrite IH.
    destruct (decide (root ∈ components.*1)) as [Hin|Hout].
    + rewrite decide_True by (by right). done.
    + rewrite decide_False; [done|]. intros [->|?]%elem_of_cons; done.
Qed.

Lemma components_append_elem (components : list (Z * list edge)) (root : Z)
    (e : edge) (k : Z) (l : list edge) :
  (k, l) ∈ components_append components root e →
  (k, l) ∈ components
  ∨ (k = root ∧ ∃ l0, l = l0 ++ [e] ∧ (l0 = [] ∨ (root, l0) ∈ components)).
Proof.
  induction components as [|[k' l'] components IH]; cbn [components_append].
  - intros Hin. apply list_elem_of_singleton in Hin. injection Hin as -> ->.
    right. split; [done|]. exists []. split; [done|by left].
  - case_bool_decide as Hk.
    + subst k'. intros [[= -> ->]|Hin]%elem_of_cons.
      * right. split; [done|]. exists l'. split; [done|]. right. by left.
      * left. by right.
    + intros [[= -> ->]|Hin]%elem_of_cons; [left; by left|].
      destruct (IH Hin) as [?|(-> & l0 & -> & [->|?])].
      * left. by right.
      * right. split; [done|]. exists []. split; [done|by left].
      * right. split; [done|]. exists l0. split; [done|]. right. by right.
Qed.

Lemma components_append_concat (components : list (Z * list edge)) (root : Z)
    (e : edge) :
  concat (components_append components root e).*2 ≡ₚ concat components.*2 ++ [e].
Proof.
  induction components as [|[k l] components IH]; [done|].
  cbn [components_append]. case_bool_decide as Hk; cbn [fmap list_fmap snd concat].
  - rewrite <- !app_assoc. apply Permutation_app_head, Permutation_app_comm.
  - cbn [fmap list_fmap snd concat] in IH. rewrite IH. by rewrite app_assoc.
Qed.

Lemma grouped_append parent0 components done' root e n :
  grouped parent0 components done' →
  reaches parent0 (endpoints e).1 root n →
  grouped parent0 (components_append components root e) (done' ++ [e]).
Proof.
  intros (Hnd & Hall & Hperm) Hroot. split; [|split].
  - rewrite components_append_keys. case_decide as Hin; [done|].
    apply NoDup_app. split; [done|]. split; [|apply NoDup_singleton].
    intros x Hx ->%list_elem_of_singleton. done.
  - intros k l [Hin|(-> & l0 & -> & Hl0)]%components_append_elem.
    + destruct (Hall k l Hin) as (Hne & Hsub & Hr). split; [done|].
      split; [by apply sublist_inserts_r|done].
    + split; [by destruct l0|]. split.
      * destruct Hl0 as [->|Hin]; [by apply sublist_inserts_l|].
        destruct (Hall root l0 Hin) as (_ & Hsub & _).
        by apply sublist_app.
      * intros e' [He' | ->%list_elem_of_singleton]%elem_of_app; [|by exists n].
        destruct Hl0 as [->|Hin]; [by apply elem_of_nil in He'|].
        destruct (Hall root l0 Hin) as (_ & _ & Hr). by apply Hr.
  - rewrite components_append_concat. by rewrite Hperm.
Qed.

Lemma group_loop (fuel : nat) (parent0 : gmap Z Z) (k : nat) (rest : list edge) :
  forest parent0 k → (k < fuel)%nat →
  ∀ (parent : gmap Z Z) (components : list (Z * list edge)) (seen : list edge),
    compressed parent0 parent →
    grouped parent0 components seen →
    (∀ e, e ∈ rest → is_Some (parent0 !! (endpoints e).1)) →
    ∃ st, foldl (λ st e, st ← st; group_step fuel st e)
                (Some (parent, components)) rest = Some st
          ∧ grouped parent0 st.2 (seen ++ rest).
Proof.
  intros Hf Hfuel.
  induction rest as [|e rest IH]; intros parent components done' Hc Hg Hdom.
  - exists (parent, components). rewrite app_nil_r. done.
  - cbn [foldl]. cbn [mbind option_bind group_step].
    destruct (Hf (endpoints e).1) as (r & n & Hn & Hr); [apply Hdom; by left|].
    destruct (proj2 Hc _ _ _ Hr) as (n' & Hn' & Hr').
    destruct (find_reaches _ _ _ _ Hr' fuel) as (parent1 & -> & Hc1); [lia|].
    cbn [mbind option_bind].
    destruct (IH parent1 (components_append components r e) (done' ++ [e]))
      as (st & -> & Hst).
    + by eapply compressed_trans.
    + by eapply grouped_append.
    + intros e' He'. apply Hdom. by right.
    + exists st. split; [done|]. by rewrite <- app_assoc in Hst.
Qed.

Lemma foldl_mbind_None {A B : Type} (f : A → B → option A) (l : list B) :
  foldl (λ st e, x ← st; f x e) None l = None.
Proof. by induction l. Qed.

Lemma union_step_chain (fuel i : nat) (parent : gmap Z Z) :
  (1 ≤ fuel)%nat →
  chain_parent i parent →
  ∃ parent',
    union_step fuel parent (Z.of_nat (S i), Z.of_nat (S i) + 1, 0, 1, None)
    = Some parent'
    ∧ chain_parent (S i) parent'.
Proof.
  intros Hfuel Hp. destruct fuel as [|fuel]; [lia|].
  cbn [union_step].
  set (u := Z.of_nat (S i)). set (v := Z.of_nat (S i) + 1).
  set (parent1 := if bool_decide (parent !! u = None) then <[u := u]> parent
                  else parent).
  assert (H1 : ∀ j, parent1 !! j = if decide (j = u) then Some u else parent !! j).
  { intros j. subst parent1. case_bool_decide as Hn.
    - destruct (decide (j = u)) as [->|?];
        [by rewrite lookup_insert_eq|by rewrite lookup_insert_ne].
    - destruct (decide (j = u)) as [->|?]; [|done].
      rewrite Hp in Hn |- *. subst u.
      repeat case_decide; try done; lia. }
  clearbody parent1.
  assert (Hv : parent1 !! v = None).
  { rewrite H1, decide_False by (subst u v; lia). rewrite Hp. subst v.
    repeat case_decide; try done; lia. }
  rewrite (bool_decide_eq_true_2 _ Hv).
  unfold UnionFind.union. cbn [UnionFind.find].
  rewrite (lookup_insert_ne _ v u) by (subst u v; lia).
  rewrite H1, decide_True by done. cbn [mbind option_bind].
  rewrite (bool_decide_eq_false_2 (u ≠ u)) by (intros Hx; by apply Hx).
  cbn [mbind option_bind]. rewrite lookup_insert_eq. cbn [mbind option_bind].
  rewrite (bool_decide_eq_false_2 (v ≠ v)) by (intros Hx; by apply Hx).
  cbn [mbind option_bind].
  rewrite (bool_decide_eq_true_2 (u ≠ v)) by (subst u v; lia).
  eexists. split; [done|]. intros j.
  destruct (decide (j = u)) as [->|Hju].
  { rewrite lookup_insert_eq. subst u v. rewrite decide_True by lia. done. }
  rewrite lookup_insert_ne by done.
  destruct (decide (j = v)) as [->|Hjv].
  { rewrite lookup_insert_eq. subst u v. rewrite decide_False by lia.
    rewrite decide_True by (split; lia). done. }
  rewrite lookup_insert_ne by done. rewrite H1, decide_False by done.
  rewrite Hp. subst u v. repeat case_decide; try done; lia.
Qed.

Lemma union_loop_chain (fuel : nat) (n : nat) :
  (1 ≤ fuel)%nat →
  ∀ (i : nat) (parent : gmap Z Z),
    chain_parent i parent →
    ∃ parent',
      foldl (λ st e, parent ← st; union_step fuel parent e) (Some parent)
            ((λ i : nat, (Z.of_nat i, Z.of_nat i + 1, 0, 1, None)) <$> seq (S i) n)
      = Some parent'
      ∧ chain_parent (i + n) parent'.
Proof.
  intros Hfuel. induction n as [|n IH]; intros i parent Hp.
  - exists parent. by rewrite Nat.add_0_r.
  - cbn [seq fmap list_fmap foldl]. cbn [mbind option_bind].
    destruct (union_step_chain fuel i parent Hfuel Hp) as (parent1 & -> & Hp1).
    destruct (IH (S i) parent1 Hp1) as (parent' & Hloop & Hp').
    exists parent'. split; [exact Hloop|].
    by replace (i + S n)%nat with (S i + n)%nat by lia.
Qed.

Lemma find_chain_too_deep (n : nat) (parent : gmap Z Z) :
  chain_parent n parent →
  ∀ (fuel : nat) (j : Z),
    1 ≤ j → Z.of_nat fuel + j ≤ Z.of_nat n + 1 →
    UnionFind.find fuel parent j = None.
Proof.
  intros Hp. induction fuel as [|fuel IH]; intros j Hj Hdeep; [done|].
  cbn [UnionFind.find]. rewrite Hp, decide_True by lia. cbn [mbind option_bind].
  rewrite bool_decide_eq_true_2 by lia.
  rewrite IH by lia. done.
Qed.

(** X13.  [extract_weakly_connected_subgraph], and [get_omega] on the
    recorded omega.  When the interpreter leaves room for more nested
    calls of [find] than the list has edges, the method returns: it
    meets no missing key and no chain of [parent] is longer than the
    number of edges.  The lists it returns share out the edges (each
    edge in exactly one list, with its multiplicity), none is empty, and
    each keeps the order of the input; two edges are in the same list
    exactly when the input connects them, edges taken in either
    direction.  The bound cannot be dropped: on the path of [n] edges
    listed from its start the union loop compresses nothing, and with
    room for [n] nested calls or fewer the method raises
    [RecursionError]. *)
Theorem extract_weakly_connected_subgraph_components (recursion_depth : nat)
    (graph : list edge) :
  ((length graph < recursion_depth)%nat →
   ∃ components : list (list edge),
     extract_weakly_connected_subgraph recursion_depth graph = Some components
     ∧ (∀ self : controller,
          _omega self = graph → get_omega recursion_depth self = Some components)
     ∧ (components = [] ↔ graph = [])
     ∧ concat components ≡ₚ graph
     ∧ Forall (λ c, c ≠ [] ∧ sublist c graph) components
     ∧ (∀ c e1 e2, c ∈ components → e1 ∈ c → e2 ∈ c →
          weakly_connected graph (endpoints e1).1 (endpoints e2).1)
     ∧ (∀ (i j : nat) c1 c2 e1 e2,
          components !! i = Some c1 → components !! j = Some c2 → i ≠ j →
          e1 ∈ c1 → e2 ∈ c2 →
          ¬ weakly_connected graph (endpoints e1).1 (endpoints e2).1))
  ∧ (∀ n : nat,
       (1 ≤ n)%nat → (recursion_depth ≤ n)%nat →
       extract_weakly_connected_subgraph recursion_depth (chain n) = None
       ∧ ∀ self : controller,
           _omega self = chain n → get_omega recursion_depth self = None).
Proof.
  split.
  { intros Hdepth.
  unfold extract_weakly_connected_subgraph.
  destruct (union_find_loop recursion_depth graph ∅ [] 0 union_find_empty)
    as (parent0 & Hloop1 & Huf); [cbn; lia|].
  rewrite Hloop1.
  cbn [app Nat.add] in Huf. cbn [mbind option_bind].
  destruct Huf as (Hf & Hc & Hcov).
  destruct (group_loop recursion_depth parent0 (length graph) graph Hf
              Hdepth parent0 [] [])
    as ([parent1 components] & Hloop2 & Hnd & Hall & Hperm);
    [| | |rewrite Hloop2].
  - apply compressed_refl.
  - split; [constructor|]. split; [by intros k l ?%elem_of_nil|done].
  - intros e He. by apply Hcov.
  - cbn [mbind option_bind snd app] in *. eexists. split; [done|].
    assert (Hnil : components.*2 = [] ↔ graph = []).
    { split.
      - intros Hn. rewrite Hn in Hperm. cbn in Hperm.
        by apply Permutation_nil_l in Hperm.
      - intros ->. destruct components as [|[k l] components]; [done|].
        destruct (Hall k l) as (Hne & _); [by left|].
        cbn in Hperm. apply Permutation_nil_r in Hperm.
        apply app_eq_nil in Hperm as [-> _]. done. }
    split.
    { intros self Hself. unfold get_omega. rewrite Hself.
      case_bool_decide as Hg; [by rewrite (proj2 Hnil Hg)|].
      unfold extract_weakly_connected_subgraph.
      rewrite Hloop1. cbn [mbind option_bind]. rewrite Hloop2. done. }
    split; [done|].
    split; [done|]. split; [|split].
    + apply Forall_forall. intros c (kl & -> & Hin)%list_elem_of_fmap.
      destruct kl as [k l]. destruct (Hall k l Hin) as (? & ? & _). done.
    + intros c e1 e2 (kl & -> & Hin)%list_elem_of_fmap H1 H2.
      destruct kl as [k l]. destruct (Hall k l Hin) as (_ & _ & Hr).
      destruct (Hr e1 H1) as (n1 & Hr1). destruct (Hr e2 H2) as (n2 & Hr2).
      by apply (Hc _ _ _ _ _ _ Hr1 Hr2).
    + intros i j c1 c2 e1 e2 Hi Hj Hij H1 H2 Hwc.
      apply list_lookup_fmap_Some in Hi as ([k1 l1] & -> & Hi).
      apply list_lookup_fmap_Some in Hj as ([k2 l2] & -> & Hj).
      destruct (Hall k1 l1) as (_ & _ & Hr1); [by eapply list_elem_of_lookup_2|].
      destruct (Hall k2 l2) as (_ & _ & Hr2); [by eapply list_elem_of_lookup_2|].
      destruct (Hr1 e1 H1) as (n1 & Hn1). destruct (Hr2 e2 H2) as (n2 & Hn2).
      apply (Hc _ _ _ _ _ _ Hn1 Hn2) in Hwc. subst k2.
      apply Hij. eapply NoDup_lookup; [exact Hnd| |].
      * rewrite list_lookup_fmap, Hi. done.
      * rewrite list_lookup_fmap, Hj. done. }
  intros n Hn Hdeep.
  assert (Hraise : extract_weakly_connected_subgraph recursion_depth (chain n) = None).
  { unfold extract_weakly_connected_subgraph, chain.
    destruct n as [|n]; [lia|].
    destruct recursion_depth as [|fuel].
    - cbn [seq fmap list_fmap foldl]. cbn [mbind option_bind].
      assert (Hnone : ∀ parent e, union_step 0 parent e = None).
      { intros parent [[[[u v] l] c] w]. done. }
      rewrite Hnone, foldl_mbind_None. done.
    - assert (Hempty : chain_parent 0 ∅).
      { intros j. rewrite lookup_empty. repeat case_decide; try done; lia. }
      destruct (union_loop_chain (S fuel) (S n) ltac:(lia) 0 ∅ Hempty)
        as (parent & -> & Hp).
      cbn [mbind option_bind]. cbn [Nat.add] in Hp.
      cbn [seq fmap list_fmap foldl]. cbn [mbind option_bind group_step endpoints fst].
      rewrite (find_chain_too_deep (S n) parent Hp (S fuel) (Z.of_nat 1)) by lia.
      cbn [mbind option_bind]. rewrite foldl_mbind_None. done. }
  split; [exact Hraise|].
  intros self Hself. unfold get_omega. rewrite Hself.
  rewrite bool_decide_eq_false_2; [exact Hraise|].
  unfold chain. destruct n as [|n]; [lia|]. done.
Qed.

Lemma extract_weakly_connected_subgraph_components_witness :
  ∃ components : list (list edge),
    extract_weakly_connected_subgraph 1000 test_ts_edges = Some components
    ∧ concat components ≡ₚ test_ts_edges.
Proof.
  assert (Hdepth : (length test_ts_edges < 1000)%nat) by (cbn; lia).
  destruct (proj1 (extract_weakly_connected_subgraph_components 1000 test_ts_edges)
              Hdepth) as (components & Heq & _ & _ & Hperm & _).
  exists components. exact (conj Heq Hperm).
Defined.

(** ** The artificial nodes and the node map *)

Lemma intermediate_nodes_cons (base : Z) (e : edge) (omega : list edge) :
  intermediate_nodes base (e :: omega)
  = intermediate_pair (base + 1) (base + 2) e ++ intermediate_nodes (base + 2) omega.
Proof.
  unfold intermediate_nodes. rewrite imap_cons. cbn [concat].
  replace (base + 2 * Z.of_nat 0 + 1) with (base + 1) by lia.
  replace (base + 2 * Z.of_nat 0 + 2) with (base + 2) by lia.
  f_equal. f_equal. apply imap_ext. intros i x _. simpl.
  f_equal; lia.
Qed.

Lemma intermediate_nodes_ids (omega : list edge) :
  ∀ (base : Z) (nd : node),
    nd ∈ intermediate_nodes base omega →
    base < id nd ≤ base + 2 * Z.of_nat (length omega)
    ∧ is_restriction_node nd = true.
Proof.
  induction omega as [|[[[[u v] l] c] w] omega IH]; intros base nd Hnd.
  - by apply elem_of_nil in Hnd.
  - rewrite intermediate_nodes_cons in Hnd. cbn [length].
    apply elem_of_app in Hnd as [Hnd|Hnd].
    + cbn [intermediate_pair] in Hnd.
      apply elem_of_cons in Hnd as [->|Hnd]; [cbn; split; [lia|done]|].
      apply list_elem_of_singleton in Hnd as ->. cbn; split; [lia|done].
    + apply IH in Hnd as [Hid Hflag]. split; [lia|done].
Qed.

Lemma foldl_omega_edge_step_nodes (vS_global_id vD_global_id : Z)
    (omega : list edge) :
  ∀ (self : controller) (gp : graph_processor) (mx : Z),
    let gp' :=
      (foldl (omega_edge_step vS_global_id vD_global_id) (self, gp, mx) omega).1.2 in
    ts_nodes gp' = ts_nodes gp ++ intermediate_nodes mx omega
    ∧ (∀ nd, nd ∈ intermediate_nodes mx omega → map_nodes gp' !! id nd = Some nd)
    ∧ (∀ k, ¬ (mx < k ≤ mx + 2 * Z.of_nat (length omega)) →
            map_nodes gp' !! k = map_nodes gp !! k).
Proof.
  induction omega as [|[[[[u v] l] c] w] omega IH]; intros self gp mx; cbv zeta.
  - cbn [foldl fst snd]. rewrite app_nil_r. split; [done|].
    split; [by intros nd ?%elem_of_nil|]. intros k _. reflexivity.
  - cbn [foldl]. cbn [omega_edge_step].
    replace (mx + 1 + 1) with (mx + 2) by lia.
    match goal with
    | |- context [foldl _ (?s, ?g, ?m) omega] =>
        destruct (IH s g m) as (Hn & Hreg & Hframe)
    end.
    cbv zeta in Hn, Hreg, Hframe. rewrite Hn. cbn [set_map_nodes set_ts_nodes ts_nodes].
    rewrite intermediate_nodes_cons. cbn [intermediate_pair].
    rewrite <- app_assoc. split; [done|]. split.
    + intros nd [Hnd|Hnd]%elem_of_app.
      * rewrite Hframe.
        2:{ apply elem_of_cons in Hnd as [->|Hnd];
              [|apply list_elem_of_singleton in Hnd as ->]; cbn; lia. }
        cbn [set_map_nodes set_ts_nodes map_nodes].
        apply elem_of_cons in Hnd as [->|Hnd].
        -- cbn [id RestrictionArtificialNode].
           rewrite lookup_insert_ne by lia. by rewrite lookup_insert_eq.
        -- apply list_elem_of_singleton in Hnd as ->.
           cbn [id RestrictionArtificialNode]. by rewrite lookup_insert_eq.
      * by apply Hreg.
    + intros k Hk. cbn [length] in Hk. rewrite Hframe by lia.
      cbn [set_map_nodes set_ts_nodes map_nodes].
      rewrite !lookup_insert_ne by lia. done.
Qed.

(** One producing round: the nodes it appends and registers. *)
Lemma restriction_step_nodes `{Collaborators} (self : controller)
    (gp : graph_processor) (mx : Z) (restriction_item : restriction) :
  let omega := restriction_omega self gp restriction_item in
  let gp' := (restriction_step (self, gp, mx) restriction_item).1.2 in
  let new_nodes :=
    global_nodes self restriction_item mx ++ intermediate_nodes (mx + 2) omega in
  omega ≠ [] →
  0 < restriction_virtual_flow self gp restriction_item →
  ts_nodes gp' = ts_nodes gp ++ new_nodes
  ∧ (∀ nd, nd ∈ new_nodes → map_nodes gp' !! id nd = Some nd).
Proof.
  destruct restriction_item as [[[[[redges [start_tf end_tf]] U] priority] gamma_config] k_val].
  intros omega gp' new_nodes Hne Hpos. subst gp' new_nodes.
  unfold restriction_step.
  fold (restriction_omega self gp (redges, (start_tf, end_tf), U, priority, gamma_config, k_val)).
  fold omega.
  destruct omega as [|e0 omega0] eqn:Homega; [done|].
  unfold restriction_virtual_flow in Hpos. fold omega in Hpos. rewrite Homega in Hpos.
  cbn [ts_edges set_omega] in *.
  destruct (Z.leb_spec
              (calculate_virtual_flow
                 (calculate_max_flow (e0 :: omega0)
                    (calculate_incoming_capacity_for_restricted_nodes
                       (ts_edges gp) (identify_restricted_nodes (e0 :: omega0)))
                    (calculate_outgoing_capacity_for_restricted_nodes
                       (ts_edges gp) (identify_restricted_nodes (e0 :: omega0))))
                 U) 0) as [Hle|_]; [lia|].
  replace (mx + 1 + 1) with (mx + 2) by lia.
  match goal with
  | |- context [foldl (omega_edge_step ?a ?b) (?s, ?g, ?m) ?o] =>
      destruct (foldl_omega_edge_step_nodes a b o s g m) as (Hn & Hreg & Hframe);
      destruct (foldl (omega_edge_step a b) (s, g, m) o) as [[self2 gp2] mx2]
  end.
  cbv zeta in Hn, Hreg, Hframe. cbn [fst snd] in *.
  cbn [set_map_nodes set_ts_nodes ts_nodes map_nodes] in *.
  rewrite Hn, <- app_assoc. split; [done|].
  intros nd [Hnd|Hnd]%elem_of_app; [|by apply Hreg].
  unfold global_nodes in Hnd. cbn [restrictions set_omega] in Hframe.
  apply elem_of_cons in Hnd as [->|Hnd].
  - cbn [id RestrictionArtificialNode]. rewrite Hframe by lia.
    rewrite lookup_insert_ne by lia. by rewrite lookup_insert_eq.
  - apply list_elem_of_singleton in Hnd as ->.
    cbn [id RestrictionArtificialNode]. rewrite Hframe by lia.
    by rewrite lookup_insert_eq.
Qed.








Lemma restriction_step_registered `{Collaborators} (self : controller)
    (gp : graph_processor) (mx : Z) (restriction_item : restriction) :
  let st' := restriction_step (self, gp, mx) restriction_item in
  ∃ new_nodes : list node,
    mx ≤ st'.2
    ∧ ts_nodes st'.1.2 = ts_nodes gp ++ new_nodes
    ∧ (∀ nd, nd ∈ new_nodes →
             mx < id nd ≤ st'.2 ∧ map_nodes st'.1.2 !! id nd = Some nd)
    ∧ (∀ k, k ≤ mx → map_nodes st'.1.2 !! k = map_nodes gp !! k).
Proof.
  cbv zeta.
  destruct (restriction_step_cases self gp mx restriction_item)
    as [[_ Heq]|[(_ & _ & Heq)|(Hne & Hpos & self' & gp' & Heq & Hg & _)]].
  - rewrite Heq. exists []. cbn [fst snd]. rewrite app_nil_r.
    split; [lia|]. split; [done|]. split; [by intros nd ?%elem_of_nil|done].
  - rewrite Heq. exists []. cbn [fst snd]. rewrite app_nil_r.
    split; [lia|]. split; [done|]. split; [by intros nd ?%elem_of_nil|done].
  - destruct (restriction_step_nodes self gp mx restriction_item Hne Hpos)
      as [Hn Hreg].
    rewrite Heq in *. cbn [fst snd] in *.
    eexists. split; [lia|]. split; [exact Hn|]. split.
    + intros nd Hnd. split; [|by apply Hreg].
      apply elem_of_app in Hnd as [Hnd|Hnd].
      * unfold global_nodes in Hnd.
        apply elem_of_cons in Hnd as [->|Hnd]; [cbn; lia|].
        apply list_elem_of_singleton in Hnd as ->. cbn; lia.
      * apply intermediate_nodes_ids in Hnd as [Hid _]. lia.
    + intros k Hk. destruct Hg as (_ & _ & _ & _ & _ & _ & _ & Hframe & _).
      apply Hframe. lia.
Qed.

Lemma foldl_restriction_step_registered `{Collaborators} (batch : list restriction) :
  ∀ (self : controller) (gp : graph_processor) (mx : Z),
    let st' := foldl restriction_step (self, gp, mx) batch in
    ∃ new_nodes : list node,
      mx ≤ st'.2
      ∧ ts_nodes st'.1.2 = ts_nodes gp ++ new_nodes
      ∧ (∀ nd, nd ∈ new_nodes →
               mx < id nd ≤ st'.2 ∧ map_nodes st'.1.2 !! id nd = Some nd)
      ∧ (∀ k, k ≤ mx → map_nodes st'.1.2 !! k = map_nodes gp !! k).
Proof.
  induction batch as [|r batch IH]; intros self gp mx; cbv zeta.
  - exists []. cbn [foldl fst snd]. rewrite app_nil_r.
    split; [lia|]. split; [done|]. split; [by intros nd ?%elem_of_nil|done].
  - cbn [foldl].
    destruct (restriction_step_registered self gp mx r)
      as (new1 & Hmx1 & Hn1 & Hreg1 & Hframe1).
    cbv zeta in Hmx1, Hn1, Hreg1, Hframe1.
    destruct (restriction_step (self, gp, mx) r) as [[self1 gp1] mx1].
    cbn [fst snd] in *.
    destruct (IH self1 gp1 mx1) as (new2 & Hmx2 & Hn2 & Hreg2 & Hframe2).
    cbv zeta in Hmx2, Hn2, Hreg2, Hframe2.
    exists (new1 ++ new2). split; [lia|]. split; [by rewrite Hn2, Hn1, app_assoc|].
    split.
    + intros nd [Hnd|Hnd]%elem_of_app.
      * destruct (Hreg1 nd Hnd) as [Hid Hmap]. split; [lia|].
        rewrite Hframe2 by lia. done.
      * destruct (Hreg2 nd Hnd) as [Hid Hmap]. split; [lia|done].
    + intros k Hk. rewrite Hframe2 by lia. by apply Hframe1.
Qed.

(** X15.  After the loop and the commit of [apply_restriction], the
    node list is the one left by the reset followed by the artificial
    nodes of the batch.  Each of them is a restriction node whose id is
    above the seed, is recorded in the ledger, and is the key under which
    the node map holds it; their ids are pairwise distinct; every
    recorded id belongs to one of them; and the node map is unchanged at
    the ids up to the seed. *)
Theorem apply_batch_registers_nodes `{Collaborators} (self : controller)
    (gp : graph_processor) :
  let gp1 := (reset_artifacts self gp).2 in
  let self' := (apply_batch self gp).1 in
  let gp' := (apply_batch self gp).2 in
  ∃ new_nodes : list node,
    ts_nodes gp' = ts_nodes gp1 ++ new_nodes
    ∧ (∀ nd : node, nd ∈ new_nodes →
         map_nodes gp' !! id nd = Some nd
         ∧ is_restriction_node nd = true
         ∧ id nd ∈ _all_additional_nodes self'
         ∧ get_max_id gp1 < id nd)
    ∧ (∀ k : Z, k ∈ _all_additional_nodes self' →
         ∃ nd : node, nd ∈ new_nodes ∧ id nd = k)
    ∧ NoDup (id <$> new_nodes)
    ∧ (∀ k : Z, k ≤ get_max_id gp1 → map_nodes gp' !! k = map_nodes gp1 !! k).
Proof.
  cbv zeta. unfold apply_batch.
  destruct (reset_artifacts_ledger self gp) as (Hn1 & _).
  destruct (reset_artifacts self gp) as [self1 gp1]. cbn [fst snd] in *.
  destruct (foldl_restriction_step_grows (restrictions self1) self1 gp1 (get_max_id gp1))
    as (self2 & gp2 & mx2 & n & new_edges & Hfold & Hg & _).
  destruct (foldl_restriction_step_registered (restrictions self1) self1 gp1
              (get_max_id gp1)) as (new_nodes & Hmx & Hn & Hreg & Hframe).
  cbv zeta in Hmx, Hn, Hreg, Hframe. rewrite Hfold in *. cbn [fst snd] in *.
  destruct (commit_frame self2 gp2) as (Hcn & Hcm & _).
  rewrite Hcn, Hcm.
  destruct Hg as (_ & _ & _ & Hnodes & (new_nodes' & Hts & Hids & Hflags) & _).
  assert (new_nodes' = new_nodes) as ->.
  { rewrite Hts in Hn. by apply app_inv_head in Hn. }
  rewrite Hn1 in Hnodes.
  exists new_nodes. split; [done|]. split; [|split; [|split; [|done]]].
  - intros nd Hnd. destruct (Hreg nd Hnd) as [Hid Hmap].
    split; [done|]. split; [by apply (proj1 (Forall_forall _ _) Hflags)|].
    split; [|lia]. rewrite Hnodes, elem_of_union, elem_of_list_to_set, <- Hids.
    left. by apply list_elem_of_fmap_2.
  - intros k Hk. rewrite Hnodes, elem_of_union, elem_of_list_to_set, <- Hids in Hk.
    destruct Hk as [Hk|Hk]; [|by apply not_elem_of_empty in Hk].
    apply list_elem_of_fmap in Hk as (nd & -> & Hnd). by exists nd.
  - rewrite Hids. apply NoDup_seqZ.
Qed.

(** ** Node ids, time steps and spatial coordinates *)

Lemma indexer_of_sum (self : controller) (t s : Z) :
  1 ≤ s ≤ _M self →
  _get_node_time self (t * _M self + s) = t
  ∧ _get_node_coordinates self (t * _M self + s) = s.
Proof.
  intros Hs. unfold _get_node_time, _get_node_coordinates.
  rewrite time_helper_canonical, coordinate_helper_canonical by lia.
  replace (t * _M self + s - 1) with ((s - 1) + t * _M self) by lia.
  rewrite Z.div_add, Z.mod_add by lia.
  rewrite Z.div_small, Z.mod_small by lia. lia.
Qed.

(** X16.  The two index helpers split a node id into a time step and a
    spatial coordinate and lose nothing: for a positive number of
    spatial nodes, [id = time * M + coordinate] with the coordinate
    between 1 and [M]; conversely [t * M + s] with [s] between 1 and
    [M] has time [t] and coordinate [s].  Hence the node [id + M] is the
    same place one step later, and ids from 1 on have a time step that
    is not negative. *)
Theorem indexer_round_trip (self : controller) (node_id : Z) :
  1 ≤ _M self →
  node_id = _get_node_time self node_id * _M self + _get_node_coordinates self node_id
  ∧ 1 ≤ _get_node_coordinates self node_id ≤ _M self
  ∧ (∀ t s : Z, 1 ≤ s ≤ _M self →
       _get_node_time self (t * _M self + s) = t
       ∧ _get_node_coordinates self (t * _M self + s) = s)
  ∧ _get_node_time self (node_id + _M self) = _get_node_time self node_id + 1
  ∧ _get_node_coordinates self (node_id + _M self)
    = _get_node_coordinates self node_id
  ∧ (1 ≤ node_id → 0 ≤ _get_node_time self node_id).
Proof.
  intros HM.
  assert (Hsplit : node_id = _get_node_time self node_id * _M self
                             + _get_node_coordinates self node_id
                   ∧ 1 ≤ _get_node_coordinates self node_id ≤ _M self).
  { unfold _get_node_time, _get_node_coordinates.
    rewrite time_helper_canonical, coordinate_helper_canonical by lia.
    pose proof (Z.div_mod (node_id - 1) (_M self) ltac:(lia)) as Hdm.
    pose proof (Z.mod_pos_bound (node_id - 1) (_M self) ltac:(lia)) as Hb.
    split; lia. }
  destruct Hsplit as [Hid Hrange].
  split; [exact Hid|]. split; [exact Hrange|].
  split; [intros t s; apply indexer_of_sum|].
  destruct (indexer_of_sum self (_get_node_time self node_id + 1)
              (_get_node_coordinates self node_id) Hrange) as [Ht Hs].
  replace ((_get_node_time self node_id + 1) * _M self
           + _get_node_coordinates self node_id)
    with (node_id + _M self) in Ht, Hs by lia.
  split; [exact Ht|]. split; [exact Hs|].
  intros Hpos. unfold _get_node_time.
  rewrite time_helper_canonical by lia. apply Z.div_pos; lia.
Qed.

Lemma indexer_round_trip_witness :
  8 = _get_node_time (init test_graph) 8 * 3 + _get_node_coordinates (init test_graph) 8
  ∧ _get_node_time (init test_graph) (5 + 3) = _get_node_time (init test_graph) 5 + 1.
Proof.
  assert (1 ≤ _M (init test_graph)) as HM by (simpl; lia).
  split.
  - exact (proj1 (indexer_round_trip (init test_graph) 8 HM)).
  - exact (proj1 (proj2 (proj2 (proj2 (indexer_round_trip (init test_graph) 5 HM))))).
Defined.

(** ** Cleanup in any state *)

(** X17.  [remove_artificial_artifact] on any controller and any graph,
    whatever filled the ledger.  It empties the ledger and keeps the
    restrictions and the gamma floor; the node list loses exactly the
    nodes whose id is recorded, and the node map the recorded keys; the
    edge list keeps the edges whose endpoint pair is not that of a
    recorded edge and, when an edge was recorded, gains the recorded
    omega (without repetition); with no recorded edge the edge list is
    untouched, even when omega is not empty.  A second cleanup changes
    nothing. *)
Theorem cleanup_postcondition (self : controller) (gp : graph_processor) :
  let cleaned := remove_artificial_artifact self gp in
  ledger_empty cleaned.1
  ∧ restrictions cleaned.1 = restrictions self
  ∧ _min_gamma cleaned.1 = _min_gamma self
  ∧ ts_nodes cleaned.2
    = filter (λ n : node, id n ∉ _all_additional_nodes self) (ts_nodes gp)
  ∧ (∀ k : Z, map_nodes cleaned.2 !! k
              = if decide (k ∈ _all_additional_nodes self) then None
                else map_nodes gp !! k)
  ∧ (∀ e : edge,
       e ∈ ts_edges cleaned.2
       ↔ (e ∈ ts_edges gp ∧ endpoints e ∉ endpoints <$> _all_additional_edges self)
         ∨ (_all_additional_edges self ≠ [] ∧ e ∈ _omega self))
  ∧ (∃ restored : list edge,
       ts_edges cleaned.2
       = filter (λ e : edge,
                   endpoints e
                     ∉ (list_to_set (endpoints <$> _all_additional_edges self)
                        : gset (Z * Z)))
                (ts_edges gp) ++ restored
       ∧ NoDup restored)
  ∧ (_all_additional_edges self = [] → ts_edges cleaned.2 = ts_edges gp)
  ∧ M cleaned.2 = M gp
  ∧ remove_artificial_artifact cleaned.1 cleaned.2 = cleaned.
Proof.
  cbv zeta.
  destruct (remove_artificial_artifact_ledger self gp)
    as (Hn & He & Ho & Hd & Hr & _ & Hg).
  cbv zeta in Hn, He, Ho, Hd, Hr, Hg.
  destruct (remove_artificial_artifact_graph self gp) as (Hnodes & Hmap & HM & Hedges).
  cbv zeta in Hnodes, Hmap, HM, Hedges.
  assert (Hempty : ledger_empty (remove_artificial_artifact self gp).1) by done.
  split; [done|]. split; [done|]. split; [done|]. split; [done|].
  split; [done|]. split; [done|]. split; [|split; [|split; [done|]]].
  - eexists. split; [apply remove_artificial_artifact_ts_edges|].
    case_decide; [constructor|apply NoDup_elements].
  - intros Hnil. rewrite remove_artificial_artifact_ts_edges, Hnil.
    rewrite decide_True by done. rewrite app_nil_r. apply filter_all.
    apply Forall_forall. intros e _. apply not_elem_of_empty.
  - rewrite (remove_artificial_artifact_empty _ _ Hempty).
    by destruct (remove_artificial_artifact self gp).
Qed.
